(** * kaic: partitioned edge store, matrix assembler and buffered overlay

    A shallow embedding of [kaic/matrix.py] (classes [Edge],
    [RegionPairsContainer], [RegionMatrixContainer], [RegionPairsTable],
    [RegionMatrixTable]) and of [kaic/plotting/hic_plotter.py]
    (class [BufferedMatrix]).

    Conventions of the embedding:
    - region and edge indices are Python ints, here [Z];
    - partition indices are list positions returned by [bisect_right],
      here [nat];
    - weights and biases are IEEE binary64 numbers, here the primitive
      [float] of the kernel, so that [5.0 / (1.0 * 2.0)] evaluates as it
      does in numpy;
    - dictionaries ([_edge_table_dict], [_edge_buffer]) are [gmap]s keyed
      by the partition pair;
    - a method that may raise returns a [Result]; a generator returns the
      rows it yielded together with the exception that ended it, if any. *)

From Stdlib Require Import ZArith Lia List String Bool Permutation.
From Corelib Require Import PrimFloat.
From stdpp Require Import gmap list strings.

Open Scope Z_scope.

(** ** Python runtime pieces *)

Module Py.

Inductive Exc :=
| ValueError | KeyError | IndexError | TypeError | AttributeError
(* the error kinds of region resolution *)
| IndexOutOfRange | UnknownChromosome | EmptyRange.

Inductive Result (A : Type) :=
| Ok (a : A)
| Raise (e : Exc).
Arguments Ok {A} a.
Arguments Raise {A} e.

Definition bind {A B : Type} (r : Result A) (k : A -> Result B) : Result B :=
  match r with
  | Ok a => k a
  | Raise e => Raise e
  end.

(** [range(a, b)] over list positions. *)
Definition range (a b : nat) : list nat := seq a (b - a).

(** [bisect.bisect_right(a, x)] of the Python standard library:
    [lo, hi = 0, len(a)]; while [lo < hi]: [mid = (lo + hi) // 2];
    if [x < a[mid]] then [hi = mid] else [lo = mid + 1]; return [lo].
    The interval shrinks at every turn, so [len(a)] turns are enough. *)
Fixpoint bisect_loop (fuel : nat) (a : list Z) (x : Z) (lo hi : nat) : nat :=
  match fuel with
  | O => lo
  | S fuel' =>
      if (lo <? hi)%nat then
        let mid := ((lo + hi) / 2)%nat in
        if x <? nth mid a 0 then bisect_loop fuel' a x lo mid
        else bisect_loop fuel' a x (mid + 1)%nat hi
      else lo
  end.

Definition bisect_right (a : list Z) (x : Z) : nat :=
  bisect_loop (length a) a x 0%nat (length a).

(** The "upper bound" of [x] in [a]: how many elements are [<= x]. *)
Definition upper_bound (a : list Z) (x : Z) : nat :=
  length (List.filter (fun b => b <=? x) a).

(** [a] is strictly increasing. *)
Fixpoint strictly_increasing (a : list Z) : bool :=
  match a with
  | [] => true
  | x :: rest =>
      match rest with
      | [] => true
      | y :: _ => (x <? y) && strictly_increasing rest
      end
  end.

End Py.

Notation "x <- r ;; k" := (Py.bind r (fun x => k))
  (at level 100, r at next level, right associativity).

(** ** Regions, edges and [as_edge] *)

(** A row of the regions table of a [RegionMatrixTable]; [valid] and
    [bias] are read with [getattr(r, name, default)], so each may be
    missing on a region object. *)
Record Region := mkRegion {
  ix : Z;
  chromosome : string;
  start : Z;
  end_ : Z;
  valid : option bool;
  bias : option float;
}.

(** The source or sink handed to [Edge(source, sink, ...)]: an index or a
    region object (whose [ix] the [source]/[sink] properties return). *)
Inductive Node :=
| NodeIx (i : Z)
| NodeRegion (r : Region).

(** [Edge]: [_source], [_sink] and the keyword fields; the only field of a
    [RegionMatrixTable] edge is [weight], which is absent when the
    constructor got no [weight=] keyword. *)
Record Edge := mkEdge {
  _source : Node;
  _sink : Node;
  weight : option float;
}.

Definition node_ix (n : Node) : Z :=
  match n with
  | NodeIx i => i
  | NodeRegion r => ix r
  end.

(** The properties [Edge.source] and [Edge.sink]. *)
Definition source (e : Edge) : Z := node_ix (_source e).
Definition sink (e : Edge) : Z := node_ix (_sink e).

(** A Python sequence as [as_edge] reads it: its first two items are
    nodes, the third and later ones numbers. *)
Inductive PySeq :=
| Seq0
| Seq1 (a : Node)
| Seq2 (a b : Node)
| SeqN (a b : Node) (w : float) (rest : list float).

(** [edge[0]], [edge[1]] and [edge[2]]; out of range is [IndexError]. *)
Definition seq_item0 (s : PySeq) : Py.Result Node :=
  match s with
  | Seq0 => Py.Raise Py.IndexError
  | Seq1 a | Seq2 a _ | SeqN a _ _ _ => Py.Ok a
  end.

Definition seq_item1 (s : PySeq) : Py.Result Node :=
  match s with
  | Seq0 | Seq1 _ => Py.Raise Py.IndexError
  | Seq2 _ b | SeqN _ b _ _ => Py.Ok b
  end.

Definition seq_item2 (s : PySeq) : Py.Result float :=
  match s with
  | Seq0 | Seq1 _ | Seq2 _ _ => Py.Raise Py.IndexError
  | SeqN _ _ w _ => Py.Ok w
  end.

(** What [as_edge] (and so [add_edge]) may be given. *)
Inductive EdgeLike :=
| OfEdge (e : Edge)
    (* an [Edge] instance *)
| OfDict (src snk : option Node) (w : option float)
    (* a dict with some of the keys 'source', 'sink', 'weight' *)
| OfTuple (s : PySeq)
| OfList (s : PySeq)
| OfObject (src snk : option Z) (w : option float).
    (* any other object, with some of the attributes source, sink, weight *)

(** [as_edge], block by block. *)

(* try: return Edge( **edge ) except TypeError: pass *)
Definition as_edge_kwargs (x : EdgeLike) : option Edge :=
  match x with
  | OfDict (Some s) (Some t) w => Some (mkEdge s t w)
  | _ => None
  end.

(* if isinstance(edge, tuple) and len(edge) > 1 and both are regions *)
Definition as_edge_region_tuple (x : EdgeLike) : option Edge :=
  match x with
  | OfTuple (Seq2 (NodeRegion a) (NodeRegion b)) =>
      Some (mkEdge (NodeIx (ix a)) (NodeIx (ix b)) None)
  | OfTuple (SeqN (NodeRegion a) (NodeRegion b) w _) =>
      Some (mkEdge (NodeIx (ix a)) (NodeIx (ix b)) (Some w))
  | _ => None
  end.

(* try: source, sink = edge[0], edge[1]
        try: weight = edge[2] except IndexError: weight = 1
        return Edge(source, sink, weight=weight)
   except (TypeError, IndexError): pass
   A dict raises KeyError at [edge[0]], which is not caught. *)
Definition as_edge_sequence (x : EdgeLike) : Py.Result (option Edge) :=
  match x with
  | OfDict _ _ _ => Py.Raise Py.KeyError
  | OfTuple s | OfList s =>
      match seq_item0 s, seq_item1 s with
      | Py.Ok a, Py.Ok b =>
          let weight :=
            match seq_item2 s with
            | Py.Ok w => w
            | Py.Raise _ => 1%float
            end in
          Py.Ok (Some (mkEdge a b (Some weight)))
      | _, _ => Py.Ok None
      end
  | _ => Py.Ok None
  end.

(* try: weight = getattr(edge, 'weight', None) ...
   except AttributeError: pass *)
Definition as_edge_attributes (x : EdgeLike) : option Edge :=
  match x with
  | OfObject (Some s) (Some t) w => Some (mkEdge (NodeIx s) (NodeIx t) w)
  | _ => None
  end.

Definition as_edge (x : EdgeLike) : Py.Result Edge :=
  match x with
  | OfEdge e => Py.Ok e
  | _ =>
      match as_edge_kwargs x with
      | Some e => Py.Ok e
      | None =>
          match as_edge_region_tuple x with
          | Some e => Py.Ok e
          | None =>
              r <- as_edge_sequence x ;;
              match r with
              | Some e => Py.Ok e
              | None =>
                  match as_edge_attributes x with
                  | Some e => Py.Ok e
                  | None => Py.Raise Py.ValueError
                  end
              end
          end
      end
  end.

(** ** The partitioned edge store ([RegionPairsTable]) *)

Module Store.

(** A record of an edge table of a [RegionMatrixTable]: the columns
    [source] (position 0), [sink] (position 1) and [weight]. *)
Record Row := mkRow {
  row_source : Z;
  row_sink : Z;
  row_weight : float;
}.

(** [partitioning_strategy]: the string ['chromosome'], an int (the
    constructor's [range(b, n, b)] raises on 0 and is empty below 0, so
    a store with bins has a positive one), or anything else. *)
Inductive Strategy :=
| ByChromosome
| FixedBins (b : positive)
| NoPartitions.

(** The handle [row] of [add_edge(edge, row=row)]: the row at position
    [h_pos] of the edge table of [h_table]. PyTables hands such a handle
    out while it iterates that table, so it designates a stored row. *)
Record RowHandle := mkHandle {
  h_table : nat * nat;
  h_pos : nat;
}.

Record T := mkT {
  regions : list Region;
  _regions_dirty : bool;
  _partitioning_strategy : Strategy;
  _partition_breaks : list Z;
  _edge_table_dict : gmap (nat * nat) (list Row);
  _edge_buffer : gmap (nat * nat) (list Row);
  _edge_buffer_size : Z;
  _edges_dirty : bool;
  _edge_index_dirty : bool;
}.

Definition len_regions (st : T) : Z := Z.of_nat (length (regions st)).

(** The default of the [weight] column, [tables.Float64Col()]. *)
Definition weight_default : float := 0%float.

(** *** Partition map *)

(* for i, region in enumerate(regions):
     if region.chromosome != previous and previous is not None: append(i)
     previous = region.chromosome *)
Fixpoint chromosome_breaks (i : Z) (previous : option string) (rs : list Region)
  : list Z :=
  match rs with
  | [] => []
  | region :: rest =>
      let tail := chromosome_breaks (i + 1) (Some (chromosome region)) rest in
      match previous with
      | Some c => if String.eqb (chromosome region) c then tail else i :: tail
      | None => tail
      end
  end.

(* range(cur, stop, step) for a positive step *)
Fixpoint range_step (fuel : nat) (cur stop step : Z) : list Z :=
  match fuel with
  | O => []
  | S fuel' =>
      if cur <? stop then cur :: range_step fuel' (cur + step) stop step else []
  end.

Definition compute_breaks (strategy : Strategy) (rs : list Region) : list Z :=
  match strategy with
  | ByChromosome => chromosome_breaks 0 None rs
  | FixedBins b =>
      range_step (length rs) (Z.pos b) (Z.of_nat (length rs)) (Z.pos b)
  | NoPartitions => []
  end.

Definition with_breaks (st : T) (breaks : list Z) : T :=
  mkT (regions st) (_regions_dirty st) (_partitioning_strategy st) breaks
      (_edge_table_dict st) (_edge_buffer st) (_edge_buffer_size st)
      (_edges_dirty st) (_edge_index_dirty st).

Definition _update_partitions (st : T) : T :=
  with_breaks st (compute_breaks (_partitioning_strategy st) (regions st)).

Definition _get_partition_ix (st : T) (region_ix : Z) : nat :=
  Py.bisect_right (_partition_breaks st) region_ix.

Definition _get_edge_table_tuple (st : T) (source sink : Z) : nat * nat :=
  let '(source, sink) := if source >? sink then (sink, source) else (source, sink) in
  (_get_partition_ix st source, _get_partition_ix st sink).

(** *** Construction

    The store of a new file once the regions [rs] are added and flushed
    and before any edge is added: the constructor creates the template
    table [(0, 0)] and the empty buffer and clears the dirty flags, and
    [_update_partitions] computes the breaks of the regions. *)

Definition init (rs : list Region) (strategy : Strategy) (buffer_size : Z) : T :=
  mkT rs false strategy (compute_breaks strategy rs)
      {[ (0, 0)%nat := [] ]} ∅ buffer_size false false.

(** *** Writing *)

(** [_create_edge_table(source_partition, sink_partition)]: the
    template [(0, 0)] it copies the columns from exists in every
    store (the constructor reads it in [_update_field_names]). *)
Definition _create_edge_table (key : nat * nat)
    (tables : gmap (nat * nat) (list Row)) : gmap (nat * nat) (list Row) :=
  match tables !! key with
  | Some _ => tables
  | None => <[key := []]> tables
  end.

(** One turn of the loop of [_flush_table_edge_buffer] (the keys of the
    buffer are distinct, so the order of the turns does not matter):
    [for key, records in self._edge_buffer.items():
       if not key in self._edge_table_dict: self._create_edge_table(key)
       self._edge_table_dict[key].append(records)]. *)
Definition flush_step (key : nat * nat) (records : list Row)
    (tables : gmap (nat * nat) (list Row)) : gmap (nat * nat) (list Row) :=
  let tables := _create_edge_table key tables in
  <[key := default [] (tables !! key) ++ records]> tables.

Definition with_edges (st : T) (tables buffer : gmap (nat * nat) (list Row))
    (edges_dirty index_dirty : bool) : T :=
  mkT (regions st) (_regions_dirty st) (_partitioning_strategy st)
      (_partition_breaks st) tables buffer (_edge_buffer_size st)
      edges_dirty index_dirty.

Definition _flush_table_edge_buffer (st : T) : T :=
  with_edges st
    (map_fold flush_step (_edge_table_dict st) (_edge_buffer st)) ∅
    (_edges_dirty st) (_edge_index_dirty st).

(** [_flush_regions]: [RegionsTable._flush_regions] ([kaic/regions.py],
    not among the sources) writes the pending regions, after which they
    are no longer dirty; then the partitions are recomputed. *)
Definition _flush_regions (st : T) : T :=
  if _regions_dirty st then
    let st := _update_partitions st in
    mkT (regions st) false (_partitioning_strategy st) (_partition_breaks st)
        (_edge_table_dict st) (_edge_buffer st) (_edge_buffer_size st)
        (_edges_dirty st) (_edge_index_dirty st)
  else st.

(** [_flush_edges]; [_mappability_dirty] is set to [False] by the
    constructor and by nothing else, so its branch never runs. *)
Definition _flush_edges (st : T) : T :=
  if _edges_dirty st then
    let st :=
      if (0 <? size (_edge_buffer st))%nat then _flush_table_edge_buffer st else st in
    with_edges st (_edge_table_dict st) (_edge_buffer st) false false
  else st.

Definition flush (st : T) : T := _flush_edges (_flush_regions st).

(* sum(len(records) for records in self._edge_buffer.values()) *)
Definition buffered_count (buffer : gmap (nat * nat) (list Row)) : nat :=
  map_fold (fun _ records n => (n + length records)%nat) 0%nat buffer.

Definition _add_edge_from_tuple (st : T) (edge : Row) : T :=
  let source := row_source edge in
  let sink := row_sink edge in
  let '(source, sink) := if source >? sink then (sink, source) else (source, sink) in
  let key := _get_edge_table_tuple st source sink in
  let buffer :=
    <[key := default [] (_edge_buffer st !! key) ++ [edge]]> (_edge_buffer st) in
  let st := with_edges st (_edge_table_dict st) buffer
              (_edges_dirty st) (_edge_index_dirty st) in
  let st :=
    if _edge_buffer_size st <? Z.of_nat (buffered_count (_edge_buffer st))
    then _flush_table_edge_buffer st else st in
  with_edges st (_edge_table_dict st) (_edge_buffer st) true true.

(* row['source'] = source; row['sink'] = sink
   row['weight'] = value or row['weight'] += value, when the edge has one *)
Definition update_row (source sink : Z) (value : option float) (replace : bool)
    (row : Row) : Row :=
  mkRow source sink
    match value with
    | Some v => if replace then v else PrimFloat.add (row_weight row) v
    | None => row_weight row
    end.

Definition _add_edge (st : T) (edge : Edge) (row : option RowHandle)
    (replace : bool) : T :=
  let '(source, sink) :=
    if source edge >? sink edge then (sink edge, source edge)
    else (source edge, sink edge) in
  match row with
  | None =>
      let record := mkRow source sink (default weight_default (weight edge)) in
      let st := _add_edge_from_tuple st record in
      with_edges st (_edge_table_dict st) (_edge_buffer st) true true
  | Some h =>
      let tables :=
        alter (alter (update_row source sink (weight edge) replace) (h_pos h))
              (h_table h) (_edge_table_dict st) in
      with_edges st tables (_edge_buffer st) true true
  end.

Definition add_edge (st : T) (edge : EdgeLike) (check_nodes_exist : bool)
    (row : option RowHandle) (replace : bool) : Py.Result T :=
  edge <- as_edge edge ;;
  if check_nodes_exist
     && ((source edge >=? len_regions st) || (sink edge >=? len_regions st))
  then Py.Raise Py.ValueError
  else Py.Ok (_add_edge st edge row replace).

(** [RegionPairsContainer.add_edges]: the loop stops at the first edge
    that raises; the edges before it stay added. *)
Fixpoint add_edges_loop (st : T) (edges : list EdgeLike) (check_nodes_exist : bool)
  : T * option Py.Exc :=
  match edges with
  | [] => (st, None)
  | edge :: rest =>
      match add_edge st edge check_nodes_exist None false with
      | Py.Ok st' => add_edges_loop st' rest check_nodes_exist
      | Py.Raise e => (st, Some e)
      end
  end.

(** [RegionPairsTable.add_edges]: flush the regions, add, flush the
    edges (not reached when an edge raised). *)
Definition add_edges (st : T) (edges : list EdgeLike) (check_nodes_exist : bool)
  : T * option Py.Exc :=
  let st := if _regions_dirty st then _flush_regions st else st in
  match add_edges_loop st edges check_nodes_exist with
  | (st, None) => (_flush_edges st, None)
  | (st, Some e) => (st, Some e)
  end.

(** *** Reading *)

(** What a generator did: the rows it yielded, in order, and the
    exception that ended it, if one did. *)
Definition Gen : Type := list Row * option Py.Exc.

Definition gen_then (g : Gen) (rest : Gen) : Gen :=
  match g with
  | (rows, Some e) => (rows, Some e)
  | (rows, None) => (rows ++ fst rest, snd rest)
  end.

(** The rows that [_edges_iter] traverses, in its order ([edges] below
    makes the [Edge]s of them):
    [for i in range(0, len(breaks) + 1): for j in range(i, len(breaks) + 1):
     if (i, j) in self._edge_table_dict: every row of that table]. *)
Definition _edges_iter (st : T) : list Row :=
  let n := S (length (_partition_breaks st)) in
  concat
    (List.map
       (fun i =>
          concat
            (List.map (fun j => default [] (_edge_table_dict st !! (i, j)))
                      (Py.range i n)))
       (Py.range 0 n)).

Definition _min_max_region_ix (st : T) (rs : list Region) : Z * Z :=
  fold_left (fun '(min_ix, max_ix) region =>
               (Z.min min_ix (ix region), Z.max max_ix (ix region)))
            rs (len_regions st, 0).

(* try: partition_end = breaks[partition_ix]
   except IndexError: partition_end = len(self.regions)
   partition_start = breaks[partition_ix - 1] if partition_ix > 0 else 0 *)
Definition _is_partition_covered (st : T) (partition_ix : nat)
    (region_ix_start region_ix_end : Z) : Py.Result bool :=
  let partition_end :=
    default (len_regions st) (_partition_breaks st !! partition_ix) in
  partition_start <-
    (if (0 <? partition_ix)%nat then
       match _partition_breaks st !! (partition_ix - 1)%nat with
       | Some b => Py.Ok b
       | None => Py.Raise Py.IndexError
       end
     else Py.Ok 0) ;;
  Py.Ok ((region_ix_start <=? partition_start)
         && (region_ix_end >=? partition_end - 1)).

(** The condition string
    ["(%d < source) & (source < %d) & (% d < sink) & (sink < %d)"]
    with its four numbers filled in. *)
Record Condition := mkCondition {
  source_above : Z;
  source_below : Z;
  sink_above : Z;
  sink_below : Z;
}.

Definition satisfies (c : Condition) (row : Row) : bool :=
  (source_above c <? row_source row) && (row_source row <? source_below c)
  && (sink_above c <? row_sink row) && (row_sink row <? sink_below c).

(** [edge_table.where(condition)] *)
Definition where_ (table : list Row) (c : Condition) : list Row :=
  List.filter (satisfies c) table.

(** Modelled from the spec: [range_overlap] of [kaic/tools/general.py],
    which is not among the sources; the spec gives the overlap of the
    row and column ranges as [O = [max(r0,c0), min(r1,c1)]] when that is
    non-empty. *)
Definition range_overlap (s1 e1 s2 e2 : Z) : option (Z * Z) :=
  let lo := Z.max s1 s2 in
  let hi := Z.min e1 e2 in
  if lo <=? hi then Some (lo, hi) else None.

Definition in_overlap (overlap : option (Z * Z)) (row : Row) : bool :=
  match overlap with
  | Some (lo, hi) =>
      (lo <=? row_source row) && (row_source row <=? hi)
      && (lo <=? row_sink row) && (row_sink row <=? hi)
  | None => false
  end.

(** The body of the inner loop of [_edge_subset_rows_from_regions],
    after the swap of [i] and [j]. *)
Definition visit_table (st : T) (i j : nat)
    (row_start row_end col_start col_end : Z) : Gen :=
  match _edge_table_dict st !! (i, j) with
  | None => ([], Some Py.KeyError)
  | Some edge_table =>
      let covered :=
        ci <- _is_partition_covered st i row_start row_end ;;
        if ci then _is_partition_covered st j col_start col_end
        else Py.Ok false in
      match covered with
      | Py.Raise e => ([], Some e)
      | Py.Ok true => (edge_table, None)
      | Py.Ok false =>
          let condition1 :=
            mkCondition (row_start - 1) (row_end + 1) (col_start - 1) (col_end + 1) in
          let condition2 :=
            mkCondition (col_start - 1) (col_end + 1) (row_start - 1) (row_end + 1) in
          let '(condition1, condition2) :=
            if row_start >? col_start then (condition2, condition1)
            else (condition1, condition2) in
          let overlap := range_overlap row_start row_end col_start col_end in
          (where_ edge_table condition1
             ++ List.filter (fun row => negb (in_overlap overlap row))
                            (where_ edge_table condition2),
           None)
      end
  end.

(** The inner loop: [for j in range(...): if j < i: i, j = j, i; ...].
    The swap assigns the loop variable [i] of the outer loop, which
    keeps its new value for the later turns of the inner loop. *)
Fixpoint inner_loop (st : T) (i : nat) (js : list nat)
    (row_start row_end col_start col_end : Z) : Gen :=
  match js with
  | [] => ([], None)
  | j :: js' =>
      let '(i, j) := if (j <? i)%nat then (j, i) else (i, j) in
      gen_then (visit_table st i j row_start row_end col_start col_end)
               (inner_loop st i js' row_start row_end col_start col_end)
  end.

Fixpoint outer_loop (st : T) (is_ js : list nat)
    (row_start row_end col_start col_end : Z) : Gen :=
  match is_ with
  | [] => ([], None)
  | i :: is' =>
      gen_then (inner_loop st i js row_start row_end col_start col_end)
               (outer_loop st is' js row_start row_end col_start col_end)
  end.

Definition _edge_subset_rows_from_regions (st : T)
    (row_regions col_regions : list Region) : Gen :=
  let '(row_start, row_end) := _min_max_region_ix st row_regions in
  let '(col_start, col_end) := _min_max_region_ix st col_regions in
  let row_partition_start := _get_partition_ix st row_start in
  let row_partition_end := _get_partition_ix st row_end in
  let col_partition_start := _get_partition_ix st col_start in
  let col_partition_end := _get_partition_ix st col_end in
  outer_loop st
    (Py.range row_partition_start (row_partition_end + 1))
    (Py.range col_partition_start (col_partition_end + 1))
    row_start row_end col_start col_end.

(** *** Keys *)

(** One axis of a key. *)
Inductive RegionKey :=
| KeyNone                     (* None: every region *)
| KeyIx (i : Z)               (* an int *)
| KeySlice (a b : Z)          (* slice(a, b, 1) with 0 <= a *)
| KeyChromosome (c : string). (* a chromosome name *)

Inductive Key :=
| Key1 (k : RegionKey)               (* not a tuple *)
| Key2 (row_key col_key : RegionKey). (* a 2-tuple *)

(** Modelled from the spec: [RegionsTable.regions(key)] of
    [kaic/regions.py], which is not among the sources. The spec: a key
    is an integer (one region), a half-open integer range (a contiguous
    window) or a chromosome string (the regions of that chromosome);
    [IndexOutOfRange] on an invalid index, [UnknownChromosome] when no
    region has that chromosome, [EmptyRange] when the key resolves to no
    region. *)
Definition resolve (rs : list Region) (k : RegionKey) : Py.Result (list Region) :=
  match k with
  | KeyNone => Py.Ok rs
  | KeyIx i =>
      if (0 <=? i) && (i <? Z.of_nat (length rs))
      then Py.Ok (take 1 (drop (Z.to_nat i) rs))
      else Py.Raise Py.IndexOutOfRange
  | KeySlice a b =>
      match take (Z.to_nat b - Z.to_nat a) (drop (Z.to_nat a) rs) with
      | [] => Py.Raise Py.EmptyRange
      | window => Py.Ok window
      end
  | KeyChromosome c =>
      match List.filter (fun r => String.eqb (chromosome r) c) rs with
      | [] => Py.Raise Py.UnknownChromosome
      | found => Py.Ok found
      end
  end.

(* if isinstance(key, tuple): row_key, col_key = key
   else: row_key = key; col_key = slice(0, len(self.regions), 1) *)
Definition _key_to_regions (st : T) (key : Key)
  : Py.Result (list Region * list Region) :=
  let '(row_key, col_key) :=
    match key with
    | Key2 row_key col_key => (row_key, col_key)
    | Key1 row_key => (row_key, KeySlice 0 (len_regions st))
    end in
  row_regions <- resolve (regions st) row_key ;;
  col_regions <- resolve (regions st) col_key ;;
  Py.Ok (row_regions, col_regions).

Definition _edge_subset_rows (st : T) (key : Key) : Gen :=
  match _key_to_regions st key with
  | Py.Ok (row_regions, col_regions) =>
      _edge_subset_rows_from_regions st row_regions col_regions
  | Py.Raise e => ([], Some e)
  end.

(** Modelled from the spec: [self.regions[ix]], the [get(ix)] of the
    region table ([kaic/regions.py], not among the sources), which fails
    with [IndexOutOfRange] on an invalid index. *)
Definition region_at (st : T) (i : Z) : Py.Result Region :=
  if 0 <=? i then
    match regions st !! Z.to_nat i with
    | Some r => Py.Ok r
    | None => Py.Raise Py.IndexOutOfRange
    end
  else Py.Raise Py.IndexOutOfRange.

(** [_row_to_edge(row)] with [lazy=False]: the regions at [source] and
    [sink] become the nodes of the edge. *)
Definition _row_to_edge (st : T) (row : Row) : Py.Result Edge :=
  source_node <- region_at st (row_source row) ;;
  sink_node <- region_at st (row_sink row) ;;
  Py.Ok (mkEdge (NodeRegion source_node) (NodeRegion sink_node)
                (Some (row_weight row))).

(** [self.edges(key)]: [_edges_iter()] when [key is None], else
    [edge_subset(key)]; the edges made of the rows, up to the first
    exception. *)
Fixpoint rows_to_edges (st : T) (rows : list Row) : Py.Result (list Edge) :=
  match rows with
  | [] => Py.Ok []
  | row :: rest =>
      e <- _row_to_edge st row ;;
      es <- rows_to_edges st rest ;;
      Py.Ok (e :: es)
  end.

Definition edges (st : T) (key : option Key) : Py.Result (list Edge) :=
  match key with
  | None => rows_to_edges st (_edges_iter st)
  | Some key =>
      let '(rows, exc) := _edge_subset_rows st key in
      es <- rows_to_edges st rows ;;
      match exc with
      | Some e => Py.Raise e
      | None => Py.Ok es
      end
  end.

End Store.

(** ** The matrix assembler ([RegionMatrixContainer.matrix]) *)

Module Assembler.

(** A [RegionMatrix]: the dense array, its mask when the array is a
    masked one ([None] for a plain array, which is what
    [RegionMatrix.__new__] makes), and the regions of the two axes.
    (The interval trees that [RegionMatrix.__new__] builds only serve
    region-keyed indexing of the result and are left out.) *)
Record RegionMatrix := mkRegionMatrix {
  data : list (list float);
  mask : option (list (list bool));
  row_regions : list Region;
  col_regions : list Region;
}.

(** [matrix] returns [m[0, 0]] for a pair of ints: a number, or the
    [masked] constant. *)
Inductive MatrixResult :=
| Scalar (value : float) (masked : bool)
| Matrix (m : RegionMatrix).

(** [np.full((rows, cols), v)], [np.zeros(shape, dtype=bool)] *)
Definition np_full {A : Type} (rows cols : nat) (v : A) : list (list A) :=
  replicate rows (replicate cols v).

(** [m[i][j]] *)
Definition entry {A : Type} (m : list (list A)) (i j : nat) : option A :=
  row ← m !! i; row !! j.

(** [m[ir, jr] = weight], for indices within the shape *)
Definition set_entry {A : Type} (m : list (list A)) (ir jr : nat) (w : A)
  : list (list A) :=
  alter (fun row => <[jr := w]> row) ir m.

(* if 0 <= ir < m.shape[0] and 0 <= jr < m.shape[1]: m[ir, jr] = weight *)
Definition write_if_inside (shape : nat * nat) (m : list (list float))
    (ir jr : Z) (w : float) : list (list float) :=
  if (0 <=? ir) && (ir <? Z.of_nat (fst shape))
     && (0 <=? jr) && (jr <? Z.of_nat (snd shape))
  then set_entry m (Z.to_nat ir) (Z.to_nat jr) w
  else m.

(** One turn of the loop over [matrix_entries]. *)
Definition assemble_step (shape : nat * nat) (row_offset col_offset : Z)
    (m : list (list float)) (e : Z * Z * float) : list (list float) :=
  let '(source, sink, weight) := e in
  let m := write_if_inside shape m (source - row_offset) (sink - col_offset) weight in
  write_if_inside shape m (sink - row_offset) (source - col_offset) weight.

(** [matrix_entries(key, score_field)] with the score field at its
    default, ['weight'], the one data column of a [RegionMatrixTable]:
    [(edge.source, edge.sink, getattr(edge, 'weight', 0.0))]. *)
Definition _default_value : float := 0%float.

Definition matrix_entries (st : Store.T) (key : option Store.Key)
  : Py.Result (list (Z * Z * float)) :=
  es <- Store.edges st key ;;
  Py.Ok (List.map (fun e => (source e, sink e, default _default_value (weight e))) es).

(** The value of the expression [m / row_biases[:, None] / col_biases]. *)
Definition divide_biases (m : list (list float)) (row_biases col_biases : list float)
  : list (list float) :=
  zip_with (fun row b => zip_with (fun x c => PrimFloat.div (PrimFloat.div x b) c)
                                  row col_biases)
           m row_biases.

(** A Python index [k] into an axis of length [n]. *)
Definition py_index (n : nat) (k : Z) : Py.Result nat :=
  if (0 <=? k) && (k <? Z.of_nat n) then Py.Ok (Z.to_nat k)
  else if (- Z.of_nat n <=? k) && (k <? 0) then Py.Ok (Z.to_nat (k + Z.of_nat n))
  else Py.Raise Py.IndexError.

(** [mask[k] = True] on the two-dimensional [mask]: all of row [k]. *)
Definition mask_set (mask : list (list bool)) (k : Z) : Py.Result (list (list bool)) :=
  i <- py_index (length mask) k ;;
  Py.Ok (alter (fun row => replicate (length row) true) i mask).

(* for region in regions:
     valid = getattr(region, 'valid', True)
     if not valid: mask[region.ix - - offset] = True *)
Fixpoint mask_invalid_regions (mask : list (list bool)) (rs : list Region)
    (offset : Z) : Py.Result (list (list bool)) :=
  match rs with
  | [] => Py.Ok mask
  | region :: rest =>
      mask <- (if default true (valid region) then Py.Ok mask
               else mask_set mask (ix region - - offset)) ;;
      mask_invalid_regions mask rest offset
  end.

(** The mask that [matrix] builds when [mask_invalid] is set:
    [mask = np.zeros(m.shape, dtype=bool)], the loop over the row
    regions, the loop over the column regions. *)
Definition invalid_mask (shape : nat * nat) (row_regions col_regions : list Region)
    (row_offset col_offset : Z) : Py.Result (list (list bool)) :=
  let mask := np_full (fst shape) (snd shape) false in
  mask <- mask_invalid_regions mask row_regions row_offset ;;
  mask_invalid_regions mask col_regions col_offset.

(** [RegionMatrix.__new__(cls, input_matrix, col_regions, row_regions)]:
    [obj = np.asarray(input_matrix).view(cls)]. [np.asarray] hands back
    the data of a [MaskedArray] as a plain array, so the new object has
    no mask, whatever mask [input_matrix] had. *)
Definition __new__ (input_matrix : list (list float))
    (input_mask : option (list (list bool)))
    (col_regions row_regions : list Region) : RegionMatrix :=
  mkRegionMatrix input_matrix None row_regions col_regions.

Definition first_ix (rs : list Region) : Py.Result Z :=
  match rs with
  | r :: _ => Py.Ok (ix r)
  | [] => Py.Raise Py.IndexError
  end.

Definition is_int_pair (key : option Store.Key) : bool :=
  match key with
  | Some (Store.Key2 (Store.KeyIx _) (Store.KeyIx _)) => true
  | _ => false
  end.

Definition matrix (st : Store.T) (key : option Store.Key)
    (default_value : option float) (mask_invalid : bool) : Py.Result MatrixResult :=
  let default_value := default _default_value default_value in
  regions <- Store._key_to_regions st (default (Store.Key1 Store.KeyNone) key) ;;
  let '(row_regions, col_regions) := regions in
  row_offset <- first_ix row_regions ;;
  col_offset <- first_ix col_regions ;;
  let row_biases := List.map (fun r => default 1%float (bias r)) row_regions in
  let col_biases := List.map (fun r => default 1%float (bias r)) col_regions in
  let shape := (length row_regions, length col_regions) in
  let m := np_full (fst shape) (snd shape) default_value in
  entries <- matrix_entries st key ;;
  let m := fold_left (assemble_step shape row_offset col_offset) entries m in
  (* remove matrix biases: the quotient is computed and dropped *)
  let _quotient := divide_biases m row_biases col_biases in
  (* m = np.ma.MaskedArray(m, mask=mask) *)
  mask <-
    (if mask_invalid then
       mask <- invalid_mask shape row_regions col_regions row_offset col_offset ;;
       Py.Ok (Some mask)
     else Py.Ok None) ;;
  if is_int_pair key then
    (* return m[0, 0] *)
    match entry m 0 0 with
    | Some v =>
        Py.Ok (Scalar v (default false (mask ← mask; entry mask 0 0)))
    | None => Py.Raise Py.IndexError
    end
  else
    (* return RegionMatrix(m, row_regions=row_regions, col_regions=col_regions) *)
    Py.Ok (Matrix (__new__ m mask col_regions row_regions)).

End Assembler.

(** ** The scenario of the specification *)

Module Scenario.

Import Store Assembler.

Definition region (i : Z) (c : string) (s e : Z) (v : bool) (b : float) : Region :=
  mkRegion i c s e (Some v) (Some b).

Definition regions3 : list Region :=
  [ region 0 "chr1" 0 10 true 1; region 1 "chr1" 10 20 true 1;
    region 2 "chr2" 0 10 true 1 ]%float.

Definition triple (a b : Z) (w : float) : EdgeLike :=
  OfTuple (SeqN (NodeIx a) (NodeIx b) w []).

Definition edges3 : list EdgeLike :=
  [ triple 0 1 5; triple 1 2 3; triple 0 2 1 ]%float.

(** A new store over [rs], the edges [es] added with [add_edges]. *)
Definition build (rs : list Region) (es : list EdgeLike) : Store.T :=
  fst (add_edges (init rs ByChromosome 1000000) es true).

Definition store3 : Store.T := build regions3 edges3.

(** The same regions with [regions[1].bias = 2.0] and
    [regions[2].bias = 0.5]. *)
Definition regions3_biased : list Region :=
[ region 0 "chr1" 0 10 true 1; region 1 "chr1" 10 20 true 2;
  region 2 "chr2" 0 10 true 0.5 ]%float.

Definition store3_biased : Store.T := build regions3_biased edges3.

(** The same regions with region 2 marked invalid. *)
Definition regions3_invalid : list Region :=
[ region 0 "chr1" 0 10 true 1; region 1 "chr1" 10 20 true 1;
  region 2 "chr2" 0 10 false 1 ]%float.

Definition store3_invalid : Store.T := build regions3_invalid edges3.

(** What [matrix()] returns on the scenario. *)
Definition matrix3 : RegionMatrix :=
mkRegionMatrix [ [0; 5; 1]; [5; 0; 3]; [1; 3; 0] ]%float None regions3 regions3.

(** A new store over the three regions, nothing added yet. *)
Definition empty3 : Store.T := init regions3 ByChromosome 1000000.

(** The pair [(a, b)] with no weight, and the stored rows of the
    scenario. *)
Definition pair (a b : Z) : EdgeLike := OfTuple (Seq2 (NodeIx a) (NodeIx b)).

Definition row01 : Row := mkRow 0 1 5%float.
Definition row12 : Row := mkRow 1 2 3%float.
Definition row02 : Row := mkRow 0 2 1%float.

End Scenario.
(** ** The buffered overlay ([BufferedMatrix]) *)

Module Overlay.

(** A query region: [GenomicRegion(chromosome, start, end)], where
    [start] and [end] may be [None]. *)
Record GenomicRegion := mkGenomicRegion {
  g_chromosome : string;
  g_start : option Z;
  g_end : option Z;
}.

(** Modelled from the spec: [GenomicRegion.contains] of
    [kaic/data/genomic.py], which is not among the sources. The spec
    has the cache hit when the buffered region is a superset of the
    queried one on each axis: same chromosome, and the queried interval
    within the buffered one, a missing bound of the buffered region
    being open. *)
Definition contains (rb rq : GenomicRegion) : bool :=
  String.eqb (g_chromosome rb) (g_chromosome rq)
  && match g_start rb, g_start rq with
     | None, _ => true
     | Some b, Some q => b <=? q
     | Some _, None => false
     end
  && match g_end rb, g_end rq with
     | None, _ => true
     | Some b, Some q => q <=? b
     | Some _, None => false
     end.

(** The key of a read [self.data[key]]. *)
Inductive DataKey :=
| FullSlices (n : nat)                    (* (slice(0, None, None),) * n *)
| RegionKeys (rs : list GenomicRegion).   (* tuple(self.buffered_region) *)

(** [buffered_region]: the string ["all"] or a list of regions. *)
Inductive BufferedRegion :=
| AllBuffered
| RegionsBuffered (rs : list GenomicRegion).

Inductive Strategy := BufferAll | BufferRelative | BufferFixed.

Definition _STRATEGY_ALL : string := "all".
Definition _STRATEGY_FIXED : string := "fixed".
Definition _STRATEGY_RELATIVE : string := "relative".

Definition _BUFFERING_STRATEGIES : gmap string Strategy :=
  <[_STRATEGY_ALL := BufferAll]>
    (<[_STRATEGY_RELATIVE := BufferRelative]>
       (<[_STRATEGY_FIXED := BufferFixed]> ∅)).

Section WithData.

(** The buffered data and the matrices it returns: [data[key]] reads
    the underlying data, [matrix[regions]] slices a matrix in
    memory. Either may raise. *)
Context {Data Matrix : Type}.
Variable data_getitem : Data -> DataKey -> Py.Result Matrix.
Variable matrix_getitem : Matrix -> list GenomicRegion -> Py.Result Matrix.
Variable region_contains : GenomicRegion -> GenomicRegion -> bool.

(** The attributes of an object under construction; [None] is an
    attribute that has not been assigned. *)
Record Attrs := mkAttrs {
  a_data : option (option Data);
  a_buffering_strategy : option string;
  a_buffering_arg : option Z;
  a_buffered_region : option (option BufferedRegion);
  a_buffered_matrix : option (option Matrix);
}.

Definition no_attrs : Attrs := mkAttrs None None None None None.

(** [__init__]: the object as the method leaves it, and the exception
    it raised, if any. *)
Definition __init__ (self : Attrs) (data : option Data)
    (buffering_strategy : string) (buffering_arg : Z) : Attrs * option Py.Exc :=
  let self := mkAttrs (Some data) (a_buffering_strategy self) (a_buffering_arg self)
                      (a_buffered_region self) (a_buffered_matrix self) in
  match _BUFFERING_STRATEGIES !! buffering_strategy with
  | None => (self, Some Py.ValueError)
  | Some _ =>
      (mkAttrs (a_data self) (Some buffering_strategy) (Some buffering_arg)
               (Some None) (Some None),
       None)
  end.

(** A constructed [BufferedMatrix]. *)
Record BufferedMatrix := mkBufferedMatrix {
  data : option Data;
  buffering_strategy : string;
  buffering_arg : Z;
  buffered_region : option BufferedRegion;
  buffered_matrix : option Matrix;
}.

(** [BufferedMatrix(data, buffering_strategy, buffering_arg)] *)
Definition new (data : option Data) (buffering_strategy : string)
    (buffering_arg : Z) : Py.Result BufferedMatrix :=
  match __init__ no_attrs data buffering_strategy buffering_arg with
  | (_, Some e) => Py.Raise e
  | (mkAttrs (Some d) (Some s) (Some k) (Some r) (Some m), None) =>
      Py.Ok (mkBufferedMatrix d s k r m)
  | (_, None) => Py.Raise Py.AttributeError
  end.

(** [from_hic_matrix] *)
Definition from_hic_matrix (hic_matrix : Matrix) : Py.Result BufferedMatrix :=
  bm <- new None "all" 1 ;;
  Py.Ok (mkBufferedMatrix (data bm) (buffering_strategy bm) (buffering_arg bm)
                          (Some AllBuffered) (Some hic_matrix)).

(* all(rb.contains(rq) for rb, rq in it.izip(self.buffered_region, regions)) *)
Definition all_contained (rbs rqs : list GenomicRegion) : bool :=
  forallb (fun p => region_contains (fst p) (snd p)) (combine rbs rqs).

Definition is_buffered_region (self : BufferedMatrix) (regions : list GenomicRegion)
  : bool :=
  match buffered_region self, buffered_matrix self with
  | None, _ | _, None => false
  | Some AllBuffered, Some _ => true
  | Some (RegionsBuffered rbs), Some _ => all_contained rbs regions
  end.

(** What a method did: the object afterwards, the reads of [data] it
    made, in order, and its result. *)
Record Outcome (A : Type) := mkOutcome {
  state : BufferedMatrix;
  fetched : list DataKey;
  result : Py.Result A;
}.
Arguments mkOutcome {A}.
Arguments state {A}.
Arguments fetched {A}.
Arguments result {A}.

(* self.buffered_matrix = self.data[key] *)
Definition fetch (self : BufferedMatrix) (key : DataKey) : Outcome unit :=
  match data self with
  | None => mkOutcome self [] (Py.Raise Py.TypeError)
  | Some d =>
      match data_getitem d key with
      | Py.Ok m =>
          mkOutcome (mkBufferedMatrix (data self) (buffering_strategy self)
                       (buffering_arg self) (buffered_region self) (Some m))
                    [key] (Py.Ok tt)
      | Py.Raise e => mkOutcome self [key] (Py.Raise e)
      end
  end.

Definition set_buffered_region (self : BufferedMatrix) (r : BufferedRegion)
  : BufferedMatrix :=
  mkBufferedMatrix (data self) (buffering_strategy self) (buffering_arg self)
                   (Some r) (buffered_matrix self).

Definition _buffer_all (self : BufferedMatrix) (regions : list GenomicRegion)
  : Outcome unit :=
  fetch (set_buffered_region self AllBuffered) (FullSlices (length regions)).

(** The region that [_buffer_relative] buffers for the query [rq]. *)
Definition relative_region (buffering_arg : Z) (rq : GenomicRegion) : GenomicRegion :=
  match g_start rq, g_end rq with
  | Some rq_start, Some rq_end =>
      let rq_size := rq_end - rq_start in
      let new_start := Z.max 1 (rq_start - rq_size * buffering_arg) in
      let new_end := rq_end + rq_size * buffering_arg in
      mkGenomicRegion (g_chromosome rq) (Some new_start) (Some new_end)
  | _, _ => mkGenomicRegion (g_chromosome rq) None None
  end.

Definition _buffer_relative (self : BufferedMatrix) (regions : list GenomicRegion)
  : Outcome unit :=
  let rbs := List.map (relative_region (buffering_arg self)) regions in
  fetch (set_buffered_region self (RegionsBuffered rbs)) (RegionKeys rbs).

(** The region that [_buffer_fixed] buffers for the query [rq]. *)
Definition fixed_region (buffering_arg : Z) (rq : GenomicRegion) : GenomicRegion :=
  match g_start rq, g_end rq with
  | Some rq_start, Some rq_end =>
      let new_start := Z.max 1 (rq_start - buffering_arg) in
      let new_end := rq_end + buffering_arg in
      mkGenomicRegion (g_chromosome rq) (Some new_start) (Some new_end)
  | _, _ => mkGenomicRegion (g_chromosome rq) None None
  end.

Definition _buffer_fixed (self : BufferedMatrix) (regions : list GenomicRegion)
  : Outcome unit :=
  let rbs := List.map (fixed_region (buffering_arg self)) regions in
  fetch (set_buffered_region self (RegionsBuffered rbs)) (RegionKeys rbs).

Definition run_strategy (s : Strategy)
  : BufferedMatrix -> list GenomicRegion -> Outcome unit :=
  match s with
  | BufferAll => _buffer_all
  | BufferRelative => _buffer_relative
  | BufferFixed => _buffer_fixed
  end.

(* return self.buffered_matrix[tuple(regions)] *)
Definition slice_buffered (self : BufferedMatrix) (regions : list GenomicRegion)
  : Py.Result Matrix :=
  match buffered_matrix self with
  | Some m => matrix_getitem m regions
  | None => Py.Raise Py.TypeError
  end.

Definition get_matrix (self : BufferedMatrix) (regions : list GenomicRegion)
  : Outcome Matrix :=
  let regions := rev regions in
  if is_buffered_region self regions then
    mkOutcome self [] (slice_buffered self regions)
  else
    match _BUFFERING_STRATEGIES !! buffering_strategy self with
    | None => mkOutcome self [] (Py.Raise Py.KeyError)
    | Some strategy =>
        let o := run_strategy strategy self regions in
        match result o with
        | Py.Ok _ => mkOutcome (state o) (fetched o) (slice_buffered (state o) regions)
        | Py.Raise e => mkOutcome (state o) (fetched o) (Py.Raise e)
        end
    end.

End WithData.

Arguments mkOutcome {Data Matrix A}.
Arguments state {Data Matrix A}.
Arguments fetched {Data Matrix A}.
Arguments result {Data Matrix A}.

End Overlay.

(** ** Counting and mappability ([RegionPairsContainer]) *)

Module Container.

Import Store.

(** [RegionPairsTable._edges_length], the [len()] of the store and of
    its [edges]:
    [s = 0; for edge_table in self._edge_table_dict.values():
     s += len(edge_table)]. *)
Definition _edges_length (st : T) : nat :=
map_fold (fun _ edge_table s => (s + length edge_table)%nat) 0%nat
         (_edge_table_dict st).

(** [mappable[k] = True] on the one-dimensional vector. *)
Definition set_true (mappable : list bool) (k : Z) : Py.Result (list bool) :=
i <- Assembler.py_index (length mappable) k ;;
Py.Ok (<[i := true]> mappable).

(** The loop of [mappable] over [self.edges(lazy=True)]: a lazy edge
    reads [source] and [sink] off its row. *)
Fixpoint mappable_loop (mappable : list bool) (rows : list Row)
  : Py.Result (list bool) :=
match rows with
| [] => Py.Ok mappable
| row :: rest =>
    mappable <- set_true mappable (row_source row) ;;
    mappable <- set_true mappable (row_sink row) ;;
    mappable_loop mappable rest
end.

(* mappable = np.zeros(len(self.regions), dtype=bool) *)
Definition mappable (st : T) : Py.Result (list bool) :=
mappable_loop (replicate (length (regions st)) false) (_edges_iter st).

End Container.

(** * Predicates of the statements *)

(** On a sorted list bisection keeps "everything left of [lo] is [<= x],
    everything from [hi] on is [> x]". *)
Definition sorted_nth (a : list Z) : Prop :=
forall i j, (i <= j < length a)%nat -> nth i a 0 <= nth j a 0.

Definition splits_at (a : list Z) (x : Z) (r : nat) : Prop :=
(r <= length a)%nat
/\ (forall k, (k < r)%nat -> nth k a 0 <= x)
/\ (forall k, (r <= k < length a)%nat -> x < nth k a 0).

(** The rows of the sub-table [key] once the buffer is flushed: the
    stored ones, then the buffered ones. *)
Definition contents (st : Store.T) (key : nat * nat) : list Store.Row :=
default [] (Store._edge_table_dict st !! key)
++ default [] (Store._edge_buffer st !! key).

(** A key [(i, j)] of the edge tables: [i <= j], both partitions of the
    store. *)
Definition key_ok (breaks : list Z) (key : nat * nat) : bool :=
(key.1 <=? key.2)%nat && (key.2 <=? length breaks)%nat.

(** The edge [(s, t)] of [row] is canonical and belongs to the sub-table
    [key]: [s <= t], [part(s) = i], [part(t) = j]. *)
Definition canonical_in (breaks : list Z) (key : nat * nat) (row : Store.Row) : bool :=
(Store.row_source row <=? Store.row_sink row)
&& (Py.bisect_right breaks (Store.row_source row) =? key.1)%nat
&& (Py.bisect_right breaks (Store.row_sink row) =? key.2)%nat.

Definition table_ok (breaks : list Z) (entry : nat * nat * list Store.Row) : bool :=
key_ok breaks entry.1 && forallb (canonical_in breaks entry.1) entry.2.

Definition tables_ok (breaks : list Z) (m : gmap (nat * nat) (list Store.Row)) : bool :=
forallb (table_ok breaks) (map_to_list m).

(** The record that [_add_edge] makes of an edge: the pair as
    [(min, max)], the weight or the default of its column. *)
Definition record_of (e : Edge) : Store.Row :=
Store.mkRow (Z.min (source e) (sink e)) (Z.max (source e) (sink e))
            (default Store.weight_default (weight e)).

(** The sub-table of an edge: the partitions of its smaller and of its
    larger index. *)
Definition key_of (st : Store.T) (e : Edge) : nat * nat :=
(Store._get_partition_ix st (Z.min (source e) (sink e)),
 Store._get_partition_ix st (Z.max (source e) (sink e))).

(** [tables_ok] read as a statement about lookups. *)
Definition TablesOk (breaks : list Z) (m : gmap (nat * nat) (list Store.Row)) : Prop :=
forall key rows, m !! key = Some rows ->
  key_ok breaks key = true
  /\ forall row, In row rows -> canonical_in breaks key row = true.

(** A well-formed store: the breaks are those of its regions, every row,
    stored or buffered, is canonical and in its sub-table, and a store
    with buffered rows is dirty. *)
Definition wf (st : Store.T) : bool :=
bool_decide (Store._partition_breaks st
             = Store.compute_breaks (Store._partitioning_strategy st) (Store.regions st))
&& tables_ok (Store._partition_breaks st) (Store._edge_table_dict st)
&& tables_ok (Store._partition_breaks st) (Store._edge_buffer st)
&& ((size (Store._edge_buffer st) =? 0)%nat || Store._edges_dirty st).

(** A dense array is symmetric; it has [n] rows of [n] entries. *)
Definition symmetric (m : list (list float)) : Prop :=
forall a b, Assembler.entry m a b = Assembler.entry m b a.

Definition has_shape (rows cols : nat) (m : list (list float)) : Prop :=
length m = rows /\ forall i row, m !! i = Some row -> length row = cols.

(** The canonical pair of [row] lies in the window [rows x cols], or in
    its transpose. *)
Definition in_window (rs re cs ce : Z) (row : Store.Row) : bool :=
(rs <=? Store.row_source row) && (Store.row_source row <=? re)
&& (cs <=? Store.row_sink row) && (Store.row_sink row <=? ce).

Definition in_window_or_transpose (rs re cs ce : Z) (row : Store.Row) : bool :=
in_window rs re cs ce row || in_window cs ce rs re row.

(** The keys that [_edges_iter] visits, in its order. *)
Definition iter_keys (n : nat) : list (nat * nat) :=
concat (List.map (fun i => List.map (fun j => (i, j)) (Py.range i n)) (Py.range 0 n)).

(** All buffered rows. *)
Definition buffered_rows (st : Store.T) : list Store.Row :=
concat (List.map snd (map_to_list (Store._edge_buffer st))).

(** Every row of the store, stored or still buffered. *)
Definition all_rows (st : Store.T) : list Store.Row :=
Store._edges_iter st ++ buffered_rows st.

(** [add_edge] takes [x]: [as_edge] makes an edge of it and, when the
    nodes are checked, neither index reaches the [n] regions. *)
Definition accepted (n : Z) (check : bool) (x : EdgeLike) : bool :=
match as_edge x with
| Py.Ok e => negb (check && ((source e >=? n) || (sink e >=? n)))
| Py.Raise _ => false
end.

(** The records of the edges among [xs]. *)
Definition records_of (xs : list EdgeLike) : list Store.Row :=
flat_map (fun x => match as_edge x with
                   | Py.Ok e => [record_of e]
                   | Py.Raise _ => []
                   end) xs.

(** The exception [add_edge] raises on a rejected [x]. *)
Definition rejection (x : EdgeLike) : Py.Exc :=
match as_edge x with
| Py.Ok _ => Py.ValueError
| Py.Raise e => e
end.

(** Both indices of every row are indices of the [n] regions. *)
Definition rows_in_range (n : Z) (rows : list Store.Row) : bool :=
forallb (fun row => (0 <=? Store.row_source row) && (Store.row_source row <? n)
                    && (0 <=? Store.row_sink row) && (Store.row_sink row <? n)) rows.

(** The entry [(source, sink, weight)] is written at [(a, b)] of a
    matrix with the offsets [row_offset] and [col_offset], directly or
    mirrored. *)
Definition lands (row_offset col_offset : Z) (a b : nat) (e : Z * Z * float) : bool :=
((e.1.1 - row_offset =? Z.of_nat a) && (e.1.2 - col_offset =? Z.of_nat b))
|| ((e.1.2 - row_offset =? Z.of_nat a) && (e.1.1 - col_offset =? Z.of_nat b)).

(** The weight of the last entry that lands on [(a, b)]. *)
Definition last_landing (row_offset col_offset : Z) (a b : nat)
    (entries : list (Z * Z * float)) : option float :=
snd <$> List.find (lands row_offset col_offset a b) (rev entries).

(** Every row of every edge table has its indices among the regions. *)
Definition store_in_range (st : Store.T) : bool :=
forallb (fun entry => rows_in_range (Store.len_regions st) entry.2)
        (map_to_list (Store._edge_table_dict st)).

(** The first region index of partition [p] and the one past its last,
    as [_is_partition_covered] reads them off the breaks. *)
Definition partition_first (st : Store.T) (p : nat) : Z :=
if (0 <? p)%nat then nth (p - 1) (Store._partition_breaks st) 0 else 0.

Definition partition_stop (st : Store.T) (p : nat) : Z :=
if (p <? length (Store._partition_breaks st))%nat
then nth p (Store._partition_breaks st) 0
else Store.len_regions st.

(** The [ix] of every region is its position in the regions table. *)
Fixpoint well_indexed_from (i : Z) (rs : list Region) : bool :=
match rs with
| [] => true
| r :: rest => (ix r =? i) && well_indexed_from (i + 1) rest
end.

Definition well_indexed (rs : list Region) : bool := well_indexed_from 0 rs.

(** The entry that [matrix_entries] makes of a row. *)
Definition entry_of (row : Store.Row) : Z * Z * float :=
(Store.row_source row, Store.row_sink row, Store.row_weight row).

(** What [as_edge] cannot make an edge of: a dict without ['source'] or
    ['sink']; a sequence of fewer than two items or an object without
    [source] or [sink]. *)
Definition dict_without_node (x : EdgeLike) : bool :=
match x with
| OfDict None _ _ | OfDict _ None _ => true
| _ => false
end.

Definition unrecognised (x : EdgeLike) : bool :=
match x with
| OfTuple Seq0 | OfTuple (Seq1 _) | OfList Seq0 | OfList (Seq1 _) => true
| OfObject None _ _ | OfObject _ None _ => true
| _ => false
end.

(** * Properties *)

(** ** Bisection *)

Section Bisect.

Import Py.

Lemma bisect_loop_S fuel a x lo hi :
  bisect_loop (S fuel) a x lo hi =
  if (lo <? hi)%nat then
    if x <? nth ((lo + hi) / 2) a 0 then bisect_loop fuel a x lo ((lo + hi) / 2)
    else bisect_loop fuel a x ((lo + hi) / 2 + 1) hi
  else lo.
Proof. reflexivity. Qed.

Lemma bisect_loop_ge fuel a x : forall lo hi,
  (lo <= bisect_loop fuel a x lo hi)%nat.
Proof.
  induction fuel as [|fuel IH]; intros lo hi; [simpl; lia|rewrite bisect_loop_S].
  destruct (Nat.ltb_spec lo hi) as [Hlt|Hge]; [|lia].
  destruct (x <? nth ((lo + hi) / 2) a 0).
  - apply IH.
  - pose proof (IH ((lo + hi) / 2 + 1)%nat hi).
    pose proof (Nat.div_le_lower_bound (lo + hi) 2 lo). lia.
Qed.

Lemma mid_bounds lo hi : (lo < hi)%nat ->
  (lo <= (lo + hi) / 2 /\ (lo + hi) / 2 < hi)%nat.
Proof.
  intros Hlt. split.
  - apply Nat.div_le_lower_bound; lia.
  - apply Nat.Div0.div_lt_upper_bound; lia.
Qed.

Lemma bisect_loop_le fuel a x : forall lo hi,
  (lo <= hi)%nat -> (bisect_loop fuel a x lo hi <= hi)%nat.
Proof.
  induction fuel as [|fuel IH]; intros lo hi Hle; [simpl; lia|rewrite bisect_loop_S].
  destruct (Nat.ltb_spec lo hi) as [Hlt|Hge]; [|lia].
  destruct (mid_bounds lo hi Hlt) as [H1 H2].
  destruct (x <? nth ((lo + hi) / 2) a 0).
  - specialize (IH lo ((lo + hi) / 2)%nat H1). lia.
  - apply IH. lia.
Qed.

(** Bisection is monotone in the searched value, on any list. *)
Lemma bisect_loop_mono fuel a x y : x <= y -> forall lo hi,
  (lo <= hi)%nat ->
  (bisect_loop fuel a x lo hi <= bisect_loop fuel a y lo hi)%nat.
Proof.
  intros Hxy. induction fuel as [|fuel IH]; intros lo hi Hle;
    [simpl; lia|rewrite !bisect_loop_S].
  destruct (Nat.ltb_spec lo hi) as [Hlt|Hge]; [|lia].
  destruct (mid_bounds lo hi Hlt) as [H1 H2].
  destruct (Z.ltb_spec x (nth ((lo + hi) / 2) a 0)) as [Hx|Hx];
    destruct (Z.ltb_spec y (nth ((lo + hi) / 2) a 0)) as [Hy|Hy].
  - apply IH; lia.
  - pose proof (bisect_loop_le fuel a x lo ((lo + hi) / 2)%nat H1).
    pose proof (bisect_loop_ge fuel a y ((lo + hi) / 2 + 1)%nat hi). lia.
  - lia.
  - apply IH; lia.
Qed.

Lemma bisect_right_mono a x y : x <= y -> (bisect_right a x <= bisect_right a y)%nat.
Proof. intros H. apply bisect_loop_mono; [exact H | lia]. Qed.

Lemma bisect_right_le_length a x : (bisect_right a x <= length a)%nat.
Proof. apply bisect_loop_le. lia. Qed.

Lemma bisect_loop_splits a x : sorted_nth a -> forall fuel lo hi,
  (lo <= hi <= length a)%nat -> (hi - lo <= fuel)%nat ->
  (forall k, (k < lo)%nat -> nth k a 0 <= x) ->
  (forall k, (hi <= k < length a)%nat -> x < nth k a 0) ->
  splits_at a x (bisect_loop fuel a x lo hi).
Proof.
  intros Hs. induction fuel as [|fuel IH]; intros lo hi Hb Hf Hlo Hhi;
    [simpl|rewrite bisect_loop_S].
  - assert (lo = hi) by lia. subst. repeat split; [lia|exact Hlo|exact Hhi].
  - destruct (Nat.ltb_spec lo hi) as [Hlt|Hge].
    + destruct (mid_bounds lo hi Hlt) as [H1 H2].
      destruct (Z.ltb_spec x (nth ((lo + hi) / 2) a 0)) as [Hx|Hx].
      * apply IH; [lia|lia|exact Hlo|].
        intros k Hk. specialize (Hs ((lo + hi) / 2)%nat k). lia.
      * apply IH; [lia|lia| |exact Hhi].
        intros k Hk. specialize (Hs k ((lo + hi) / 2)%nat). lia.
    + assert (lo = hi) by lia. subst. repeat split; [lia|exact Hlo|exact Hhi].
Qed.

Lemma splits_at_upper_bound a x r : splits_at a x r -> upper_bound a x = r.
Proof.
  unfold upper_bound. revert r.
  induction a as [|b a IH]; intros r (Hr & Hl & Hg); simpl in *.
  - lia.
  - destruct r as [|r].
    + assert (Hb : x < b) by (apply (Hg 0%nat); lia).
      destruct (Z.leb_spec b x); [lia|].
      apply (IH 0%nat). repeat split; [lia|lia|].
      intros k Hk. apply (Hg (S k)). lia.
    + assert (Hb : b <= x) by (apply (Hl 0%nat); lia).
      destruct (Z.leb_spec b x); [|lia]. simpl. f_equal.
      apply IH. repeat split; [lia| |].
      * intros k Hk. apply (Hl (S k)). lia.
      * intros k Hk. apply (Hg (S k)). lia.
Qed.

Lemma strictly_increasing_sorted a : strictly_increasing a = true -> sorted_nth a.
Proof.
  induction a as [|b a IH]; intros Hs i j Hij; simpl in *; [lia|].
  destruct a as [|c a].
  - simpl in *. assert (i = 0%nat) by lia. assert (j = 0%nat) by lia. subst. lia.
  - apply andb_true_iff in Hs as [Hbc Hs]. apply Z.ltb_lt in Hbc.
    specialize (IH Hs).
    destruct i as [|i], j as [|j]; try lia.
    + pose proof (IH 0%nat j) as H0. simpl in H0.
      assert (c <= nth j (c :: a) 0) by (apply H0; simpl in *; lia).
      change (b <= nth j (c :: a) 0). lia.
    + apply IH. simpl in *. lia.
Qed.

(** On a strictly increasing list [bisect_right] is the upper bound. *)
Lemma bisect_right_upper_bound a x :
  strictly_increasing a = true -> bisect_right a x = upper_bound a x.
Proof.
  intros Hs. symmetry. apply splits_at_upper_bound.
  apply bisect_loop_splits; try lia.
  apply strictly_increasing_sorted, Hs.
Qed.

End Bisect.

(** ** The edge store *)

Section StoreFacts.

Import Store.

Implicit Types (m tables buffer : gmap (nat * nat) (list Row)) (key : nat * nat).

Lemma tables_ok_spec breaks m : tables_ok breaks m = true <-> TablesOk breaks m.
Proof.
unfold tables_ok, TablesOk. rewrite forallb_forall. split.
- intros H key rows Hl.
  assert (Hin : In (key, rows) (map_to_list m))
    by (apply list_elem_of_In, elem_of_map_to_list, Hl).
  apply H in Hin. unfold table_ok in Hin. simpl in Hin.
  apply andb_true_iff in Hin as [Hk Hr]. split; [exact Hk|].
  apply forallb_forall, Hr.
- intros H [key rows] Hin. apply list_elem_of_In, elem_of_map_to_list in Hin.
  destruct (H _ _ Hin) as [Hk Hr]. unfold table_ok. simpl.
  apply andb_true_iff. split; [exact Hk|]. apply forallb_forall, Hr.
Qed.

Lemma wf_spec st :
  wf st = true <->
  _partition_breaks st = compute_breaks (_partitioning_strategy st) (regions st)
  /\ TablesOk (_partition_breaks st) (_edge_table_dict st)
  /\ TablesOk (_partition_breaks st) (_edge_buffer st)
  /\ (_edge_buffer st <> ∅ -> _edges_dirty st = true).
Proof.
unfold wf. rewrite !andb_true_iff, bool_decide_eq_true, !tables_ok_spec, orb_true_iff.
rewrite Nat.eqb_eq, map_size_empty_iff.
split.
- intros [[[H1 H2] H3] H4]. split; [|split; [|split]]; try assumption.
  intros Hne. destruct H4 as [H4|H4]; [contradiction|exact H4].
- intros (H1 & H2 & H3 & H4). split; [split; [split|]|]; try assumption.
  destruct (decide (_edge_buffer st = ∅)) as [He|He]; [left; exact He|right; auto].
Qed.

(** What the flush loop leaves in the table of [key]. *)
Lemma flush_lookup tables buffer key :
  map_fold flush_step tables buffer !! key =
  match buffer !! key with
  | Some records => Some (default [] (tables !! key) ++ records)
  | None => tables !! key
  end.
Proof.
apply (map_fold_weak_ind
         (fun r b => r !! key = match b !! key with
                                | Some records => Some (default [] (tables !! key) ++ records)
                                | None => tables !! key
                                end)).
- rewrite lookup_empty. reflexivity.
- intros i x b r Hi IH. unfold flush_step, _create_edge_table.
  destruct (decide (i = key)) as [->|Hne].
  + rewrite Hi in IH. rewrite !lookup_insert_eq.
    destruct (r !! key) as [old|] eqn:E.
    * rewrite E. rewrite <- IH. reflexivity.
    * rewrite lookup_insert_eq. rewrite <- IH. reflexivity.
  + rewrite (lookup_insert_ne b) by exact Hne.
    rewrite lookup_insert_ne by exact Hne.
    destruct (r !! i); [exact IH|].
    rewrite lookup_insert_ne by exact Hne. exact IH.
Qed.

Lemma contents_flush_buffer st key :
  contents (_flush_table_edge_buffer st) key = contents st key.
Proof.
unfold contents. simpl. rewrite flush_lookup, lookup_empty.
destruct (_edge_buffer st !! key); simpl; rewrite ?app_nil_r; reflexivity.
Qed.

Lemma TablesOk_flush breaks tables buffer :
  TablesOk breaks tables -> TablesOk breaks buffer ->
  TablesOk breaks (map_fold flush_step tables buffer).
Proof.
intros Ht Hb key rows Hl. rewrite flush_lookup in Hl.
destruct (buffer !! key) as [records|] eqn:Eb.
- injection Hl as <-. destruct (Hb _ _ Eb) as [Hk Hr]. split; [exact Hk|].
  intros row Hin. apply in_app_or in Hin as [Hin|Hin]; [|auto].
  destruct (tables !! key) as [old|] eqn:Et; simpl in Hin; [|contradiction].
  destruct (Ht _ _ Et) as [_ Ho]. auto.
- apply (Ht _ _ Hl).
Qed.

Lemma TablesOk_empty breaks : TablesOk breaks ∅.
Proof. intros key rows Hl. rewrite lookup_empty in Hl. discriminate. Qed.

Lemma wf_flush_buffer st : wf st = true -> wf (_flush_table_edge_buffer st) = true.
Proof.
rewrite !wf_spec. simpl. intros (H1 & H2 & H3 & H4).
split; [exact H1|].
split; [apply TablesOk_flush; assumption|].
split; [apply TablesOk_empty|].
intros Hne. contradiction.
Qed.

Lemma get_edge_table_tuple_canonical st s t : s <= t ->
  _get_edge_table_tuple st s t = (_get_partition_ix st s, _get_partition_ix st t).
Proof.
intros Hst. unfold _get_edge_table_tuple. rewrite Z.gtb_ltb.
destruct (Z.ltb_spec t s); [lia|reflexivity].
Qed.

Lemma key_ok_partitions st s t : s <= t ->
  key_ok (_partition_breaks st) (_get_partition_ix st s, _get_partition_ix st t) = true.
Proof.
intros Hst. unfold key_ok, _get_partition_ix. simpl.
apply andb_true_iff. split; apply Nat.leb_le.
- apply bisect_right_mono, Hst.
- apply bisect_right_le_length.
Qed.

Lemma canonical_in_partitions st r : row_source r <= row_sink r ->
  canonical_in (_partition_breaks st)
    (_get_partition_ix st (row_source r), _get_partition_ix st (row_sink r)) r = true.
Proof.
intros Hst. unfold canonical_in, _get_partition_ix. simpl.
rewrite !Nat.eqb_refl, !andb_true_r. apply Z.leb_le, Hst.
Qed.

(** Buffering one more canonical row keeps the buffer in order. *)
Lemma TablesOk_buffer_row st r :
  row_source r <= row_sink r ->
  TablesOk (_partition_breaks st) (_edge_buffer st) ->
  let key := (_get_partition_ix st (row_source r), _get_partition_ix st (row_sink r)) in
  TablesOk (_partition_breaks st)
    (<[key := default [] (_edge_buffer st !! key) ++ [r]]> (_edge_buffer st)).
Proof.
intros Hst Hb key k rows Hl.
destruct (decide (key = k)) as [<-|Hne].
- rewrite lookup_insert_eq in Hl. injection Hl as <-.
  split; [apply key_ok_partitions, Hst|].
  intros row Hin. apply in_app_or in Hin as [Hin|[<-|[]]].
  + destruct (_edge_buffer st !! key) as [old|] eqn:E; simpl in Hin; [|contradiction].
    destruct (Hb _ _ E) as [_ Ho]. auto.
  + apply canonical_in_partitions, Hst.
- rewrite lookup_insert_ne in Hl by exact Hne. apply (Hb _ _ Hl).
Qed.

Lemma add_tuple_frame st r :
  let st' := _add_edge_from_tuple st r in
  regions st' = regions st
  /\ _regions_dirty st' = _regions_dirty st
  /\ _partitioning_strategy st' = _partitioning_strategy st
  /\ _partition_breaks st' = _partition_breaks st
  /\ _edge_buffer_size st' = _edge_buffer_size st
  /\ _edges_dirty st' = true.
Proof.
unfold _add_edge_from_tuple.
destruct (row_source r >? row_sink r); cbn;
  match goal with |- context [if ?c then _ else _] => destruct c end;
  cbn; repeat split; reflexivity.
Qed.

Lemma add_tuple_contents st r k :
  row_source r <= row_sink r ->
  contents (_add_edge_from_tuple st r) k =
  if decide (k = (_get_partition_ix st (row_source r), _get_partition_ix st (row_sink r)))
  then contents st k ++ [r] else contents st k.
Proof.
intros Hst. unfold _add_edge_from_tuple.
replace (row_source r >? row_sink r) with false
  by (symmetry; rewrite Z.gtb_ltb; apply Z.ltb_ge, Hst).
rewrite (get_edge_table_tuple_canonical st _ _ Hst).
set (key := (_get_partition_ix st (row_source r), _get_partition_ix st (row_sink r))).
cbn zeta iota beta.
match goal with |- context [if ?c then _ else _] => destruct c end.
- change (contents (with_edges ?s (_edge_table_dict ?s) (_edge_buffer ?s) true true) k)
    with (contents s k).
  rewrite contents_flush_buffer. unfold contents. simpl.
  destruct (decide (k = key)) as [->|Hne].
  + rewrite lookup_insert_eq. simpl. rewrite app_assoc. reflexivity.
  + rewrite lookup_insert_ne by congruence. reflexivity.
- unfold contents. simpl.
  destruct (decide (k = key)) as [->|Hne].
  + rewrite lookup_insert_eq. simpl. rewrite app_assoc. reflexivity.
  + rewrite lookup_insert_ne by congruence. reflexivity.
Qed.

Lemma add_tuple_wf st r :
  row_source r <= row_sink r -> wf st = true -> wf (_add_edge_from_tuple st r) = true.
Proof.
intros Hst. rewrite !wf_spec. intros (H1 & H2 & H3 & H4).
pose proof (TablesOk_buffer_row st r Hst H3) as H3'. cbv zeta in H3'.
unfold _add_edge_from_tuple.
replace (row_source r >? row_sink r) with false
  by (symmetry; rewrite Z.gtb_ltb; apply Z.ltb_ge, Hst).
rewrite (get_edge_table_tuple_canonical st _ _ Hst).
cbn zeta iota beta.
match goal with |- context [if ?c then _ else _] => destruct c end; cbn.
- split; [exact H1|]. split; [apply TablesOk_flush; assumption|].
  split; [apply TablesOk_empty|]. reflexivity.
- split; [exact H1|]. split; [exact H2|]. split; [exact H3'|]. reflexivity.
Qed.

(** After a row is added its sub-table exists, stored or buffered. *)
Lemma add_tuple_present st r :
  row_source r <= row_sink r ->
  let key := (_get_partition_ix st (row_source r), _get_partition_ix st (row_sink r)) in
  is_Some (_edge_table_dict (_add_edge_from_tuple st r) !! key)
  \/ is_Some (_edge_buffer (_add_edge_from_tuple st r) !! key).
Proof.
intros Hst key. unfold _add_edge_from_tuple.
replace (row_source r >? row_sink r) with false
  by (symmetry; rewrite Z.gtb_ltb; apply Z.ltb_ge, Hst).
rewrite (get_edge_table_tuple_canonical st _ _ Hst). fold key.
cbn zeta iota beta.
match goal with |- context [if ?c then _ else _] => destruct c end; cbn.
- left. rewrite flush_lookup, lookup_insert_eq. eexists. reflexivity.
- right. rewrite lookup_insert_eq. eexists. reflexivity.
Qed.


Lemma add_edge_buffered_eq st e replace :
  _add_edge st e None replace = _add_edge_from_tuple st (record_of e).
Proof.
unfold _add_edge, record_of. rewrite Z.gtb_ltb.
destruct (Z.ltb_spec (sink e) (source e)) as [Hlt|Hge].
- rewrite Z.min_r, Z.max_l by lia.
  unfold _add_edge_from_tuple. cbn.
  destruct (sink e >? source e); cbn;
    match goal with |- context [if ?c then _ else _] => destruct c end; reflexivity.
- rewrite Z.min_l, Z.max_r by lia.
  unfold _add_edge_from_tuple. cbn.
  destruct (source e >? sink e); cbn;
    match goal with |- context [if ?c then _ else _] => destruct c end; reflexivity.
Qed.

Lemma record_of_canonical e : row_source (record_of e) <= row_sink (record_of e).
Proof. simpl. lia. Qed.

Lemma add_edge_buffered_wf st e replace :
  wf st = true -> wf (_add_edge st e None replace) = true.
Proof.
rewrite add_edge_buffered_eq. apply add_tuple_wf, record_of_canonical.
Qed.

Lemma add_edge_buffered_contents st e replace k :
  contents (_add_edge st e None replace) k =
  if decide (k = key_of st e) then contents st k ++ [record_of e] else contents st k.
Proof.
rewrite add_edge_buffered_eq. apply (add_tuple_contents st (record_of e) k).
apply record_of_canonical.
Qed.

Lemma add_edge_inv st x check row replace st' :
  add_edge st x check row replace = Py.Ok st' ->
  exists e, as_edge x = Py.Ok e /\ st' = _add_edge st e row replace.
Proof.
unfold add_edge. destruct (as_edge x) as [e|exc]; simpl; [|discriminate].
destruct (check && _); [discriminate|]. intros [= <-]. exists e. auto.
Qed.

Lemma flush_regions_wf st : wf st = true -> wf (_flush_regions st) = true.
Proof.
rewrite !wf_spec. intros (H1 & H2 & H3 & H4). unfold _flush_regions.
destruct (_regions_dirty st); [|auto]. cbn. rewrite <- H1. auto.
Qed.

Lemma flush_regions_contents st k :
  wf st = true -> contents (_flush_regions st) k = contents st k.
Proof. intros _. unfold _flush_regions. destruct (_regions_dirty st); reflexivity. Qed.

Lemma flush_regions_breaks st :
  wf st = true -> _partition_breaks (_flush_regions st) = _partition_breaks st.
Proof.
rewrite wf_spec. intros (H1 & _). unfold _flush_regions.
destruct (_regions_dirty st); [|reflexivity]. cbn. symmetry. exact H1.
Qed.

Lemma flush_edges_wf st : wf st = true -> wf (_flush_edges st) = true.
Proof.
intros H. unfold _flush_edges. destruct (_edges_dirty st); [|exact H].
destruct (Nat.ltb_spec 0 (size (_edge_buffer st))) as [Hs|Hs].
- apply wf_flush_buffer in H. revert H. rewrite !wf_spec. cbn.
  intros (H1 & H2 & H3 & _). split; [exact H1|]. split; [exact H2|].
  split; [exact H3|]. intros Hne. contradiction.
- revert H. rewrite !wf_spec. cbn.
  intros (H1 & H2 & H3 & _). split; [exact H1|]. split; [exact H2|].
  split; [exact H3|]. intros Hne. exfalso. apply Hne, map_size_empty_iff. lia.
Qed.

Lemma flush_edges_contents st k : contents (_flush_edges st) k = contents st k.
Proof.
unfold _flush_edges. destruct (_edges_dirty st); [|reflexivity].
destruct (0 <? size (_edge_buffer st))%nat; [|reflexivity].
apply (contents_flush_buffer st k).
Qed.

(** Once flushed, nothing is left in the buffer. *)
Lemma flush_edges_buffer st : wf st = true -> _edge_buffer (_flush_edges st) = ∅.
Proof.
rewrite wf_spec. intros (_ & _ & _ & H4). unfold _flush_edges.
destruct (_edges_dirty st) eqn:Ed.
- destruct (Nat.ltb_spec 0 (size (_edge_buffer st))) as [Hs|Hs]; [reflexivity|].
  cbn. apply map_size_empty_iff. lia.
- destruct (decide (_edge_buffer st = ∅)) as [He|He]; [exact He|].
  apply H4 in He. discriminate.
Qed.

Lemma flush_edges_breaks st : _partition_breaks (_flush_edges st) = _partition_breaks st.
Proof.
unfold _flush_edges. destruct (_edges_dirty st); [|reflexivity].
destruct (0 <? size (_edge_buffer st))%nat; reflexivity.
Qed.

(** After the flush the table of [key] holds the stored rows followed by
    the buffered ones. *)
Lemma flush_edges_stored st k :
  wf st = true -> default [] (_edge_table_dict (_flush_edges st) !! k) = contents st k.
Proof.
intros H. rewrite <- (flush_edges_contents st k). unfold contents.
rewrite (flush_edges_buffer st H), lookup_empty. simpl. rewrite app_nil_r. reflexivity.
Qed.

Lemma flush_edges_present st k :
  is_Some (_edge_table_dict st !! k) \/ is_Some (_edge_buffer st !! k) ->
  wf st = true -> is_Some (_edge_table_dict (_flush_edges st) !! k).
Proof.
intros Hp H. pose proof H as Hw. rewrite wf_spec in Hw. destruct Hw as (_ & _ & _ & H4).
assert (Hne : is_Some (_edge_buffer st !! k) -> _edge_buffer st <> ∅).
{ intros [x Hx] He. rewrite He, lookup_empty in Hx. discriminate. }
unfold _flush_edges. destruct (_edges_dirty st) eqn:Ed.
- destruct (Nat.ltb_spec 0 (size (_edge_buffer st))) as [Hs|Hs]; cbn.
  + rewrite flush_lookup. destruct (_edge_buffer st !! k); [eexists; reflexivity|].
    destruct Hp as [Hp|[x Hx]]; [exact Hp|discriminate].
  + destruct Hp as [Hp|Hp]; [exact Hp|]. apply Hne in Hp.
    exfalso. apply Hp, map_size_empty_iff. lia.
- destruct Hp as [Hp|Hp]; [exact Hp|]. apply Hne, H4 in Hp. discriminate.
Qed.

Lemma flush_wf st : wf st = true -> wf (flush st) = true.
Proof. intros H. apply flush_edges_wf, flush_regions_wf, H. Qed.

Lemma add_edges_loop_wf edges check : forall st,
  wf st = true -> wf (add_edges_loop st edges check).1 = true.
Proof.
induction edges as [|x edges IH]; intros st H; simpl; [exact H|].
destruct (add_edge st x check None false) as [st'|exc] eqn:E; [|exact H].
apply IH. apply add_edge_inv in E as (e & _ & ->).
apply add_edge_buffered_wf, H.
Qed.

Lemma add_edges_wf st edges check :
  wf st = true -> wf (add_edges st edges check).1 = true.
Proof.
intros H. unfold add_edges.
assert (H' : wf (if _regions_dirty st then _flush_regions st else st) = true).
{ destruct (_regions_dirty st); [apply flush_regions_wf, H|exact H]. }
pose proof (add_edges_loop_wf edges check _ H') as Hl.
destruct (add_edges_loop _ edges check) as [st' [exc|]]; simpl in *; [exact Hl|].
apply flush_edges_wf, Hl.
Qed.

(** The breaks that the constructor computes are strictly increasing. *)
Lemma chromosome_breaks_above rs : forall i previous b,
  In b (chromosome_breaks i previous rs) -> i <= b.
Proof.
induction rs as [|r rs IH]; intros i previous b Hin; simpl in Hin; [contradiction|].
assert (Ht : In b (chromosome_breaks (i + 1) (Some (chromosome r)) rs) -> i <= b).
{ intros Hb. apply IH in Hb. lia. }
destruct previous as [c|]; [|auto].
destruct (String.eqb (chromosome r) c); [auto|].
destruct Hin as [<-|Hin]; [lia|auto].
Qed.

Lemma strictly_increasing_cons b a :
  (forall c, In c a -> b < c) -> Py.strictly_increasing a = true ->
  Py.strictly_increasing (b :: a) = true.
Proof.
intros Hb Ha. destruct a as [|c a]; [reflexivity|].
change (((b <? c) && Py.strictly_increasing (c :: a)) = true).
rewrite Ha, andb_true_r. apply Z.ltb_lt, Hb. left. reflexivity.
Qed.

Lemma chromosome_breaks_increasing rs : forall i previous,
  Py.strictly_increasing (chromosome_breaks i previous rs) = true.
Proof.
induction rs as [|r rs IH]; intros i previous; simpl; [reflexivity|].
destruct previous as [c|]; [|apply IH].
destruct (String.eqb (chromosome r) c); [apply IH|].
apply strictly_increasing_cons; [|apply IH].
intros b Hb. apply chromosome_breaks_above in Hb. lia.
Qed.

Lemma range_step_above step fuel : forall cur stop b,
  0 < step -> In b (range_step fuel cur stop step) -> cur <= b.
Proof.
induction fuel as [|fuel IH]; intros cur stop b Hs Hin; simpl in Hin; [contradiction|].
destruct (cur <? stop); [|contradiction].
destruct Hin as [<-|Hin]; [lia|]. apply IH in Hin; lia.
Qed.

Lemma range_step_increasing step fuel : forall cur stop,
  0 < step -> Py.strictly_increasing (range_step fuel cur stop step) = true.
Proof.
induction fuel as [|fuel IH]; intros cur stop Hs; simpl; [reflexivity|].
destruct (cur <? stop); [|reflexivity].
apply strictly_increasing_cons; [|apply IH, Hs].
intros b Hb. apply range_step_above in Hb; lia.
Qed.

Lemma compute_breaks_increasing strategy rs :
  Py.strictly_increasing (compute_breaks strategy rs) = true.
Proof.
destruct strategy as [|b|]; simpl.
- apply chromosome_breaks_increasing.
- apply range_step_increasing. lia.
- reflexivity.
Qed.

Lemma init_wf rs strategy buffer_size : wf (init rs strategy buffer_size) = true.
Proof.
rewrite wf_spec. cbn. split; [reflexivity|]. split; [|split].
- intros key rows Hl. apply lookup_singleton_Some in Hl as [<- <-].
  split; [reflexivity|]. intros row [].
- apply TablesOk_empty.
- intros Hne. contradiction.
Qed.

End StoreFacts.

(** ** Claims about the edge store *)

Section StoreClaims.

Import Store Scenario.

(** The property of C3 for one row of the sub-table [key]. *)
Lemma canonical_in_spec breaks key row :
  canonical_in breaks key row = true <->
  row_source row <= row_sink row
  /\ Py.bisect_right breaks (row_source row) = key.1
  /\ Py.bisect_right breaks (row_sink row) = key.2.
Proof.
unfold canonical_in. rewrite !andb_true_iff, Z.leb_le, !Nat.eqb_eq. tauto.
Qed.

Lemma update_in_place st e h replace rows row :
  _edge_table_dict st !! h_table h = Some rows ->
  rows !! h_pos h = Some row ->
  _edge_table_dict (_add_edge st e (Some h) replace) !! h_table h =
  Some (<[h_pos h :=
            update_row (Z.min (source e) (sink e)) (Z.max (source e) (sink e))
                       (weight e) replace row]> rows).
Proof.
intros Ht Hr. unfold _add_edge. rewrite Z.gtb_ltb.
destruct (Z.ltb_spec (sink e) (source e)) as [Hlt|Hge]; cbn.
- rewrite Z.min_r, Z.max_l by lia.
  rewrite lookup_alter_eq, Ht. simpl. f_equal.
  apply list_eq. intros i. destruct (decide (i = h_pos h)) as [->|Hne].
  + rewrite list_lookup_alter_eq, Hr, list_lookup_insert_eq; [reflexivity|].
    apply lookup_lt_Some in Hr. exact Hr.
  + rewrite list_lookup_alter_ne, list_lookup_insert_ne by congruence. reflexivity.
- rewrite Z.min_l, Z.max_r by lia.
  rewrite lookup_alter_eq, Ht. simpl. f_equal.
  apply list_eq. intros i. destruct (decide (i = h_pos h)) as [->|Hne].
  + rewrite list_lookup_alter_eq, Hr, list_lookup_insert_eq; [reflexivity|].
    apply lookup_lt_Some in Hr. exact Hr.
  + rewrite list_lookup_alter_ne, list_lookup_insert_ne by congruence. reflexivity.
Qed.


Lemma key_of_same_breaks st st' e :
  _partition_breaks st' = _partition_breaks st -> key_of st' e = key_of st e.
Proof. intros H. unfold key_of, _get_partition_ix. rewrite H. reflexivity. Qed.

Lemma add_edge_buffered_breaks st e replace :
  _partition_breaks (_add_edge st e None replace) = _partition_breaks st.
Proof. rewrite add_edge_buffered_eq. apply (add_tuple_frame st (record_of e)). Qed.

Lemma add_edge_buffered_present st e replace :
  is_Some (_edge_table_dict (_add_edge st e None replace) !! key_of st e)
  \/ is_Some (_edge_buffer (_add_edge st e None replace) !! key_of st e).
Proof.
rewrite add_edge_buffered_eq.
apply (add_tuple_present st (record_of e)), record_of_canonical.
Qed.

Lemma flush_regions_edges st :
  _edge_table_dict (_flush_regions st) = _edge_table_dict st
  /\ _edge_buffer (_flush_regions st) = _edge_buffer st.
Proof. unfold _flush_regions. destruct (_regions_dirty st); split; reflexivity. Qed.

(** After [flush] the table of a key that was stored or buffered holds
    the stored rows followed by the buffered ones. *)
Lemma flush_stored st k :
  wf st = true ->
  is_Some (_edge_table_dict st !! k) \/ is_Some (_edge_buffer st !! k) ->
  _edge_table_dict (flush st) !! k = Some (contents st k).
Proof.
intros H Hp. unfold flush.
pose proof (flush_regions_wf st H) as H'.
destruct (flush_regions_edges st) as [Et Eb].
assert (Hp' : is_Some (_edge_table_dict (_flush_regions st) !! k)
              \/ is_Some (_edge_buffer (_flush_regions st) !! k))
  by (rewrite Et, Eb; exact Hp).
destruct (flush_edges_present _ k Hp' H') as [rows Hrows].
pose proof (flush_edges_stored _ k H') as Hs.
rewrite Hrows in Hs. simpl in Hs. rewrite Hrows, Hs.
f_equal. apply flush_regions_contents, H.
Qed.

(** C3 (amended). On a store whose partition breaks are those of its
    regions, every stored or buffered edge [(s, t)] of the sub-table
    [(i, j)] has [s <= t], [part(s) = i], [part(t) = j] and [i <= j],
    where [part] is the upper bound in the strictly increasing break
    vector; a new store has the property, and [add_edge] without a row
    handle, [add_edges] and [flush] keep it, [add_edge] appending the
    record of the pair as [(min, max)] to the rows of
    [(part(min), part(max))]. With a row handle [add_edge] writes
    [(min, max)] into the designated row where it is. *)
Theorem canonical_partition_invariant (st : Store.T) (Hwf : wf st = true) :
  (forall key rows row,
      _edge_table_dict st !! key = Some rows \/ _edge_buffer st !! key = Some rows ->
      In row rows ->
      row_source row <= row_sink row
      /\ _get_partition_ix st (row_source row) = key.1
      /\ _get_partition_ix st (row_sink row) = key.2
      /\ (key.1 <= key.2)%nat)
  /\ Py.strictly_increasing (_partition_breaks st) = true
  /\ (forall i, _get_partition_ix st i = Py.upper_bound (_partition_breaks st) i)
  /\ (forall rs strategy buffer_size, wf (init rs strategy buffer_size) = true)
  /\ (forall x check replace st',
        add_edge st x check None replace = Py.Ok st' ->
        wf st' = true
        /\ exists e, as_edge x = Py.Ok e
             /\ row_source (record_of e) = Z.min (source e) (sink e)
             /\ row_sink (record_of e) = Z.max (source e) (sink e)
             /\ forall k, contents st' k =
                  if decide (k = key_of st e) then contents st k ++ [record_of e]
                  else contents st k)
  /\ (forall edges check, wf (add_edges st edges check).1 = true)
  /\ wf (flush st) = true
  /\ (forall e h replace rows row,
        _edge_table_dict st !! h_table h = Some rows ->
        rows !! h_pos h = Some row ->
        _edge_table_dict (_add_edge st e (Some h) replace) !! h_table h =
        Some (<[h_pos h :=
                  update_row (Z.min (source e) (sink e)) (Z.max (source e) (sink e))
                             (weight e) replace row]> rows)).
Proof.
pose proof Hwf as Hw. rewrite wf_spec in Hw. destruct Hw as (Hb & Ht & Hbuf & _).
assert (Hinc : Py.strictly_increasing (_partition_breaks st) = true)
  by (rewrite Hb; apply compute_breaks_increasing).
split; [|split; [exact Hinc|split; [|split; [|split; [|split; [|split]]]]]].
- intros key rows row Hl Hin.
  assert (Hk : key_ok (_partition_breaks st) key = true
               /\ canonical_in (_partition_breaks st) key row = true).
  { destruct Hl as [Hl|Hl]; [destruct (Ht _ _ Hl)|destruct (Hbuf _ _ Hl)]; auto. }
  destruct Hk as [Hk Hc]. apply canonical_in_spec in Hc as (H1 & H2 & H3).
  unfold key_ok in Hk. apply andb_true_iff in Hk as [Hk _]. apply Nat.leb_le in Hk.
  auto.
- intros i. apply bisect_right_upper_bound, Hinc.
- apply init_wf.
- intros x check replace st' Hadd.
  apply add_edge_inv in Hadd as (e & He & ->).
  split; [apply add_edge_buffered_wf, Hwf|].
  exists e. split; [exact He|]. split; [reflexivity|]. split; [reflexivity|].
  intros k. apply add_edge_buffered_contents.
- intros edges check. apply add_edges_wf, Hwf.
- apply flush_wf, Hwf.
- intros e h replace rows row. apply update_in_place.
Qed.

(** The invariant at the store of the scenario. *)
Lemma canonical_partition_invariant_witness :
  wf store3 = true
  /\ wf (flush store3) = true
  /\ _get_partition_ix store3 2 = Py.upper_bound (_partition_breaks store3) 2.
Proof.
assert (H : wf store3 = true) by (vm_compute; reflexivity).
destruct (canonical_partition_invariant store3 H) as (_ & _ & Hp & _ & _ & _ & Hf & _).
split; [exact H|]. split; [exact Hf|apply Hp].
Defined.

(** C3 as stated fails for [add_edge] with a row handle: the edge
    [(1, 2)] written through the handle of row 0 of the sub-table
    [(0, 0)] stays in [(0, 0)], though [part(2) = 1]. *)
Lemma row_handle_leaves_foreign_edge :
  wf store3 = true
  /\ exists st',
       add_edge store3 (triple 1 2 3) true (Some (mkHandle (0, 0)%nat 0)) false = Py.Ok st'
       /\ _edge_table_dict st' !! (0, 0)%nat = Some [mkRow 1 2 8%float]
       /\ _get_partition_ix st' 2 = 1%nat
       /\ wf st' = false.
Proof.
split; [vm_compute; reflexivity|].
eexists. split; [vm_compute; reflexivity|].
split; [vm_compute; reflexivity|]. split; vm_compute; reflexivity.
Qed.

(** C6 (amended). Two [add_edge] calls with default settings for the
    same pair, then [flush], leave two rows for the pair in its
    sub-table, one per call and each with its own weight, after the rows
    the sub-table had; the weights are added into one row only through a
    row handle ([row=...], [replace] not set). *)
Theorem duplicate_edges_are_both_stored
    (st st1 st2 : Store.T) (x1 x2 : EdgeLike) (e1 e2 : Edge) (check : bool)
    (Hwf : wf st = true)
    (E1 : as_edge x1 = Py.Ok e1) (E2 : as_edge x2 = Py.Ok e2)
    (Hmin : Z.min (source e1) (sink e1) = Z.min (source e2) (sink e2))
    (Hmax : Z.max (source e1) (sink e1) = Z.max (source e2) (sink e2))
    (H1 : add_edge st x1 check None false = Py.Ok st1)
    (H2 : add_edge st1 x2 check None false = Py.Ok st2) :
  _edge_table_dict (flush st2) !! key_of st e1 =
    Some (contents st (key_of st e1) ++ [record_of e1; record_of e2])
  /\ row_weight (record_of e1) = default weight_default (weight e1)
  /\ row_weight (record_of e2) = default weight_default (weight e2)
  /\ (forall e h rows row w,
        _edge_table_dict st !! h_table h = Some rows ->
        rows !! h_pos h = Some row ->
        weight e = Some w ->
        exists rows',
          _edge_table_dict (_add_edge st e (Some h) false) !! h_table h = Some rows'
          /\ length rows' = length rows
          /\ rows' !! h_pos h =
             Some (mkRow (Z.min (source e) (sink e)) (Z.max (source e) (sink e))
                         (PrimFloat.add (row_weight row) w))).
Proof.
apply add_edge_inv in H1 as (e1' & E1' & ->). rewrite E1 in E1'. injection E1' as <-.
apply add_edge_inv in H2 as (e2' & E2' & ->). rewrite E2 in E2'. injection E2' as <-.
set (st1 := _add_edge st e1 None false).
set (st2 := _add_edge st1 e2 None false).
assert (Hk : key_of st1 e2 = key_of st e1).
{ rewrite (key_of_same_breaks st st1 e2) by apply add_edge_buffered_breaks.
  unfold key_of. rewrite Hmin, Hmax. reflexivity. }
assert (Hw1 : wf st1 = true) by apply add_edge_buffered_wf, Hwf.
assert (Hw2 : wf st2 = true) by apply add_edge_buffered_wf, Hw1.
split; [|split; [reflexivity|split; [reflexivity|]]].
- rewrite flush_stored; [|exact Hw2|].
  + f_equal. unfold st2. rewrite add_edge_buffered_contents, Hk.
    rewrite decide_True by reflexivity.
    unfold st1. rewrite add_edge_buffered_contents.
    rewrite decide_True by reflexivity. rewrite <- app_assoc. reflexivity.
  + rewrite <- Hk. apply add_edge_buffered_present.
- intros e h rows row w Ht Hr Hwt.
  eexists. split; [apply (update_in_place st e h false rows row Ht Hr)|].
  split; [apply length_insert|].
  rewrite list_lookup_insert_eq by (apply lookup_lt_Some in Hr; exact Hr).
  unfold update_row. rewrite Hwt. reflexivity.
Qed.

(** The scenario: [(0, 1, 5.0)] and [(0, 1, 7.0)] added to a new store. *)
Lemma duplicate_edges_are_both_stored_witness :
  exists st1 st2,
    add_edge empty3 (triple 0 1 5) true None false = Py.Ok st1
    /\ add_edge st1 (triple 0 1 7) true None false = Py.Ok st2
    /\ _edge_table_dict (flush st2) !! (0, 0)%nat
       = Some [mkRow 0 1 5%float; mkRow 0 1 7%float].
Proof.
assert (Hwf : wf empty3 = true) by (vm_compute; reflexivity).
eexists. eexists. split; [vm_compute; reflexivity|]. split; [vm_compute; reflexivity|].
match goal with |- _ (flush ?s2) !! _ = _ => set (st2 := s2) end.
destruct (duplicate_edges_are_both_stored empty3 _ st2
            (triple 0 1 5) (triple 0 1 7)
            (mkEdge (NodeIx 0) (NodeIx 1) (Some 5%float))
            (mkEdge (NodeIx 0) (NodeIx 1) (Some 7%float)) true Hwf
            eq_refl eq_refl eq_refl eq_refl eq_refl eq_refl) as [H _].
exact H.
Defined.

(** C6 as stated fails: the two insertions are two rows, none of weight
    [12.0]. *)
Lemma duplicate_edges_not_merged :
  exists st1 st2,
    add_edge empty3 (triple 0 1 5) true None false = Py.Ok st1
    /\ add_edge st1 (triple 0 1 7) true None false = Py.Ok st2
    /\ _edge_table_dict (flush st2) !! (0, 0)%nat
       = Some [mkRow 0 1 5%float; mkRow 0 1 7%float]
    /\ _edges_iter (flush st2) = [mkRow 0 1 5%float; mkRow 0 1 7%float]
    /\ PrimFloat.add 5 7 = 12%float.
Proof.
eexists. eexists. split; [vm_compute; reflexivity|]. split; [vm_compute; reflexivity|].
split; [vm_compute; reflexivity|]. split; vm_compute; reflexivity.
Qed.

End StoreClaims.

(** ** Claims about [as_edge] *)

Section EdgeClaims.

Import Store Scenario.

(** C9. A sequence of exactly two indices, tuple or list, becomes an
    edge of weight [1]; [add_edge] then buffers the record
    [(min, max, 1.0)] (or raises, when the nodes are checked and one is
    not a region index), while an edge that has no weight gets the
    default [0.0] of the column. *)
Theorem as_edge_pair_has_weight_one (a b : Z) :
  as_edge (OfTuple (Seq2 (NodeIx a) (NodeIx b)))
    = Py.Ok (mkEdge (NodeIx a) (NodeIx b) (Some 1%float))
  /\ as_edge (OfList (Seq2 (NodeIx a) (NodeIx b)))
    = Py.Ok (mkEdge (NodeIx a) (NodeIx b) (Some 1%float))
  /\ (forall st check replace,
        add_edge st (OfTuple (Seq2 (NodeIx a) (NodeIx b))) check None replace
        = if check && ((a >=? len_regions st) || (b >=? len_regions st))
          then Py.Raise Py.ValueError
          else Py.Ok (_add_edge_from_tuple st (mkRow (Z.min a b) (Z.max a b) 1%float)))
  /\ (forall st k,
        contents (_add_edge_from_tuple st (mkRow (Z.min a b) (Z.max a b) 1%float)) k
        = if decide (k = (_get_partition_ix st (Z.min a b), _get_partition_ix st (Z.max a b)))
          then contents st k ++ [mkRow (Z.min a b) (Z.max a b) 1%float]
          else contents st k)
  /\ record_of (mkEdge (NodeIx a) (NodeIx b) None)
     = mkRow (Z.min a b) (Z.max a b) weight_default
  /\ weight_default = 0%float
  /\ PrimFloat.eqb 1%float weight_default = false.
Proof.
split; [reflexivity|]. split; [reflexivity|]. split; [|split].
- intros st check replace. unfold add_edge. simpl.
  destruct (check && _); [reflexivity|].
  rewrite add_edge_buffered_eq. reflexivity.
- intros st k. apply (add_tuple_contents st (mkRow (Z.min a b) (Z.max a b) 1%float) k).
  simpl. lia.
- split; [reflexivity|]. split; reflexivity.
Qed.

End EdgeClaims.

(** ** Claims about the matrix assembler *)

Section AssemblerClaims.

Import Store Assembler Scenario.

(** C1 fails on the code. With [regions[1].bias = 2.0] and
    [regions[2].bias = 0.5], [matrix()] returns the raw mirrored weights:
    the entry [[0][1]] is [5.0], where division by the biases gives
    [5.0 / (1 * 2) = 2.5], and [[2][1]] is [3.0] only because
    [0.5 * 2 = 1]; the quotient that the code computes is dropped. *)
Theorem matrix_keeps_raw_weights :
  exists m,
    matrix store3_biased None None false = Py.Ok (Matrix m)
    /\ data m = [ [0; 5; 1]; [5; 0; 3]; [1; 3; 0] ]%float
    /\ entry (data m) 0 1 = Some 5%float
    /\ PrimFloat.div 5 (PrimFloat.mul 1 2) = 2.5%float
    /\ entry (divide_biases (data m) [1; 2; 0.5]%float [1; 2; 0.5]%float) 0 1
       = Some 2.5%float
    /\ PrimFloat.eqb 5 2.5 = false.
Proof.
eexists. split; [vm_compute; reflexivity|].
split; [reflexivity|]. split; [reflexivity|].
split; [vm_compute; reflexivity|]. split; vm_compute; reflexivity.
Qed.

(** C4 fails on the code. With region 2 invalid and [mask_invalid] set,
    [matrix()] returns a matrix without any mask, the one it returns
    without [mask_invalid]: the masked array that the code builds goes
    through [RegionMatrix.__new__], which keeps the data only; and so
    for every store and key. The mask that is built and lost is itself
    short of the claim: row 2 is set twice (once for the row region,
    once for the column region) and column 2 is not masked. On a window
    that does not start at region 0 the doubled minus sign adds the
    offset, the assignment leaves the mask and the call raises. *)
Theorem invalid_regions_are_not_masked :
  (exists m,
     matrix store3_invalid None None true = Py.Ok (Matrix m)
     /\ mask m = None
     /\ (valid <$> row_regions m !! 2%nat) = Some (Some false)
     /\ (valid <$> col_regions m !! 2%nat) = Some (Some false)
     /\ matrix store3_invalid None None false = Py.Ok (Matrix m))
  /\ invalid_mask (3, 3)%nat regions3_invalid regions3_invalid 0 0
     = Py.Ok [ [false; false; false]; [false; false; false]; [true; true; true] ]
  /\ matrix store3_invalid (Some (Key2 (KeySlice 1 3) (KeySlice 1 3))) None true
     = Py.Raise Py.IndexError
  /\ (forall st key default_value m,
        matrix st key default_value true = Py.Ok (Matrix m) ->
        mask m = None /\ matrix st key default_value false = Py.Ok (Matrix m)).
Proof.
split; [|split; [|split]].
- eexists. split; [vm_compute; reflexivity|].
  split; [reflexivity|]. split; [reflexivity|]. split; [reflexivity|].
  vm_compute. reflexivity.
- vm_compute. reflexivity.
- vm_compute. reflexivity.
- intros st key default_value m. unfold matrix.
  destruct (_key_to_regions st (default (Key1 KeyNone) key)) as [[rs cs]|];
    simpl; [|discriminate].
  destruct (first_ix rs) as [ro|]; simpl; [|discriminate].
  destruct (first_ix cs) as [co|]; simpl; [|discriminate].
  destruct (matrix_entries st key) as [entries|]; simpl; [|discriminate].
  destruct (invalid_mask _ rs cs ro co) as [mk|]; simpl; [|discriminate].
  destruct (is_int_pair key).
  + destruct (entry _ 0 0); discriminate.
  + intros [= <-]. split; reflexivity.
Qed.

End AssemblerClaims.

(** ** Claims about the query planner *)

Section PlannerClaims.

Import Store Scenario.

Lemma satisfies_window rs re cs ce row :
  satisfies (mkCondition (rs - 1) (re + 1) (cs - 1) (ce + 1)) row
  = in_window rs re cs ce row.
Proof.
unfold satisfies, in_window. simpl.
rewrite !(Z.ltb_antisym), !(Z.leb_antisym).
repeat match goal with
       | |- context [?a <? ?b] => destruct (Z.ltb_spec a b)
       end; simpl; try reflexivity; lia.
Qed.

Lemma in_overlap_both rs re cs ce row :
  in_overlap (range_overlap rs re cs ce) row
  = in_window rs re cs ce row && in_window cs ce rs re row.
Proof.
unfold in_overlap, range_overlap, in_window.
destruct (Z.leb_spec (Z.max rs cs) (Z.min re ce));
  repeat match goal with
         | |- context [?a <=? ?b] => destruct (Z.leb_spec a b)
         end; simpl; try reflexivity; lia.
Qed.

(** One pass over one table, on the predicate path: the rows of the
    window or of its transpose, each once, whichever condition is
    queried first. *)
Lemma predicate_pass_once (first second : Row -> bool) table :
  List.filter first table
    ++ List.filter (fun row => negb (first row && second row))
                   (List.filter second table)
  ≡ₚ List.filter (fun row => first row || second row) table.
Proof.
induction table as [|row table IH]; simpl; [reflexivity|].
destruct (first row) eqn:E1, (second row) eqn:E2; simpl; rewrite ?E1, ?E2; simpl.
- rewrite IH. reflexivity.
- rewrite IH. reflexivity.
- rewrite <- IH. symmetry. apply Permutation_middle.
- exact IH.
Qed.

Lemma visit_table_predicate_path st i j rs re cs ce table :
  _edge_table_dict st !! (i, j) = Some table ->
  (ci <- _is_partition_covered st i rs re ;;
   if ci then _is_partition_covered st j cs ce else Py.Ok false) = Py.Ok false ->
  (visit_table st i j rs re cs ce).2 = None
  /\ (visit_table st i j rs re cs ce).1
     ≡ₚ List.filter (in_window_or_transpose rs re cs ce) table.
Proof.
intros Ht Hc. unfold visit_table. rewrite Ht, Hc.
set (c1 := mkCondition (rs - 1) (re + 1) (cs - 1) (ce + 1)).
set (c2 := mkCondition (cs - 1) (ce + 1) (rs - 1) (re + 1)).
assert (H12 : forall row,
          in_overlap (range_overlap rs re cs ce) row = satisfies c1 row && satisfies c2 row).
{ intros row. unfold c1, c2. rewrite !satisfies_window. apply in_overlap_both. }
assert (Hor : forall row,
          in_window_or_transpose rs re cs ce row = satisfies c1 row || satisfies c2 row).
{ intros row. unfold c1, c2. rewrite !satisfies_window. reflexivity. }
destruct (rs >? cs); simpl; (split; [reflexivity|]); unfold where_.
- rewrite (List.filter_ext (fun row => negb (in_overlap (range_overlap rs re cs ce) row))
                            (fun row => negb (satisfies c2 row && satisfies c1 row)))
    by (intros row; rewrite H12, andb_comm; reflexivity).
  rewrite predicate_pass_once. apply Permutation_refl'.
  apply List.filter_ext. intros row. rewrite Hor. apply orb_comm.
- rewrite (List.filter_ext (fun row => negb (in_overlap (range_overlap rs re cs ce) row))
                            (fun row => negb (satisfies c1 row && satisfies c2 row)))
    by (intros row; rewrite H12; reflexivity).
  rewrite predicate_pass_once. apply Permutation_refl'.
  apply List.filter_ext. intros row. rewrite Hor. reflexivity.
Qed.

(** C2 fails on the code. On the store of the scenario (sub-tables
    [(0, 0)] and [(0, 1)]), the full window yields the rows of [(0, 1)]
    three times: the swap [i, j = j, i] overwrites the outer loop
    variable, so the turns [(1, 0)] and [(1, 1)] both visit [(0, 1)] and
    none visits [(1, 1)]. The window of regions 1..2 yields the edge
    [(1, 2)] three times as well. On the new store, where the sub-table
    [(0, 1)] does not exist yet, the full window ends in [KeyError]. *)
Theorem subset_planner_repeats_rows :
  _edges_iter store3 = [row01; row12; row02]
  /\ _edge_subset_rows_from_regions store3 regions3 regions3
     = ([row01; row12; row02; row12; row02; row12; row02], None)
  /\ _edge_subset_rows store3 (Key1 KeyNone)
     = ([row01; row12; row02; row12; row02; row12; row02], None)
  /\ _edge_subset_rows_from_regions store3 (drop 1 regions3) (drop 1 regions3)
     = ([row12; row12; row12], None)
  /\ _edge_subset_rows_from_regions empty3 regions3 regions3
     = ([], Some Py.KeyError).
Proof.
split; [vm_compute; reflexivity|]. split; [vm_compute; reflexivity|].
split; [vm_compute; reflexivity|]. split; vm_compute; reflexivity.
Qed.

End PlannerClaims.

(** ** Claims about the buffered overlay *)

Section OverlayClaims.

Import Overlay.

Context {Data Matrix : Type}.

Lemma strategies_lookup (s : string) :
  _BUFFERING_STRATEGIES !! s =
  if String.eqb s "all" then Some BufferAll
  else if String.eqb s "relative" then Some BufferRelative
  else if String.eqb s "fixed" then Some BufferFixed
  else None.
Proof.
unfold _BUFFERING_STRATEGIES, _STRATEGY_ALL, _STRATEGY_RELATIVE, _STRATEGY_FIXED.
destruct (String.eqb_spec s "all") as [->|H1]; [apply lookup_insert_eq|].
rewrite lookup_insert_ne by congruence.
destruct (String.eqb_spec s "relative") as [->|H2]; [apply lookup_insert_eq|].
rewrite lookup_insert_ne by congruence.
destruct (String.eqb_spec s "fixed") as [->|H3]; [apply lookup_insert_eq|].
rewrite lookup_insert_ne by congruence. apply lookup_empty.
Qed.

(** C10. [BufferedMatrix(data, s, k)] succeeds exactly for the strategies
    "all", "fixed" and "relative", with [buffered_region] and
    [buffered_matrix] both [None]; for any other string [__init__] raises
    [ValueError] after assigning [data] only: the strategy, its argument
    and the two buffer attributes are not assigned. *)
Theorem init_accepts_known_strategies (d : option Data) (s : string) (k : Z) :
  let known := String.eqb s "all" || String.eqb s "fixed" || String.eqb s "relative" in
  @__init__ Data Matrix no_attrs d s k
    = (if known
       then (mkAttrs (Some d) (Some s) (Some k) (Some None) (Some None), None)
       else (mkAttrs (Some d) None None None None, Some Py.ValueError))
  /\ @new Data Matrix d s k
    = (if known then Py.Ok (mkBufferedMatrix d s k None None)
       else Py.Raise Py.ValueError).
Proof.
unfold new, __init__. rewrite strategies_lookup. simpl.
destruct (String.eqb s "all"), (String.eqb s "fixed"), (String.eqb s "relative");
  split; reflexivity.
Qed.

Variable data_getitem : Data -> DataKey -> Py.Result Matrix.
Variable matrix_getitem : Matrix -> list GenomicRegion -> Py.Result Matrix.
Variable region_contains : GenomicRegion -> GenomicRegion -> bool.

(** A query within the buffered regions is sliced from the cached
    matrix; the data are not read and the object does not change. *)
Lemma cache_hit (bm : BufferedMatrix) (rbs regions : list GenomicRegion) (m : Matrix) :
  buffered_region bm = Some (RegionsBuffered rbs) ->
  buffered_matrix bm = Some m ->
  all_contained region_contains rbs (rev regions) = true ->
  get_matrix data_getitem matrix_getitem region_contains bm regions
  = mkOutcome bm [] (matrix_getitem m (rev regions)).
Proof.
intros Hr Hm Hc. unfold get_matrix, is_buffered_region, slice_buffered.
rewrite Hr, Hm, Hc. reflexivity.
Qed.


End OverlayClaims.


(** ** Symmetry of the assembled matrix *)

Section Symmetry.

Import Store Assembler Scenario.

Lemma np_full_shape rows cols (v : float) : has_shape rows cols (np_full rows cols v).
Proof.
unfold has_shape, np_full. split; [apply length_replicate|].
intros i row Hl. apply lookup_replicate in Hl as [-> _]. apply length_replicate.
Qed.

Lemma entry_np_full rows cols (v : float) a b :
  entry (np_full rows cols v) a b =
  if decide (a < rows /\ b < cols)%nat then Some v else None.
Proof.
unfold entry, np_full.
destruct (decide (a < rows)%nat) as [Ha|Ha].
- rewrite (lookup_replicate_2 rows) by assumption. simpl.
  destruct (decide (b < cols)%nat) as [Hb|Hb].
  + rewrite decide_True by auto. apply lookup_replicate_2, Hb.
  + rewrite decide_False by tauto. apply lookup_ge_None_2.
    rewrite length_replicate. lia.
- rewrite decide_False by tauto.
  rewrite (lookup_ge_None_2 (replicate rows (replicate cols v)) a); [reflexivity|].
  rewrite length_replicate. lia.
Qed.

Lemma np_full_symmetric n (v : float) : symmetric (np_full n n v).
Proof.
intros a b. rewrite !entry_np_full.
destruct (decide (a < n /\ b < n)%nat), (decide (b < n /\ a < n)%nat);
  try reflexivity; tauto.
Qed.

Lemma set_entry_shape rows cols m i j (w : float) :
  has_shape rows cols m -> has_shape rows cols (set_entry m i j w).
Proof.
intros [Hl Hr]. unfold set_entry. split; [rewrite length_alter; exact Hl|].
intros k row Hk. destruct (decide (k = i)) as [->|Hne].
- rewrite list_lookup_alter_eq in Hk.
  destruct (m !! i) as [old|] eqn:E; simpl in Hk; [|discriminate].
  injection Hk as <-. rewrite length_insert. apply (Hr i old E).
- rewrite list_lookup_alter_ne in Hk by congruence. apply (Hr k row Hk).
Qed.

(** Reading after [m[i, j] = w], for [(i, j)] inside the shape. *)
Lemma entry_set_entry rows cols m i j (w : float) a b :
  has_shape rows cols m -> (i < rows)%nat -> (j < cols)%nat ->
  entry (set_entry m i j w) a b =
  if decide (a = i /\ b = j) then Some w else entry m a b.
Proof.
intros [Hl Hr] Hi Hj. unfold entry, set_entry.
destruct (decide (a = i)) as [->|Hne].
- rewrite list_lookup_alter_eq.
  destruct (lookup_lt_is_Some_2 m i) as [row Hrow]; [lia|].
  rewrite Hrow. simpl. destruct (decide (b = j)) as [->|Hnb].
  + rewrite decide_True by auto.
    apply list_lookup_insert_eq. rewrite (Hr i row Hrow). exact Hj.
  + rewrite decide_False by tauto. apply list_lookup_insert_ne. congruence.
- rewrite list_lookup_alter_ne by congruence. rewrite decide_False by tauto. reflexivity.
Qed.

Lemma write_if_inside_shape rows cols m ir jr (w : float) :
  has_shape rows cols m -> has_shape rows cols (write_if_inside (rows, cols) m ir jr w).
Proof.
intros H. unfold write_if_inside. destruct (_ && _); [apply set_entry_shape, H|exact H].
Qed.

Lemma assemble_step_shape rows cols ro co m e :
  has_shape rows cols m -> has_shape rows cols (assemble_step (rows, cols) ro co m e).
Proof.
intros H. destruct e as [[s t] w]. unfold assemble_step.
apply write_if_inside_shape, write_if_inside_shape, H.
Qed.

(** The two writes of one edge keep a square array symmetric. *)
Lemma assemble_step_symmetric n off m e :
  has_shape n n m -> symmetric m -> symmetric (assemble_step (n, n) off off m e).
Proof.
intros Hs Hsym. destruct e as [[s t] w]. unfold assemble_step, write_if_inside. simpl.
replace ((0 <=? t - off) && (t - off <? Z.of_nat n)
         && (0 <=? s - off) && (s - off <? Z.of_nat n))
  with ((0 <=? s - off) && (s - off <? Z.of_nat n)
        && (0 <=? t - off) && (t - off <? Z.of_nat n))
  by (destruct (0 <=? s - off), (s - off <? Z.of_nat n),
        (0 <=? t - off), (t - off <? Z.of_nat n); reflexivity).
destruct ((0 <=? s - off) && (s - off <? Z.of_nat n)
          && (0 <=? t - off) && (t - off <? Z.of_nat n)) eqn:Hin; [|exact Hsym].
apply andb_true_iff in Hin as [Hin H4]. apply andb_true_iff in Hin as [Hin H3].
apply andb_true_iff in Hin as [H1 H2].
apply Z.leb_le in H1, H3. apply Z.ltb_lt in H2, H4.
set (i := Z.to_nat (s - off)). set (j := Z.to_nat (t - off)).
assert (Hi : (i < n)%nat) by (unfold i; lia).
assert (Hj : (j < n)%nat) by (unfold j; lia).
pose proof (set_entry_shape n n m i j w Hs) as Hs1.
intros a b.
rewrite !(entry_set_entry n n _ j i w) by assumption.
rewrite !(entry_set_entry n n m i j w) by assumption.
repeat case_decide; try reflexivity; try (exfalso; tauto). apply Hsym.
Qed.

Lemma assemble_symmetric n off entries : forall m,
  has_shape n n m -> symmetric m ->
  has_shape n n (fold_left (assemble_step (n, n) off off) entries m)
  /\ symmetric (fold_left (assemble_step (n, n) off off) entries m).
Proof.
induction entries as [|e entries IH]; intros m Hs Hsym; simpl; [auto|].
apply IH; [apply assemble_step_shape, Hs|apply assemble_step_symmetric; assumption].
Qed.

Lemma assemble_shape rows cols ro co entries : forall m,
  has_shape rows cols m ->
  has_shape rows cols (fold_left (assemble_step (rows, cols) ro co) entries m).
Proof.
induction entries as [|e entries IH]; intros m Hs; simpl; [exact Hs|].
apply IH, assemble_step_shape, Hs.
Qed.

(** What a returned matrix is made of. *)
Lemma matrix_inv st key default_value mask_invalid m :
  matrix st key default_value mask_invalid = Py.Ok (Matrix m) ->
  exists row_offset col_offset entries,
    first_ix (row_regions m) = Py.Ok row_offset
    /\ first_ix (col_regions m) = Py.Ok col_offset
    /\ _key_to_regions st (default (Key1 KeyNone) key)
       = Py.Ok (row_regions m, col_regions m)
    /\ matrix_entries st key = Py.Ok entries
    /\ data m =
       fold_left
         (assemble_step (length (row_regions m), length (col_regions m))
                        row_offset col_offset)
         entries
         (np_full (length (row_regions m)) (length (col_regions m))
                  (default _default_value default_value)).
Proof.
unfold matrix.
destruct (_key_to_regions st (default (Key1 KeyNone) key)) as [[rs cs]|] eqn:Ek;
  simpl; [|discriminate].
destruct (first_ix rs) as [ro|] eqn:Er; simpl; [|discriminate].
destruct (first_ix cs) as [co|] eqn:Ec; simpl; [|discriminate].
destruct (matrix_entries st key) as [entries|] eqn:Ee; simpl; [|discriminate].
match goal with
| |- Py.bind ?mk _ = _ -> _ => destruct mk as [mk'|] eqn:Em
end; simpl; [|discriminate].
destruct (is_int_pair key).
- destruct (entry _ 0 0); discriminate.
- intros [= <-]. simpl. exists ro, co, entries. auto.
Qed.

(** The full default key resolves to all regions on both axes. *)
Lemma default_key_same_regions st default_value mask_invalid m :
  matrix st None default_value mask_invalid = Py.Ok (Matrix m) ->
  row_regions m = col_regions m.
Proof.
intros Hm. apply matrix_inv in Hm as (_ & _ & _ & _ & _ & Hk & _).
revert Hk. unfold _key_to_regions, len_regions. simpl.
rewrite Nat2Z.id, Nat.sub_0_r, take_ge by reflexivity.
destruct (regions st) as [|r rs]; simpl; [discriminate|].
intros [= <- <-]. reflexivity.
Qed.

(** C7. When the key resolves to the same regions for the rows and for
    the columns, as the full default key does, the matrix that [matrix]
    returns is symmetric, and it has one row and one column per region,
    so that the entries compared exist for all in-range indices. *)
Theorem matrix_is_symmetric
    (st : Store.T) (key : option Key) (default_value : option float)
    (mask_invalid : bool) (m : RegionMatrix)
    (Hm : matrix st key default_value mask_invalid = Py.Ok (Matrix m))
    (Hkey : key = None \/ row_regions m = col_regions m) :
  (forall a b, entry (data m) a b = entry (data m) b a)
  /\ (forall a b, (a < length (row_regions m))%nat -> (b < length (row_regions m))%nat ->
        is_Some (entry (data m) a b)).
Proof.
assert (Hsame : row_regions m = col_regions m).
{ destruct Hkey as [->|H]; [apply (default_key_same_regions _ _ _ _ Hm)|exact H]. }
apply matrix_inv in Hm as (ro & co & entries & Hro & Hco & _ & _ & Hd).
rewrite <- Hsame in Hco, Hd. rewrite Hro in Hco. injection Hco as <-.
set (n := length (row_regions m)) in *.
destruct (assemble_symmetric n ro entries
            (np_full n n (default _default_value default_value))
            (np_full_shape n n _) (np_full_symmetric n _)) as [[Hl Hr] Hsym].
rewrite <- Hd in Hl, Hr, Hsym. split; [exact Hsym|].
intros a b Ha Hb. unfold entry.
destruct (lookup_lt_is_Some_2 (data m) a) as [row Hrow]; [lia|].
rewrite Hrow. simpl. apply lookup_lt_is_Some_2. rewrite (Hr a row Hrow). exact Hb.
Qed.

(** The matrix of the scenario. *)
Lemma matrix_is_symmetric_witness :
  matrix store3 None None false = Py.Ok (Matrix matrix3)
  /\ row_regions matrix3 = col_regions matrix3
  /\ entry (data matrix3) 0 2 = entry (data matrix3) 2 0.
Proof.
assert (Hm : matrix store3 None None false = Py.Ok (Matrix matrix3))
  by (vm_compute; reflexivity).
split; [exact Hm|]. split; [reflexivity|].
apply (matrix_is_symmetric store3 None None false matrix3 Hm (or_intror eq_refl)).
Defined.

End Symmetry.

(** ** Reading and the ingestion buffer *)

Section ReadClaims.

Import Store Scenario.

Implicit Types (m tables buffer : gmap (nat * nat) (list Row)).

Lemma in_iter_keys n i j : In (i, j) (iter_keys n) <-> (i <= j < n)%nat.
Proof.
unfold iter_keys, Py.range. rewrite in_concat. split.
- intros (l & Hl & Hin). apply in_map_iff in Hl as (i' & <- & Hi').
  apply in_map_iff in Hin as (j' & [= <- <-] & Hj').
  apply in_seq in Hi', Hj'. lia.
- intros H. exists (List.map (fun j => (i, j)) (seq i (n - i))). split.
  + apply in_map_iff. exists i. split; [reflexivity|]. apply in_seq. lia.
  + apply in_map_iff. exists j. split; [reflexivity|]. apply in_seq. lia.
Qed.

Lemma NoDup_pairs (L : nat -> list nat) (I : list nat) :
  List.NoDup I -> (forall i, List.NoDup (L i)) ->
  List.NoDup (concat (List.map (fun i => List.map (fun j => (i, j)) (L i)) I)).
Proof.
intros HI HL. induction I as [|i I IH]; simpl; [constructor|].
apply List.NoDup_cons_iff in HI as [Hi HI].
apply List.NoDup_app.
- apply Finite.Injective_map_NoDup; [|apply HL]. intros a b [= ->]. reflexivity.
- apply IH, HI.
- intros [a b] Ha Hb. apply in_map_iff in Ha as (j & [= <- <-] & _).
  apply in_concat in Hb as (l & Hl & Hb). apply in_map_iff in Hl as (i' & <- & Hi').
  apply in_map_iff in Hb as (j' & [= -> _] & _). contradiction.
Qed.

Lemma NoDup_iter_keys n : List.NoDup (iter_keys n).
Proof.
unfold iter_keys. apply (NoDup_pairs (fun i => Py.range i n)).
- apply List.seq_NoDup.
- intros i. apply List.seq_NoDup.
Qed.

(** [_edges_iter] reads the tables of [iter_keys], one after the other. *)
Lemma edges_iter_by_keys st :
  _edges_iter st =
  concat (List.map (fun k => default [] (_edge_table_dict st !! k))
                   (iter_keys (S (length (_partition_breaks st))))).
Proof.
unfold _edges_iter, iter_keys.
generalize (Py.range 0 (S (length (_partition_breaks st)))) as I.
induction I as [|i I IH]; simpl; [reflexivity|].
rewrite List.map_app, concat_app, <- IH, List.map_map. reflexivity.
Qed.

Lemma concat_map_app {K A} (f g : K -> list A) (keys : list K) :
  concat (List.map (fun k => f k ++ g k) keys)
  ≡ₚ concat (List.map f keys) ++ concat (List.map g keys).
Proof.
induction keys as [|k keys IH]; simpl; [reflexivity|].
rewrite IH, <- !app_assoc. apply Permutation_app_head.
rewrite !app_assoc. apply Permutation_app_tail, Permutation_app_comm.
Qed.

Lemma concat_snd_perm {K A} (l l' : list (K * list A)) :
  l ≡ₚ l' -> concat (List.map snd l) ≡ₚ concat (List.map snd l').
Proof.
induction 1 as [|x l l' _ IH|x y l|l l' l'' _ IH1 _ IH2]; simpl.
- reflexivity.
- rewrite IH. reflexivity.
- rewrite !app_assoc. apply Permutation_app_tail, Permutation_app_comm.
- rewrite IH1. exact IH2.
Qed.

Lemma concat_lookup_ext {A} (f g : nat * nat -> list A) (keys : list (nat * nat)) :
  (forall k, In k keys -> f k = g k) ->
  concat (List.map f keys) = concat (List.map g keys).
Proof.
intros H. f_equal. apply map_ext_in, H.
Qed.

(** Reading a map key by key, over keys that cover it without
    repetition, gives all its rows. *)
Lemma lookup_concat_perm {A} (m : gmap (nat * nat) (list A)) (keys : list (nat * nat)) :
  List.NoDup keys ->
  (forall k, is_Some (m !! k) -> In k keys) ->
  concat (List.map (fun k => default [] (m !! k)) keys)
  ≡ₚ concat (List.map snd (map_to_list m)).
Proof.
intros Hnd. induction m as [|i x m Hi IH] using map_ind; intros Hdom.
- rewrite map_to_list_empty. simpl.
  rewrite (concat_lookup_ext _ (fun _ => [])).
  + clear. induction keys; simpl; auto.
  + intros k _. rewrite lookup_empty. reflexivity.
- rewrite (concat_snd_perm _ _ (map_to_list_insert m i x Hi)). simpl.
  assert (Hin : In i keys) by (apply Hdom; rewrite lookup_insert_eq; eexists; reflexivity).
  apply in_split in Hin as (l1 & l2 & ->).
  pose proof (List.NoDup_remove_2 _ _ _ Hnd) as Hni.
  assert (Hother : forall k, In k (l1 ++ l2) ->
            default [] (<[i:=x]> m !! k) = default [] (m !! k)).
  { intros k Hk. rewrite lookup_insert_ne; [reflexivity|]. intros ->. contradiction. }
  rewrite <- IH.
  + rewrite !List.map_app, !concat_app. simpl.
    rewrite lookup_insert_eq, Hi. simpl.
    rewrite (concat_lookup_ext _ (fun k => default [] (m !! k)) l1)
      by (intros k Hk; apply Hother, in_or_app; auto).
    rewrite (concat_lookup_ext (fun k => default [] (<[i:=x]> m !! k))
               (fun k => default [] (m !! k)) l2)
      by (intros k Hk; apply Hother, in_or_app; auto).
    rewrite !app_assoc. apply Permutation_app_tail, Permutation_app_comm.
  + intros k Hk. apply Hdom. destruct (decide (i = k)) as [->|Hne].
    * rewrite lookup_insert_eq. eexists. reflexivity.
    * rewrite lookup_insert_ne by exact Hne. exact Hk.
Qed.

Lemma flush_default_stored st k :
  wf st = true -> default [] (_edge_table_dict (flush st) !! k) = contents st k.
Proof.
intros H. unfold flush. rewrite flush_edges_stored by apply flush_regions_wf, H.
apply flush_regions_contents, H.
Qed.

Lemma flush_breaks st :
  wf st = true -> _partition_breaks (flush st) = _partition_breaks st.
Proof.
intros H. unfold flush. rewrite flush_edges_breaks. apply flush_regions_breaks, H.
Qed.

Lemma flush_buffer_empty st : wf st = true -> _edge_buffer (flush st) = ∅.
Proof. intros H. apply flush_edges_buffer, flush_regions_wf, H. Qed.

(** The planner reads the regions, the breaks and the tables only. *)
Lemma inner_loop_frame st buffer dirty index_dirty js rs re cs ce : forall i,
  inner_loop (with_edges st (_edge_table_dict st) buffer dirty index_dirty)
             i js rs re cs ce
  = inner_loop st i js rs re cs ce.
Proof.
induction js as [|j js IH]; intros i; simpl; [reflexivity|].
destruct (j <? i)%nat; rewrite IH; reflexivity.
Qed.

Lemma outer_loop_frame st buffer dirty index_dirty js rs re cs ce : forall is_,
  outer_loop (with_edges st (_edge_table_dict st) buffer dirty index_dirty)
             is_ js rs re cs ce
  = outer_loop st is_ js rs re cs ce.
Proof.
induction is_ as [|i is_ IH]; simpl; [reflexivity|].
rewrite IH, inner_loop_frame. reflexivity.
Qed.

Lemma edge_subset_rows_from_regions_frame st buffer dirty index_dirty rows cols :
  _edge_subset_rows_from_regions
    (with_edges st (_edge_table_dict st) buffer dirty index_dirty) rows cols
  = _edge_subset_rows_from_regions st rows cols.
Proof.
unfold _edge_subset_rows_from_regions.
change (_min_max_region_ix (with_edges st (_edge_table_dict st) buffer dirty index_dirty))
  with (_min_max_region_ix st).
destruct (_min_max_region_ix st rows), (_min_max_region_ix st cols).
rewrite outer_loop_frame. reflexivity.
Qed.

Lemma edge_subset_rows_frame st buffer dirty index_dirty key :
  _edge_subset_rows (with_edges st (_edge_table_dict st) buffer dirty index_dirty) key
  = _edge_subset_rows st key.
Proof.
unfold _edge_subset_rows.
change (_key_to_regions (with_edges st (_edge_table_dict st) buffer dirty index_dirty) key)
  with (_key_to_regions st key).
destruct (_key_to_regions st key) as [[rows cols]|]; [|reflexivity].
apply edge_subset_rows_from_regions_frame.
Qed.

(** C5 (amended). A read, edge iteration or edge-subset query, does not
    flush: it traverses the sub-tables as they are, whatever the buffer
    holds, so it yields the edges flushed so far. After [flush] the
    buffer is empty and edge iteration yields the rows it yielded before
    together with the rows that were buffered. *)
Theorem reads_traverse_flushed_rows_only (st : Store.T) (Hwf : wf st = true) :
  (forall buffer dirty index_dirty,
      _edges_iter (with_edges st (_edge_table_dict st) buffer dirty index_dirty)
      = _edges_iter st)
  /\ (forall buffer dirty index_dirty rows cols,
      _edge_subset_rows_from_regions
        (with_edges st (_edge_table_dict st) buffer dirty index_dirty) rows cols
      = _edge_subset_rows_from_regions st rows cols)
  /\ (forall buffer dirty index_dirty key,
      _edge_subset_rows (with_edges st (_edge_table_dict st) buffer dirty index_dirty) key
      = _edge_subset_rows st key)
  /\ _edge_buffer (flush st) = ∅
  /\ _edges_iter (flush st) ≡ₚ _edges_iter st ++ buffered_rows st.
Proof.
split; [reflexivity|].
split; [intros buffer dirty index_dirty rows cols;
        apply edge_subset_rows_from_regions_frame|].
split; [intros buffer dirty index_dirty key; apply edge_subset_rows_frame|].
split; [apply flush_buffer_empty, Hwf|].
rewrite !edges_iter_by_keys, (flush_breaks st Hwf).
set (keys := iter_keys (S (length (_partition_breaks st)))).
rewrite (concat_lookup_ext _ (fun k => default [] (_edge_table_dict st !! k)
                                       ++ default [] (_edge_buffer st !! k)) keys)
  by (intros k _; apply (flush_default_stored st k Hwf)).
rewrite concat_map_app. apply Permutation_app_head.
unfold buffered_rows. apply lookup_concat_perm; [apply NoDup_iter_keys|].
intros [i j] [rows Hrows]. apply in_iter_keys.
apply wf_spec in Hwf as (_ & _ & Hb & _). destruct (Hb _ _ Hrows) as [Hk _].
unfold key_ok in Hk. simpl in Hk. apply andb_true_iff in Hk as [H1 H2].
apply Nat.leb_le in H1, H2. lia.
Qed.

(** The scenario, one edge buffered. *)
Lemma reads_traverse_flushed_rows_only_witness :
  exists st1,
    add_edge empty3 (triple 0 1 5) true None false = Py.Ok st1
    /\ wf st1 = true
    /\ _edges_iter (flush st1) ≡ₚ _edges_iter st1 ++ buffered_rows st1.
Proof.
eexists. split; [vm_compute; reflexivity|].
match goal with |- wf ?s = true /\ _ => set (st1 := s) end.
assert (Hwf : wf st1 = true) by (vm_compute; reflexivity).
split; [exact Hwf|].
destruct (reads_traverse_flushed_rows_only st1 Hwf) as (_ & _ & _ & _ & H). exact H.
Defined.

(** C5 as stated fails: after [add_edge] the edge waits in the buffer,
    and both reads return without it and without flushing. *)
Lemma reads_do_not_flush :
  exists st1,
    add_edge empty3 (triple 0 1 5) true None false = Py.Ok st1
    /\ _edge_buffer st1 !! (0, 0)%nat = Some [row01]
    /\ _edges_iter st1 = []
    /\ _edge_subset_rows_from_regions st1 (take 2 regions3) (take 2 regions3)
       = ([], None)
    /\ _edges_iter (flush st1) = [row01]
    /\ _edge_subset_rows_from_regions (flush st1) (take 2 regions3) (take 2 regions3)
       = ([row01], None).
Proof.
eexists. split; [vm_compute; reflexivity|].
split; [vm_compute; reflexivity|]. split; [vm_compute; reflexivity|].
split; [vm_compute; reflexivity|]. split; vm_compute; reflexivity.
Qed.

End ReadClaims.

(** ** Ingestion: what the store holds after [add_edges] *)

Section IngestFacts.

Import Store.

Lemma all_rows_by_keys st :
  wf st = true ->
  all_rows st
  ≡ₚ concat (List.map (contents st) (iter_keys (S (length (_partition_breaks st))))).
Proof.
intros Hwf. unfold all_rows, contents. rewrite concat_map_app.
rewrite edges_iter_by_keys. apply Permutation_app_head. symmetry.
unfold buffered_rows. apply lookup_concat_perm; [apply NoDup_iter_keys|].
intros [i j] [rows Hrows]. apply in_iter_keys.
apply wf_spec in Hwf as (_ & _ & Hb & _). destruct (Hb _ _ Hrows) as [Hk _].
unfold key_ok in Hk. simpl in Hk. apply andb_true_iff in Hk as [H1 H2].
apply Nat.leb_le in H1, H2. lia.
Qed.

Lemma concat_map_add_at {A} (f g : nat * nat -> list A) (key : nat * nat) (r : A) :
  (forall k, g k = if decide (k = key) then f k ++ [r] else f k) ->
  forall keys, List.NoDup keys -> In key keys ->
  concat (List.map g keys) ≡ₚ concat (List.map f keys) ++ [r].
Proof.
intros Hg. induction keys as [|k keys IH]; intros Hnd Hin; [destruct Hin|].
apply NoDup_cons_iff in Hnd as [Hk Hnd]. simpl. rewrite Hg.
destruct (decide (k = key)) as [->|Hne].
- rewrite (concat_lookup_ext g f keys).
  + rewrite <- !app_assoc. apply Permutation_app_head, Permutation_app_comm.
  + intros k Hk'. rewrite Hg. destruct (decide (k = key)) as [->|_]; [contradiction|reflexivity].
- destruct Hin as [->|Hin]; [contradiction|].
  rewrite IH by assumption. rewrite app_assoc. reflexivity.
Qed.

Lemma key_of_in_keys st e :
  In (key_of st e) (iter_keys (S (length (_partition_breaks st)))).
Proof.
unfold key_of. apply in_iter_keys.
pose proof (key_ok_partitions st (Z.min (source e) (sink e)) (Z.max (source e) (sink e))
              ltac:(lia)) as Hk.
unfold key_ok in Hk. simpl in Hk. apply andb_true_iff in Hk as [H1 H2].
apply Nat.leb_le in H1, H2. lia.
Qed.

Lemma add_edge_all_rows st e replace :
  wf st = true ->
  all_rows (_add_edge st e None replace) ≡ₚ all_rows st ++ [record_of e].
Proof.
intros Hwf.
rewrite (all_rows_by_keys _ (add_edge_buffered_wf st e replace Hwf)).
rewrite (all_rows_by_keys st Hwf), add_edge_buffered_breaks.
apply (concat_map_add_at (contents st) _ (key_of st e)).
- intros k. apply add_edge_buffered_contents.
- apply NoDup_iter_keys.
- apply key_of_in_keys.
Qed.

Lemma flush_edges_all_rows st :
  wf st = true -> _edges_iter (_flush_edges st) ≡ₚ all_rows st.
Proof.
intros Hwf. rewrite (all_rows_by_keys st Hwf), edges_iter_by_keys, flush_edges_breaks.
rewrite (concat_lookup_ext _ (contents st)); [reflexivity|].
intros k _. apply flush_edges_stored, Hwf.
Qed.

Lemma flush_regions_all_rows st :
  wf st = true -> all_rows (_flush_regions st) = all_rows st.
Proof.
intros Hwf. unfold all_rows, buffered_rows.
destruct (flush_regions_edges st) as [Ht Hb]. rewrite Hb.
rewrite !edges_iter_by_keys, Ht, (flush_regions_breaks st Hwf). reflexivity.
Qed.

Lemma add_edge_accepted st x check replace :
  accepted (len_regions st) check x = true ->
  exists e, as_edge x = Py.Ok e
    /\ add_edge st x check None replace = Py.Ok (_add_edge st e None replace).
Proof.
unfold accepted, add_edge. destruct (as_edge x) as [e|]; [|discriminate].
intros H. exists e. split; [reflexivity|]. simpl.
apply negb_true_iff in H. rewrite H. reflexivity.
Qed.

Lemma add_edge_rejected st x check row replace :
  accepted (len_regions st) check x = false ->
  add_edge st x check row replace = Py.Raise (rejection x).
Proof.
unfold accepted, add_edge, rejection. destruct (as_edge x) as [e|]; [|reflexivity].
intros H. simpl. apply negb_false_iff in H. rewrite H. reflexivity.
Qed.

Lemma add_edge_len_regions st e row replace :
  len_regions (_add_edge st e row replace) = len_regions st.
Proof.
unfold len_regions. f_equal. f_equal. unfold _add_edge.
destruct (source e >? sink e), row; try reflexivity;
  simpl; apply (add_tuple_frame st _).
Qed.

Lemma add_edges_loop_accepted check xs : forall st,
  wf st = true ->
  forallb (accepted (len_regions st) check) xs = true ->
  exists st',
    add_edges_loop st xs check = (st', None)
    /\ wf st' = true
    /\ len_regions st' = len_regions st
    /\ all_rows st' ≡ₚ all_rows st ++ records_of xs.
Proof.
induction xs as [|x xs IH]; intros st Hwf Hacc.
- exists st. simpl. rewrite app_nil_r. auto.
- simpl in Hacc. apply andb_true_iff in Hacc as [Hx Hxs].
  destruct (add_edge_accepted st x check false Hx) as (e & He & Hadd).
  pose proof (add_edge_buffered_wf st e false Hwf) as Hwf1.
  destruct (IH (_add_edge st e None false) Hwf1) as (st' & Hloop & Hwf' & Hlen & Hperm).
  { rewrite add_edge_len_regions. exact Hxs. }
  exists st'. simpl. rewrite Hadd, Hloop. split; [reflexivity|]. split; [exact Hwf'|].
  split; [rewrite Hlen; apply add_edge_len_regions|].
  rewrite Hperm, (add_edge_all_rows st e false Hwf). rewrite He. simpl.
  rewrite <- app_assoc. reflexivity.
Qed.

Lemma add_edges_loop_dirty check xs : forall st st',
  xs <> [] ->
  forallb (accepted (len_regions st) check) xs = true ->
  add_edges_loop st xs check = (st', None) ->
  _edges_dirty st' = true.
Proof.
induction xs as [|x xs IH]; intros st st' Hne Hacc Hloop; [contradiction|].
simpl in Hacc. apply andb_true_iff in Hacc as [Hx Hxs].
destruct (add_edge_accepted st x check false Hx) as (e & He & Hadd).
simpl in Hloop. rewrite Hadd in Hloop.
destruct xs as [|y ys].
- simpl in Hloop. injection Hloop as <-. rewrite add_edge_buffered_eq.
  apply (add_tuple_frame st _).
- apply (IH (_add_edge st e None false)); [discriminate| |exact Hloop].
  rewrite add_edge_len_regions. exact Hxs.
Qed.

Lemma add_edges_loop_app check xs ys : forall st st',
  add_edges_loop st xs check = (st', None) ->
  add_edges_loop st (xs ++ ys) check = add_edges_loop st' ys check.
Proof.
induction xs as [|x xs IH]; intros st st' H; simpl in *.
- injection H as <-. reflexivity.
- destruct (add_edge st x check None false) as [st1|e]; [|discriminate].
  apply IH, H.
Qed.

Lemma edges_length_sum st :
  Container._edges_length st
  = length (concat (List.map snd (map_to_list (_edge_table_dict st)))).
Proof.
unfold Container._edges_length. rewrite map_fold_foldr.
induction (map_to_list (_edge_table_dict st)) as [|[k rows] l IH]; [reflexivity|].
simpl. rewrite IH, length_app. lia.
Qed.

Lemma stored_keys_iterated st :
  wf st = true ->
  forall k, is_Some (_edge_table_dict st !! k) ->
    In k (iter_keys (S (length (_partition_breaks st)))).
Proof.
intros Hwf [i j] [rows Hrows]. apply in_iter_keys.
apply wf_spec in Hwf as (_ & Ht & _ & _). destruct (Ht _ _ Hrows) as [Hk _].
unfold key_ok in Hk. simpl in Hk. apply andb_true_iff in Hk as [H1 H2].
apply Nat.leb_le in H1, H2. lia.
Qed.

Lemma edges_length_iter st :
  wf st = true -> Container._edges_length st = length (_edges_iter st).
Proof.
intros Hwf. rewrite edges_length_sum, edges_iter_by_keys. symmetry.
apply Permutation_length, lookup_concat_perm; [apply NoDup_iter_keys|].
apply stored_keys_iterated, Hwf.
Qed.

End IngestFacts.

Section IngestProperties.

Import Store Scenario.

Lemma records_of_length n check xs :
  forallb (accepted n check) xs = true -> length (records_of xs) = length xs.
Proof.
induction xs as [|x xs IH]; [reflexivity|]. simpl. intros H.
apply andb_true_iff in H as [Hx Hxs]. unfold accepted in Hx.
destruct (as_edge x); [|discriminate]. simpl. rewrite IH by exact Hxs. reflexivity.
Qed.

(** X1. [add_edges] on accepted edges: it ends without an exception and
    with the buffer flushed; iterating the store afterwards yields the
    rows that were stored or buffered before and one canonical record
    per added edge, each once; [len()] counts them all. *)
Theorem add_edges_round_trip
    (st : Store.T) (xs : list EdgeLike) (check : bool)
    (Hwf : wf st = true)
    (Hacc : forallb (accepted (len_regions st) check) xs = true) :
  (add_edges st xs check).2 = None
  /\ wf (add_edges st xs check).1 = true
  /\ _edge_buffer (add_edges st xs check).1 = ∅
  /\ _edges_iter (add_edges st xs check).1
     ≡ₚ _edges_iter st ++ buffered_rows st ++ records_of xs
  /\ Container._edges_length (add_edges st xs check).1
     = (length (_edges_iter st) + length (buffered_rows st) + length xs)%nat.
Proof.
unfold add_edges.
set (st0 := if _regions_dirty st then _flush_regions st else st).
assert (Hwf0 : wf st0 = true)
  by (unfold st0; destruct (_regions_dirty st); [apply flush_regions_wf|]; exact Hwf).
assert (Hrows0 : all_rows st0 = all_rows st)
  by (unfold st0; destruct (_regions_dirty st); [apply flush_regions_all_rows, Hwf|reflexivity]).
assert (Hlen0 : len_regions st0 = len_regions st).
{ unfold st0, _flush_regions. destruct (_regions_dirty st); reflexivity. }
destruct (add_edges_loop_accepted check xs st0 Hwf0) as (st' & Hloop & Hwf' & _ & Hperm).
{ rewrite Hlen0. exact Hacc. }
rewrite Hloop. simpl.
assert (Hiter : _edges_iter (_flush_edges st')
                ≡ₚ _edges_iter st ++ buffered_rows st ++ records_of xs).
{ rewrite (flush_edges_all_rows st' Hwf'), Hperm, Hrows0. unfold all_rows.
  rewrite <- app_assoc. reflexivity. }
split; [reflexivity|]. split; [apply flush_edges_wf, Hwf'|].
split; [apply flush_edges_buffer, Hwf'|]. split; [exact Hiter|].
rewrite (edges_length_iter _ (flush_edges_wf st' Hwf')).
rewrite (Permutation_length Hiter), !length_app, (records_of_length _ _ _ Hacc). lia.
Qed.

Lemma add_edges_round_trip_witness :
  wf empty3 = true
  /\ _edges_iter store3 ≡ₚ [] ++ [] ++ [row01; row12; row02]
  /\ Container._edges_length store3 = 3%nat.
Proof.
assert (Hwf : wf empty3 = true) by (vm_compute; reflexivity).
assert (Hacc : forallb (accepted (len_regions empty3) true) edges3 = true)
  by (vm_compute; reflexivity).
destruct (add_edges_round_trip empty3 edges3 true Hwf Hacc) as (_ & _ & _ & H1 & H2).
split; [exact Hwf|]. split; [exact H1|exact H2].
Defined.

(** X2. [add_edges] is not atomic: at the first rejected edge it raises
    that edge's exception; the edges before it stay added, the ones
    after it are not looked at, and the final flush is skipped, so the
    store is left dirty. *)
Theorem add_edges_stops_at_first_rejected
    (st : Store.T) (xs : list EdgeLike) (bad : EdgeLike) (rest : list EdgeLike)
    (check : bool)
    (Hwf : wf st = true)
    (Hacc : forallb (accepted (len_regions st) check) xs = true)
    (Hbad : accepted (len_regions st) check bad = false) :
  (add_edges st (xs ++ bad :: rest) check).2 = Some (rejection bad)
  /\ wf (add_edges st (xs ++ bad :: rest) check).1 = true
  /\ all_rows (add_edges st (xs ++ bad :: rest) check).1
     ≡ₚ all_rows st ++ records_of xs
  /\ (xs <> [] -> _edges_dirty (add_edges st (xs ++ bad :: rest) check).1 = true).
Proof.
unfold add_edges.
set (st0 := if _regions_dirty st then _flush_regions st else st).
assert (Hwf0 : wf st0 = true)
  by (unfold st0; destruct (_regions_dirty st); [apply flush_regions_wf|]; exact Hwf).
assert (Hrows0 : all_rows st0 = all_rows st)
  by (unfold st0; destruct (_regions_dirty st); [apply flush_regions_all_rows, Hwf|reflexivity]).
assert (Hlen0 : len_regions st0 = len_regions st).
{ unfold st0, _flush_regions. destruct (_regions_dirty st); reflexivity. }
rewrite <- Hlen0 in Hacc, Hbad.
destruct (add_edges_loop_accepted check xs st0 Hwf0 Hacc)
  as (st' & Hloop & Hwf' & Hlen & Hperm).
rewrite (add_edges_loop_app check xs (bad :: rest) st0 st' Hloop). simpl.
rewrite (add_edge_rejected st' bad check None false) by (rewrite Hlen; exact Hbad).
simpl. split; [reflexivity|]. split; [exact Hwf'|].
split; [rewrite Hperm, Hrows0; reflexivity|].
intros Hne. apply (add_edges_loop_dirty check xs st0 st' Hne Hacc Hloop).
Qed.

Lemma add_edges_stops_at_first_rejected_witness :
  (add_edges empty3 ([triple 0 1 5] ++ triple 1 3 3 :: [triple 0 2 1]) true).2
    = Some Py.ValueError
  /\ all_rows (add_edges empty3 ([triple 0 1 5] ++ triple 1 3 3 :: [triple 0 2 1]) true).1
     ≡ₚ all_rows empty3 ++ [row01]
  /\ _edges_iter (add_edges empty3 ([triple 0 1 5] ++ triple 1 3 3 :: [triple 0 2 1]) true).1
     = [].
Proof.
assert (Hwf : wf empty3 = true) by (vm_compute; reflexivity).
assert (Hacc : forallb (accepted (len_regions empty3) true) [triple 0 1 5] = true)
  by (vm_compute; reflexivity).
assert (Hbad : accepted (len_regions empty3) true (triple 1 3 3) = false)
  by (vm_compute; reflexivity).
destruct (add_edges_stops_at_first_rejected empty3 [triple 0 1 5] (triple 1 3 3)
            [triple 0 2 1] true Hwf Hacc Hbad) as (H1 & _ & H2 & _).
split; [exact H1|]. split; [exact H2|]. vm_compute. reflexivity.
Defined.

(** X3. [len()] of a well-formed store is the number of rows that
    iterating it yields; neither counts the buffer. *)
Theorem len_counts_iterated_rows (st : Store.T) (Hwf : wf st = true) :
  Container._edges_length st = length (_edges_iter st)
  /\ (forall buffer dirty index_dirty,
        Container._edges_length
          (with_edges st (_edge_table_dict st) buffer dirty index_dirty)
        = Container._edges_length st).
Proof.
split; [|reflexivity].
rewrite edges_length_sum, edges_iter_by_keys. symmetry.
apply Permutation_length, lookup_concat_perm; [apply NoDup_iter_keys|].
intros k Hk. apply (stored_keys_iterated st Hwf k Hk).
Qed.

Lemma len_counts_iterated_rows_witness :
  wf store3 = true /\ Container._edges_length store3 = length (_edges_iter store3).
Proof.
assert (Hwf : wf store3 = true) by (vm_compute; reflexivity).
split; [exact Hwf|]. apply (len_counts_iterated_rows store3 Hwf).
Defined.

Lemma buffered_count_append (buffer : gmap (nat * nat) (list Row)) (key : nat * nat)
    (record : Row) :
  buffered_count (<[key := default [] (buffer !! key) ++ [record]]> buffer)
  = S (buffered_count buffer).
Proof.
unfold buffered_count. destruct (buffer !! key) as [rows|] eqn:E; simpl.
- rewrite <- (insert_delete_id buffer key rows E) at 2.
  rewrite <- (insert_delete_eq buffer key (rows ++ [record])).
  rewrite !map_fold_insert_L; try apply lookup_delete_eq; try (intros; lia).
  rewrite length_app. simpl. lia.
- rewrite map_fold_insert_L; [simpl; lia| |exact E]. intros. lia.
Qed.

(** X4. [_add_edge] without a row handle appends the record of the edge
    to the buffer of its sub-table, which then holds one row more. When
    the buffer then holds more rows than [_edge_buffer_size], and only
    then, all of it is flushed to the tables at once; otherwise the
    record waits in the buffer and the tables are untouched. Either way
    the record is kept, and the buffer ends with at most
    [_edge_buffer_size] rows. *)
Theorem buffer_holds_at_most_its_size (st : Store.T) (e : Edge) (replace : bool) :
  let appended :=
    <[key_of st e := default [] (_edge_buffer st !! key_of st e) ++ [record_of e]]>
      (_edge_buffer st) in
  buffered_count appended = S (buffered_count (_edge_buffer st))
  /\ (_edge_buffer_size st < Z.of_nat (buffered_count appended) ->
      _edge_buffer (_add_edge st e None replace) = ∅
      /\ forall k,
           _edge_table_dict (_add_edge st e None replace) !! k
           = match appended !! k with
             | Some records => Some (default [] (_edge_table_dict st !! k) ++ records)
             | None => _edge_table_dict st !! k
             end)
  /\ (Z.of_nat (buffered_count appended) <= _edge_buffer_size st ->
      _edge_buffer (_add_edge st e None replace) = appended
      /\ _edge_table_dict (_add_edge st e None replace) = _edge_table_dict st)
  /\ (forall k,
        contents (_add_edge st e None replace) k
        = if decide (k = key_of st e) then contents st k ++ [record_of e]
          else contents st k)
  /\ Z.of_nat (buffered_count (_edge_buffer (_add_edge st e None replace)))
       <= Z.max 0 (_edge_buffer_size st)
  /\ _edge_buffer_size (_add_edge st e None replace) = _edge_buffer_size st
  /\ (_edge_buffer (_add_edge st e None replace) = ∅
      \/ _edge_table_dict (_add_edge st e None replace) = _edge_table_dict st).
Proof.
intros appended.
split; [apply buffered_count_append|].
assert (Hkey : (if row_source (record_of e) >? row_sink (record_of e)
                then _get_edge_table_tuple st (row_sink (record_of e))
                                            (row_source (record_of e))
                else _get_edge_table_tuple st (row_source (record_of e))
                                            (row_sink (record_of e)))
               = key_of st e).
{ pose proof (record_of_canonical e) as Hc.
  destruct (Z.gtb_spec (row_source (record_of e)) (row_sink (record_of e))); [lia|].
  rewrite get_edge_table_tuple_canonical by exact Hc. reflexivity. }
assert (Hst : _add_edge st e None replace
              = let st1 := with_edges st (_edge_table_dict st) appended
                             (_edges_dirty st) (_edge_index_dirty st) in
                let st2 := if _edge_buffer_size st <? Z.of_nat (buffered_count appended)
                           then _flush_table_edge_buffer st1 else st1 in
                with_edges st2 (_edge_table_dict st2) (_edge_buffer st2) true true).
{ rewrite add_edge_buffered_eq. unfold _add_edge_from_tuple, appended.
  destruct (row_source (record_of e) >? row_sink (record_of e));
    simpl in Hkey |- *; rewrite Hkey; reflexivity. }
split; [|split; [|split; [intros k; apply add_edge_buffered_contents|]]].
- intros Hgt. rewrite Hst. simpl.
  destruct (Z.ltb_spec (_edge_buffer_size st) (Z.of_nat (buffered_count appended))); [|lia].
  simpl. split; [reflexivity|]. intros k. apply flush_lookup.
- intros Hle. rewrite Hst. simpl.
  destruct (Z.ltb_spec (_edge_buffer_size st) (Z.of_nat (buffered_count appended))); [lia|].
  simpl. split; reflexivity.
- rewrite Hst. simpl.
  destruct (Z.ltb_spec (_edge_buffer_size st) (Z.of_nat (buffered_count appended))); simpl.
  + split; [unfold buffered_count at 1; rewrite map_fold_empty; lia|].
    split; [reflexivity|left; reflexivity].
  + split; [lia|]. split; [reflexivity|right; reflexivity].
Qed.

End IngestProperties.

(** ** The partition map *)

Section PartitionProperties.

Import Store Scenario.

Lemma filter_none {A} (f : A -> bool) (l : list A) :
  (forall x, In x l -> f x = false) -> List.filter f l = [].
Proof.
induction l as [|x l IH]; intros H; [reflexivity|]. simpl.
rewrite (H x) by (left; reflexivity). apply IH. intros y Hy. apply H. right. exact Hy.
Qed.

Lemma strictly_increasing_lt a : forall b c,
  Py.strictly_increasing (b :: a) = true -> In c a -> b < c.
Proof.
induction a as [|x a IH]; intros b c H Hin; [destruct Hin|].
simpl in H. apply andb_true_iff in H as [Hbx Hrest]. apply Z.ltb_lt in Hbx.
destruct Hin as [->|Hin]; [exact Hbx|].
specialize (IH x c Hrest Hin). lia.
Qed.

Lemma strictly_increasing_tail b a :
  Py.strictly_increasing (b :: a) = true -> Py.strictly_increasing a = true.
Proof.
destruct a as [|x a]; [reflexivity|]. simpl. intros H.
apply andb_true_iff in H as [_ H]. exact H.
Qed.

Lemma upper_bound_cons b a x :
  Py.upper_bound (b :: a) x = ((if (b <=? x)%Z then 1 else 0) + Py.upper_bound a x)%nat.
Proof. unfold Py.upper_bound. simpl. destruct (b <=? x); reflexivity. Qed.

(** One more index, one more partition exactly when that index is a
    break. *)
Lemma upper_bound_step a : forall x,
  Py.strictly_increasing a = true ->
  Py.upper_bound a (x + 1)
  = (Py.upper_bound a x + (if decide ((x + 1)%Z ∈ a) then 1 else 0))%nat.
Proof.
induction a as [|b a IH]; intros x Hinc; [reflexivity|].
rewrite !upper_bound_cons, (IH x (strictly_increasing_tail b a Hinc)).
pose proof (strictly_increasing_lt a b (x + 1) Hinc) as Hlt.
destruct (decide (x + 1 ∈ a)) as [Hin|Hnin].
- specialize (Hlt (proj1 (list_elem_of_In _ _) Hin)).
  destruct (decide (x + 1 ∈ b :: a)) as [_|Hn]; [|exfalso; apply Hn; right; exact Hin].
  destruct (Z.leb_spec b (x + 1)), (Z.leb_spec b x); lia.
- destruct (decide (x + 1 ∈ b :: a)) as [Hin|Hn].
  + apply elem_of_cons in Hin as [Heq|Hin]; [|contradiction].
    destruct (Z.leb_spec b (x + 1)), (Z.leb_spec b x); lia.
  + assert (b <> x + 1) by (intros ->; apply Hn; left).
    destruct (Z.leb_spec b (x + 1)), (Z.leb_spec b x); lia.
Qed.

(** The breaks of the chromosome strategy: the positions whose
    chromosome differs from the one before. *)
Lemma chromosome_breaks_spec rs : forall i previous z,
  In z (chromosome_breaks i previous rs) <->
  exists k r, z = i + Z.of_nat k /\ rs !! k = Some r
    /\ match k with
       | O => exists c, previous = Some c /\ chromosome r <> c
       | S k' => exists r', rs !! k' = Some r' /\ chromosome r <> chromosome r'
       end.
Proof.
induction rs as [|r0 rs IH]; intros i previous z; simpl.
- split; [intros []|]. intros (k & r & _ & H & _). destruct k; discriminate.
- assert (Htail : In z (chromosome_breaks (i + 1) (Some (chromosome r0)) rs) <->
                  exists k r, z = i + Z.of_nat (S k) /\ (r0 :: rs) !! (S k) = Some r
                    /\ exists r', (r0 :: rs) !! k = Some r' /\ chromosome r <> chromosome r').
  { rewrite IH. split.
    - intros (k & r & Hz & Hr & Hk). exists k, r. split; [lia|]. split; [exact Hr|].
      destruct k as [|k'].
      + destruct Hk as (c & [= <-] & Hne). exists r0. split; [reflexivity|exact Hne].
      + destruct Hk as (r' & Hr' & Hne). exists r'. split; [exact Hr'|exact Hne].
    - intros (k & r & Hz & Hr & r' & Hr' & Hne). exists k, r. split; [lia|].
      split; [exact Hr|]. destruct k as [|k'].
      + simpl in Hr'. injection Hr' as <-. exists (chromosome r0). split; [reflexivity|exact Hne].
      + exists r'. split; [exact Hr'|exact Hne]. }
  assert (Hhead : forall P : Prop,
            (z = i \/ P) <-> (z = i /\ True) \/ P) by (intros; tauto).
  destruct previous as [c|].
  + destruct (String.eqb_spec (chromosome r0) c) as [Heq|Hne].
    * rewrite Htail. split.
      -- intros (k & r & H1 & H2 & H3). exists (S k), r. auto.
      -- intros (k & r & H1 & H2 & H3). destruct k as [|k].
         ++ destruct H3 as (c' & [= <-] & Hne). simpl in H2. injection H2 as <-.
            contradiction.
         ++ exists k, r. auto.
    * simpl. rewrite Htail. split.
      -- intros [<-|(k & r & H1 & H2 & H3)].
         ++ exists O, r0. split; [lia|]. split; [reflexivity|]. exists c. auto.
         ++ exists (S k), r. auto.
      -- intros (k & r & H1 & H2 & H3). destruct k as [|k].
         ++ left. lia.
         ++ right. exists k, r. auto.
  + rewrite Htail. split.
    * intros (k & r & H1 & H2 & H3). exists (S k), r. auto.
    * intros (k & r & H1 & H2 & H3). destruct k as [|k].
      -- destruct H3 as (c' & [=] & _).
      -- exists k, r. auto.
Qed.

(** X5. Under the chromosome strategy region 0 (and any index below it)
    is in partition 0, and the partition of a region is that of the
    region before it, plus one exactly when their chromosomes differ. *)
Theorem chromosome_partitions_follow_chromosomes
    (st : Store.T) (b : nat) (r1 r2 : Region)
    (Hstrategy : _partitioning_strategy st = ByChromosome)
    (Hbreaks : _partition_breaks st
               = compute_breaks (_partitioning_strategy st) (regions st))
    (H1 : regions st !! b = Some r1)
    (H2 : regions st !! S b = Some r2) :
  _get_partition_ix st (Z.of_nat (S b))
  = (_get_partition_ix st (Z.of_nat b)
     + (if String.eqb (chromosome r2) (chromosome r1) then 0 else 1))%nat
  /\ (forall i, i <= 0 -> _get_partition_ix st i = 0%nat).
Proof.
pose proof (compute_breaks_increasing ByChromosome (regions st)) as Hinc.
unfold _get_partition_ix. rewrite Hbreaks, Hstrategy.
rewrite !(bisect_right_upper_bound _ _ Hinc). simpl compute_breaks. simpl in Hinc.
split.
- replace (Z.of_nat (S b)) with (Z.of_nat b + 1) by lia.
  rewrite (upper_bound_step _ _ Hinc). f_equal.
  destruct (decide (Z.of_nat b + 1 ∈ chromosome_breaks 0 None (regions st)))
    as [Hin|Hnin].
  + apply list_elem_of_In, chromosome_breaks_spec in Hin as (k & r & Hz & Hr & Hk).
    destruct k as [|k]; [destruct Hk as (c & [=] & _)|].
    destruct Hk as (r' & Hr' & Hne).
    assert (k = b) by lia. subst k.
    rewrite H2 in Hr. injection Hr as <-. rewrite H1 in Hr'. injection Hr' as <-.
    destruct (String.eqb_spec (chromosome r2) (chromosome r1)); [contradiction|reflexivity].
  + destruct (String.eqb_spec (chromosome r2) (chromosome r1)) as [Heq|Hne]; [reflexivity|].
    exfalso. apply Hnin. apply list_elem_of_In, chromosome_breaks_spec. exists (S b), r2.
    split; [lia|]. split; [exact H2|]. exists r1. auto.
- intros i Hi. rewrite (bisect_right_upper_bound _ _ Hinc).
  unfold Py.upper_bound.
  rewrite filter_none; [reflexivity|].
  intros z Hz. apply chromosome_breaks_spec in Hz as (k & r & Hk & _ & Hm).
  destruct k as [|k]; [destruct Hm as (c & [=] & _)|].
  apply Z.leb_gt. lia.
Qed.

Lemma chromosome_partitions_follow_chromosomes_witness :
  _get_partition_ix store3 2 = (_get_partition_ix store3 1 + 1)%nat
  /\ _get_partition_ix store3 1 = (_get_partition_ix store3 0 + 0)%nat.
Proof.
split.
- exact (proj1 (chromosome_partitions_follow_chromosomes store3 1
                  (region 1 "chr1" 10 20 true 1) (region 2 "chr2" 0 10 true 1)
                  eq_refl eq_refl eq_refl eq_refl)).
- exact (proj1 (chromosome_partitions_follow_chromosomes store3 0
                  (region 0 "chr1" 0 10 true 1) (region 1 "chr1" 10 20 true 1)
                  eq_refl eq_refl eq_refl eq_refl)).
Defined.

Lemma upper_bound_range_step step x stop : 0 < step -> x < stop -> forall fuel cur,
  stop <= cur + Z.of_nat fuel * step ->
  Z.of_nat (Py.upper_bound (range_step fuel cur stop step) x)
  = if x <? cur then 0 else (x - cur) / step + 1.
Proof.
intros Hstep Hx. induction fuel as [|fuel IH]; intros cur Hfuel.
- simpl. destruct (Z.ltb_spec x cur); [reflexivity|lia].
- simpl range_step. destruct (Z.ltb_spec cur stop) as [Hlt|Hge].
  + rewrite upper_bound_cons, Nat2Z.inj_add, (IH (cur + step)) by lia.
    destruct (Z.leb_spec cur x) as [Hle|Hgt].
    * destruct (Z.ltb_spec x cur); [lia|].
      destruct (Z.ltb_spec x (cur + step)) as [Hin|Hout].
      -- rewrite (Z.div_small (x - cur) step) by lia. reflexivity.
      -- replace (x - cur) with ((x - (cur + step)) + 1 * step) by lia.
         rewrite Z.div_add by lia. simpl Z.of_nat. lia.
    * destruct (Z.ltb_spec x cur); [|lia].
      destruct (Z.ltb_spec x (cur + step)); [reflexivity|lia].
  + unfold Py.upper_bound. simpl. destruct (Z.ltb_spec x cur); [reflexivity|lia].
Qed.

(** X6. Under a fixed partition size [B] the partition of the region
    [ix] of the store is [ix // B]. *)
Theorem fixed_partitions_are_bins
    (st : Store.T) (B : positive) (i : Z)
    (Hstrategy : _partitioning_strategy st = FixedBins B)
    (Hbreaks : _partition_breaks st
               = compute_breaks (_partitioning_strategy st) (regions st))
    (Hi : 0 <= i < len_regions st) :
  Z.of_nat (_get_partition_ix st i) = i / Z.pos B.
Proof.
pose proof (compute_breaks_increasing (FixedBins B) (regions st)) as Hinc.
unfold _get_partition_ix. rewrite Hbreaks, Hstrategy.
rewrite (bisect_right_upper_bound _ _ Hinc). simpl compute_breaks.
unfold len_regions in Hi.
rewrite (upper_bound_range_step (Z.pos B) i (Z.of_nat (length (regions st)))
           ltac:(lia) ltac:(lia)) by nia.
destruct (Z.ltb_spec i (Z.pos B)) as [Hlt|Hge].
- rewrite Z.div_small by lia. reflexivity.
- replace i with ((i - Z.pos B) + 1 * Z.pos B) at 2 by lia.
  rewrite Z.div_add by lia. reflexivity.
Qed.

Lemma fixed_partitions_are_bins_witness :
  Z.of_nat (_get_partition_ix (init regions3 (FixedBins 2) 10) 2) = 2 / 2.
Proof.
apply (fixed_partitions_are_bins (init regions3 (FixedBins 2) 10) 2 2 eq_refl eq_refl).
vm_compute. split; [discriminate|reflexivity].
Defined.

(** X7. The sub-table of an edge does not depend on the order of its
    two indices, and its key [(i, j)] has [i <= j <= len(breaks)],
    whatever the breaks are. *)
Theorem edge_table_tuple_ignores_order (st : Store.T) (a b : Z) :
  _get_edge_table_tuple st a b = _get_edge_table_tuple st b a
  /\ _get_edge_table_tuple st a b
     = (_get_partition_ix st (Z.min a b), _get_partition_ix st (Z.max a b))
  /\ ((_get_edge_table_tuple st a b).1 <= (_get_edge_table_tuple st a b).2
      <= length (_partition_breaks st))%nat.
Proof.
assert (Heq : forall x y, _get_edge_table_tuple st x y
              = (_get_partition_ix st (Z.min x y), _get_partition_ix st (Z.max x y))).
{ intros x y. unfold _get_edge_table_tuple.
  destruct (Z.gtb_spec x y).
  - rewrite Z.min_r, Z.max_l by lia. reflexivity.
  - rewrite Z.min_l, Z.max_r by lia. reflexivity. }
split; [rewrite !Heq, Z.min_comm, Z.max_comm; reflexivity|].
split; [apply Heq|]. rewrite Heq. simpl. unfold _get_partition_ix. split.
- apply bisect_right_mono. lia.
- apply bisect_right_le_length.
Qed.

End PartitionProperties.

(** ** The subset query on one partition *)

Section PlannerProperties.

Import Store Scenario.

Lemma filter_all {A} (f : A -> bool) (l : list A) :
  (forall x, In x l -> f x = true) -> List.filter f l = l.
Proof.
induction l as [|x l IH]; intros H; [reflexivity|]. simpl.
rewrite (H x) by (left; reflexivity). f_equal. apply IH. intros y Hy. apply H. right. exact Hy.
Qed.

(** X8. On a store with a single partition (no breaks) whose rows have
    their indices among the regions, the subset query yields exactly
    the rows of the table whose canonical pair lies in the window
    [[min ix, max ix]] of the row regions by that of the column
    regions, or in its transpose, each once, and it ends normally. *)
Theorem single_partition_subset_is_exact
    (st : Store.T) (rows cols : list Region) (table : list Row)
    (Hbreaks : _partition_breaks st = [])
    (Htable : _edge_table_dict st !! (0, 0)%nat = Some table)
    (Hrange : rows_in_range (len_regions st) table = true) :
  (_edge_subset_rows_from_regions st rows cols).2 = None
  /\ (_edge_subset_rows_from_regions st rows cols).1
     ≡ₚ List.filter
          (in_window_or_transpose
             (_min_max_region_ix st rows).1 (_min_max_region_ix st rows).2
             (_min_max_region_ix st cols).1 (_min_max_region_ix st cols).2)
          table.
Proof.
unfold _edge_subset_rows_from_regions.
destruct (_min_max_region_ix st rows) as [rs re].
destruct (_min_max_region_ix st cols) as [cs ce]. simpl fst. simpl snd.
unfold _get_partition_ix. rewrite Hbreaks. unfold Py.bisect_right. simpl.
assert (Hvisit : (visit_table st 0 0 rs re cs ce).2 = None
                 /\ (visit_table st 0 0 rs re cs ce).1
                    ≡ₚ List.filter (in_window_or_transpose rs re cs ce) table).
{ destruct (ci <- _is_partition_covered st 0 rs re ;;
            if ci then _is_partition_covered st 0 cs ce else Py.Ok false)
    as [[|]|e] eqn:Ecov.
  - unfold visit_table. rewrite Htable, Ecov. simpl. split; [reflexivity|].
    rewrite filter_all; [reflexivity|].
    intros row Hrow. unfold rows_in_range in Hrange.
    rewrite forallb_forall in Hrange. specialize (Hrange row Hrow).
    revert Ecov. unfold _is_partition_covered. rewrite Hbreaks. simpl.
    destruct ((rs <=? 0) && (re >=? len_regions st - 1)) eqn:E1; [|discriminate].
    intros [= E2].
    apply andb_true_iff in E1 as [E1 E1'], E2 as [E2 E2'].
    rewrite !andb_true_iff in Hrange. destruct Hrange as [[[R1 R2] R3] R4].
    unfold in_window_or_transpose, in_window.
    apply orb_true_iff. left. rewrite !andb_true_iff.
    apply Z.leb_le in E1, E2, R1, R3. apply Z.geb_le in E1', E2'.
    apply Z.ltb_lt in R2, R4.
    repeat split; apply Z.leb_le; lia.
  - apply (visit_table_predicate_path st 0 0 rs re cs ce table Htable Ecov).
  - exfalso. revert Ecov. unfold _is_partition_covered. rewrite Hbreaks. simpl.
    destruct ((rs <=? 0) && (re >=? len_regions st - 1)); discriminate. }
destruct (visit_table st 0 0 rs re cs ce) as [ys exc]. simpl in Hvisit.
destruct Hvisit as [-> Hperm]. simpl. rewrite !app_nil_r. split; [reflexivity|exact Hperm].
Qed.

Lemma single_partition_subset_is_exact_witness :
  let st := fst (add_edges (init regions3 NoPartitions 10) edges3 true) in
  (_edge_subset_rows_from_regions st (drop 1 regions3) (drop 1 regions3)).1
  ≡ₚ List.filter (in_window_or_transpose 1 2 1 2) [row01; row12; row02].
Proof.
intros st.
exact (proj2 (single_partition_subset_is_exact st (drop 1 regions3) (drop 1 regions3)
                [row01; row12; row02] eq_refl eq_refl eq_refl)).
Defined.

Lemma gen_then_in (g rest : Gen) row :
  In row (gen_then g rest).1 -> In row g.1 \/ In row rest.1.
Proof.
destruct g as [ys [e|]]; simpl; [auto|]. apply in_app_or.
Qed.

Lemma visit_table_in st i j rs re cs ce row :
  In row (visit_table st i j rs re cs ce).1 ->
  exists table, _edge_table_dict st !! (i, j) = Some table /\ In row table.
Proof.
unfold visit_table. destruct (_edge_table_dict st !! (i, j)) as [table|]; [|intros []].
intros H. exists table. split; [reflexivity|].
destruct (ci <- _is_partition_covered st i rs re ;;
          if ci then _is_partition_covered st j cs ce else Py.Ok false)
  as [[|]|e]; simpl in H; [exact H| |destruct H].
destruct (rs >? cs); simpl in H; apply in_app_or in H as [H|H];
  unfold where_ in H; repeat (apply List.filter_In in H as [H _]); exact H.
Qed.

Lemma inner_loop_in st js rs re cs ce row : forall i,
  In row (inner_loop st i js rs re cs ce).1 ->
  exists key table, _edge_table_dict st !! key = Some table /\ In row table.
Proof.
induction js as [|j js IH]; intros i H; [destruct H|]. simpl in H.
destruct (j <? i)%nat; apply gen_then_in in H as [H|H];
  try (apply visit_table_in in H as (table & Ht & Hin); eauto);
  apply IH in H; exact H.
Qed.

Lemma outer_loop_in st js rs re cs ce row : forall is_,
  In row (outer_loop st is_ js rs re cs ce).1 ->
  exists key table, _edge_table_dict st !! key = Some table /\ In row table.
Proof.
induction is_ as [|i is_ IH]; intros H; [destruct H|]. simpl in H.
apply gen_then_in in H as [H|H]; [apply inner_loop_in in H; exact H|apply IH, H].
Qed.

(** X9. Whatever the partitions, every row that the subset query yields
    is a row of one of the edge tables: it invents none and never
    reaches into the buffer. *)
Theorem subset_yields_stored_rows_only
    (st : Store.T) (rows cols : list Region) (row : Row)
    (Hrow : In row (_edge_subset_rows_from_regions st rows cols).1) :
  exists key table, _edge_table_dict st !! key = Some table /\ In row table.
Proof.
revert Hrow. unfold _edge_subset_rows_from_regions.
destruct (_min_max_region_ix st rows), (_min_max_region_ix st cols).
apply outer_loop_in.
Qed.

Lemma subset_yields_stored_rows_only_witness :
  exists key table, _edge_table_dict store3 !! key = Some table /\ In row12 table.
Proof.
apply (subset_yields_stored_rows_only store3 regions3 regions3 row12).
vm_compute. right. left. reflexivity.
Defined.

End PlannerProperties.

(** ** The entries of the assembled matrix *)

Section AssemblerProperties.

Import Store Assembler Scenario.

Lemma assemble_step_entry rows cols ro co m e a b :
  has_shape rows cols m -> (a < rows)%nat -> (b < cols)%nat ->
  entry (assemble_step (rows, cols) ro co m e) a b
  = if lands ro co a b e then Some e.2 else entry m a b.
Proof.
intros Hm Ha Hb. destruct e as [[s t] w]. unfold assemble_step, lands. simpl.
set (m1 := write_if_inside (rows, cols) m (s - ro) (t - co) w).
assert (Hm1 : has_shape rows cols m1) by apply write_if_inside_shape, Hm.
assert (E1 : entry m1 a b
             = if (s - ro =? Z.of_nat a) && (t - co =? Z.of_nat b) then Some w
               else entry m a b).
{ unfold m1, write_if_inside. simpl.
  destruct ((0 <=? s - ro) && (s - ro <? Z.of_nat rows)
            && (0 <=? t - co) && (t - co <? Z.of_nat cols)) eqn:Ein.
  - rewrite !andb_true_iff in Ein. destruct Ein as [[[I1 I2] I3] I4].
    apply Z.leb_le in I1, I3. apply Z.ltb_lt in I2, I4.
    rewrite (entry_set_entry rows cols) by (try exact Hm; lia).
    destruct (Z.eqb_spec (s - ro) (Z.of_nat a)), (Z.eqb_spec (t - co) (Z.of_nat b));
      simpl; case_decide; try reflexivity; exfalso; lia.
  - destruct (Z.eqb_spec (s - ro) (Z.of_nat a)), (Z.eqb_spec (t - co) (Z.of_nat b));
      simpl; try reflexivity.
    exfalso. rewrite !andb_false_iff in Ein.
    rewrite !Z.leb_gt, !Z.ltb_ge in Ein. lia. }
unfold write_if_inside. simpl.
destruct ((0 <=? t - ro) && (t - ro <? Z.of_nat rows)
          && (0 <=? s - co) && (s - co <? Z.of_nat cols)) eqn:Ein.
- rewrite !andb_true_iff in Ein. destruct Ein as [[[I1 I2] I3] I4].
  apply Z.leb_le in I1, I3. apply Z.ltb_lt in I2, I4.
  rewrite (entry_set_entry rows cols) by (try exact Hm1; lia). rewrite E1.
  destruct (Z.eqb_spec (t - ro) (Z.of_nat a)), (Z.eqb_spec (s - co) (Z.of_nat b));
    simpl; case_decide; rewrite ?orb_true_r, ?orb_false_r;
    try reflexivity; try (exfalso; lia).
- rewrite E1.
  destruct (Z.eqb_spec (t - ro) (Z.of_nat a)), (Z.eqb_spec (s - co) (Z.of_nat b));
    simpl; rewrite ?orb_true_r, ?orb_false_r; try reflexivity.
  exfalso. rewrite !andb_false_iff in Ein.
  rewrite !Z.leb_gt, !Z.ltb_ge in Ein. lia.
Qed.

Lemma assemble_entry rows cols ro co a b : forall entries m,
  has_shape rows cols m -> (a < rows)%nat -> (b < cols)%nat ->
  entry (fold_left (assemble_step (rows, cols) ro co) entries m) a b
  = match last_landing ro co a b entries with
    | Some w => Some w
    | None => entry m a b
    end.
Proof.
intros entries m Hm Ha Hb. unfold last_landing.
induction entries as [|e entries IH] using rev_ind; [reflexivity|].
rewrite fold_left_app, rev_unit. simpl.
rewrite (assemble_step_entry rows cols) by (try apply assemble_shape; assumption).
destruct (lands ro co a b e); [reflexivity|exact IH].
Qed.

(** X10. Every entry of the matrix that [matrix] returns is the weight
    of the last yielded edge that lands on it, directly or mirrored,
    and the default value when none does; the matrix has one row per
    row region and one column per column region. *)
Theorem matrix_entry_is_last_landing
    (st : Store.T) (key : option Key) (default_value : option float)
    (mask_invalid : bool) (m : RegionMatrix)
    (Hm : matrix st key default_value mask_invalid = Py.Ok (Matrix m)) :
  exists row_offset col_offset entries,
    first_ix (row_regions m) = Py.Ok row_offset
    /\ first_ix (col_regions m) = Py.Ok col_offset
    /\ matrix_entries st key = Py.Ok entries
    /\ has_shape (length (row_regions m)) (length (col_regions m)) (data m)
    /\ forall a b, (a < length (row_regions m))%nat -> (b < length (col_regions m))%nat ->
         entry (data m) a b
         = Some (default (default _default_value default_value)
                         (last_landing row_offset col_offset a b entries)).
Proof.
apply matrix_inv in Hm as (ro & co & entries & Hro & Hco & _ & He & Hd).
exists ro, co, entries. split; [exact Hro|]. split; [exact Hco|]. split; [exact He|].
rewrite Hd. split; [apply assemble_shape, np_full_shape|].
intros a b Ha Hb. rewrite (assemble_entry _ _ ro co a b) by (try apply np_full_shape; assumption).
destruct (last_landing ro co a b entries); [reflexivity|].
rewrite entry_np_full, decide_True by auto. reflexivity.
Qed.

Lemma matrix_entry_is_last_landing_witness :
  exists row_offset col_offset entries,
    matrix_entries store3 None = Py.Ok entries
    /\ entry (data matrix3) 1 2
       = Some (default (default _default_value None)
                       (last_landing row_offset col_offset 1 2 entries)).
Proof.
destruct (matrix_entry_is_last_landing store3 None None false matrix3)
  as (ro & co & entries & _ & _ & He & _ & H); [vm_compute; reflexivity|].
exists ro, co, entries. split; [exact He|]. apply H; simpl; lia.
Defined.

Lemma edges_iter_no_rows st :
  (forall key table, _edge_table_dict st !! key = Some table -> table = []) ->
  _edges_iter st = [].
Proof.
intros H. rewrite edges_iter_by_keys.
induction (iter_keys (S (length (_partition_breaks st)))) as [|k keys IH]; [reflexivity|].
simpl. rewrite IH, app_nil_r.
destruct (_edge_table_dict st !! k) as [table|] eqn:E; [|reflexivity].
simpl. apply (H k table E).
Qed.

(** X11. On a store without stored rows (a new one, or one whose edges
    are all still buffered) [matrix()] returns the square matrix over
    all regions filled with the default value. *)
Theorem matrix_without_rows_is_default
    (st : Store.T) (default_value : option float)
    (Hregions : regions st <> [])
    (Hrows : forall key table, _edge_table_dict st !! key = Some table -> table = []) :
  matrix st None default_value false
  = Py.Ok (Matrix (mkRegionMatrix
                     (np_full (length (regions st)) (length (regions st))
                              (default _default_value default_value))
                     None (regions st) (regions st))).
Proof.
unfold matrix, matrix_entries, edges. rewrite (edges_iter_no_rows st Hrows).
unfold _key_to_regions, len_regions. simpl.
rewrite Nat2Z.id, Nat.sub_0_r, take_ge by reflexivity.
destruct (regions st) as [|r rs] eqn:Ers; [contradiction|]. reflexivity.
Qed.

Lemma matrix_without_rows_is_default_witness :
  matrix empty3 None None false
  = Py.Ok (Matrix (mkRegionMatrix (np_full 3 3 0%float) None regions3 regions3)).
Proof.
apply (matrix_without_rows_is_default empty3 None).
- discriminate.
- intros key table H. unfold empty3, init in H. simpl in H.
  apply lookup_singleton_Some in H as [_ <-]. reflexivity.
Defined.

Lemma mask_all_valid rs offset : forall mk,
  (forall r, In r rs -> default true (valid r) = true) ->
  mask_invalid_regions mk rs offset = Py.Ok mk.
Proof.
induction rs as [|r rs IH]; intros mk H; [reflexivity|]. simpl.
rewrite (H r) by (left; reflexivity). simpl. apply IH. intros r' Hr'. apply H. right. exact Hr'.
Qed.

Lemma entry_np_full_false rows cols a b x :
  entry (np_full rows cols false) a b = Some x -> x = false.
Proof.
unfold entry, np_full. intros H.
destruct (replicate rows (replicate cols false) !! a) as [row|] eqn:Er; [|discriminate].
apply lookup_replicate in Er as [-> _]. simpl in H.
apply lookup_replicate in H as [-> _]. reflexivity.
Qed.

(** X12. When every row and column region that the key resolves to is
    valid, [mask_invalid=True] changes nothing: [matrix] returns, or
    raises, exactly what it does without it. The mask loops assign
    nothing, a pair of ints gives the unmasked number, and any other key
    the same [RegionMatrix], which carries no mask. *)
Theorem all_valid_masks_nothing
    (st : Store.T) (key : option Key) (default_value : option float)
    (rs cs : list Region)
    (Hkey : _key_to_regions st (default (Key1 KeyNone) key) = Py.Ok (rs, cs))
    (Hvalid : forall r, In r (rs ++ cs) -> default true (valid r) = true) :
  matrix st key default_value true = matrix st key default_value false
  /\ (forall row_offset col_offset,
        invalid_mask (length rs, length cs) rs cs row_offset col_offset
        = Py.Ok (np_full (length rs) (length cs) false)).
Proof.
assert (Hmask : forall ro co,
          invalid_mask (length rs, length cs) rs cs ro co
          = Py.Ok (np_full (length rs) (length cs) false)).
{ intros ro co. unfold invalid_mask. simpl.
  rewrite (mask_all_valid rs ro) by (intros r Hr; apply Hvalid, in_or_app; left; exact Hr).
  simpl. apply mask_all_valid. intros r Hr. apply Hvalid, in_or_app. right. exact Hr. }
split; [|exact Hmask].
unfold matrix. rewrite Hkey. simpl.
destruct (first_ix rs) as [ro|]; simpl; [|reflexivity].
destruct (first_ix cs) as [co|]; simpl; [|reflexivity].
destruct (matrix_entries st key) as [entries|]; simpl; [|reflexivity].
rewrite Hmask. simpl.
destruct (is_int_pair key); [|reflexivity].
destruct (entry _ 0 0) as [v|]; [|reflexivity].
destruct (entry (np_full (length rs) (length cs) false) 0 0) as [x|] eqn:E; [|reflexivity].
rewrite (entry_np_full_false _ _ _ _ _ E). reflexivity.
Qed.

Lemma all_valid_masks_nothing_witness :
  matrix store3 None None true = matrix store3 None None false
  /\ matrix store3 None None true = Py.Ok (Matrix matrix3).
Proof.
assert (H : matrix store3 None None true = matrix store3 None None false).
{ apply (all_valid_masks_nothing store3 None None regions3 regions3).
  - vm_compute. reflexivity.
  - intros r Hr. simpl in Hr.
    repeat (destruct Hr as [<-|Hr]; [reflexivity|]). destruct Hr. }
split; [exact H|]. rewrite H. vm_compute. reflexivity.
Defined.

End AssemblerProperties.

(** ** Mappability and the inputs of [as_edge] *)

Section MappableProperties.

Import Store Assembler Container Scenario.

Lemma set_true_inside v k :
  0 <= k < Z.of_nat (length v) -> set_true v k = Py.Ok (<[Z.to_nat k := true]> v).
Proof.
intros H. unfold set_true, py_index.
destruct (Z.leb_spec 0 k); [|lia]. destruct (Z.ltb_spec k (Z.of_nat (length v))); [|lia].
reflexivity.
Qed.

Lemma set_true_length v k v' : set_true v k = Py.Ok v' -> length v' = length v.
Proof.
unfold set_true. destruct (py_index (length v) k); simpl; [|discriminate].
intros [= <-]. apply length_insert.
Qed.

Lemma set_true_raises v k e : set_true v k = Py.Raise e ->
  e = Py.IndexError /\ py_index (length v) k = Py.Raise Py.IndexError.
Proof.
unfold set_true, py_index.
destruct ((0 <=? k) && (k <? Z.of_nat (length v))); simpl; [discriminate|].
destruct ((- Z.of_nat (length v) <=? k) && (k <? 0)); simpl; [discriminate|].
intros [= <-]. auto.
Qed.

Lemma mappable_loop_inside rows : forall v,
  rows_in_range (Z.of_nat (length v)) rows = true ->
  exists v',
    mappable_loop v rows = Py.Ok v'
    /\ length v' = length v
    /\ forall x, v' !! x = Some true <->
         v !! x = Some true
         \/ ((x < length v)%nat
             /\ exists row, In row rows
                  /\ (row_source row = Z.of_nat x \/ row_sink row = Z.of_nat x)).
Proof.
induction rows as [|row rows IH]; intros v Hr.
- exists v. split; [reflexivity|]. split; [reflexivity|]. intros x. split; [auto|].
  intros [H|(_ & row & [] & _)]. exact H.
- simpl in Hr. apply andb_true_iff in Hr as [Hrow Hrows].
  rewrite !andb_true_iff in Hrow. destruct Hrow as [[[S1 S2] T1] T2].
  apply Z.leb_le in S1, T1. apply Z.ltb_lt in S2, T2.
  simpl. rewrite set_true_inside by lia. simpl.
  rewrite set_true_inside by (rewrite length_insert; lia). simpl.
  set (v2 := <[Z.to_nat (row_sink row) := true]> (<[Z.to_nat (row_source row) := true]> v)).
  assert (Hlen : length v2 = length v) by (unfold v2; rewrite !length_insert; reflexivity).
  destruct (IH v2) as (v' & Hloop & Hlen' & Hspec); [rewrite Hlen; exact Hrows|].
  exists v'. split; [exact Hloop|]. split; [lia|].
  intros x. rewrite Hspec, Hlen. unfold v2. rewrite !list_lookup_insert, length_insert.
  split.
  + intros [H|(Hx & r & Hin & Hr)].
    * repeat case_decide.
      -- right. split; [lia|]. exists row. split; [left; reflexivity|]. right. lia.
      -- right. split; [lia|]. exists row. split; [left; reflexivity|]. left. lia.
      -- left. exact H.
    * right. split; [exact Hx|]. exists r. split; [right; exact Hin|exact Hr].
  + intros [H|(Hx & r & [<-|Hin] & Hr)].
    * left. repeat case_decide; auto.
    * left. repeat case_decide; try reflexivity. exfalso. lia.
    * right. split; [exact Hx|]. exists r. auto.
Qed.

(** X13. When every stored row has its indices among the regions,
    [mappable()] returns a vector with one flag per region, true exactly
    at the regions that are the source or the sink of a stored edge. *)
Theorem mappable_marks_the_ends_of_edges
    (st : Store.T)
    (Hrange : rows_in_range (len_regions st) (_edges_iter st) = true) :
  exists v,
    mappable st = Py.Ok v
    /\ length v = length (regions st)
    /\ forall x, (x < length (regions st))%nat ->
         (v !! x = Some true <->
          exists row, In row (_edges_iter st)
            /\ (row_source row = Z.of_nat x \/ row_sink row = Z.of_nat x)).
Proof.
unfold mappable.
destruct (mappable_loop_inside (_edges_iter st) (replicate (length (regions st)) false))
  as (v & Hv & Hlen & Hspec); [rewrite length_replicate; exact Hrange|].
rewrite length_replicate in Hlen. exists v. split; [exact Hv|]. split; [exact Hlen|].
intros x Hx. rewrite Hspec, length_replicate. split.
- intros [H|(_ & H)]; [|exact H].
  apply lookup_replicate in H as [H _]. discriminate.
- intros H. right. auto.
Qed.

Lemma mappable_marks_the_ends_of_edges_witness :
  exists v, mappable store3 = Py.Ok v /\ length v = 3%nat.
Proof.
destruct (mappable_marks_the_ends_of_edges store3) as (v & Hv & Hlen & _);
  [vm_compute; reflexivity|].
exists v. split; [exact Hv|exact Hlen].
Defined.

Lemma mappable_loop_raises rows : forall v row,
  In row rows ->
  py_index (length v) (row_source row) = Py.Raise Py.IndexError
  \/ py_index (length v) (row_sink row) = Py.Raise Py.IndexError ->
  mappable_loop v rows = Py.Raise Py.IndexError.
Proof.
induction rows as [|r rows IH]; intros v row Hin Hbad; [destruct Hin|].
simpl. destruct (set_true v (row_source r)) as [v1|e] eqn:E1; simpl.
- pose proof (set_true_length _ _ _ E1) as L1.
  destruct (set_true v1 (row_sink r)) as [v2|e] eqn:E2; simpl.
  + pose proof (set_true_length _ _ _ E2) as L2.
    destruct Hin as [->|Hin].
    * exfalso. unfold set_true in E1, E2. rewrite L1 in E2.
      destruct Hbad as [Hb|Hb]; rewrite Hb in *; discriminate.
    * apply (IH v2 row Hin). rewrite L2, L1. exact Hbad.
  + apply set_true_raises in E2 as [-> _]. reflexivity.
- apply set_true_raises in E1 as [-> _]. reflexivity.
Qed.

(** X14. When a stored row has an index that is no Python index of the
    regions (at or beyond their number, which [add_edge] lets through
    with [check_nodes_exist=False], or below minus their number),
    [mappable()] raises [IndexError]. *)
Theorem mappable_raises_on_foreign_index
    (st : Store.T) (row : Row)
    (Hrow : In row (_edges_iter st))
    (Hbad : py_index (length (regions st)) (row_source row) = Py.Raise Py.IndexError
            \/ py_index (length (regions st)) (row_sink row) = Py.Raise Py.IndexError) :
  mappable st = Py.Raise Py.IndexError.
Proof.
unfold mappable. apply (mappable_loop_raises _ _ row Hrow).
rewrite length_replicate. exact Hbad.
Qed.

Lemma mappable_raises_on_foreign_index_witness :
  mappable (add_edges empty3 [triple 1 3 3] false).1 = Py.Raise Py.IndexError.
Proof.
apply (mappable_raises_on_foreign_index _ (mkRow 1 3 3%float)).
- vm_compute. left. reflexivity.
- right. vm_compute. reflexivity.
Defined.

End MappableProperties.

Section EdgeProperties.

Import Store.

(** X15. [as_edge] fails on two kinds of input only: a dict without
    ['source'] or ['sink'] ends in the [KeyError] of [edge[0]], and a
    sequence of fewer than two items or an object without [source] or
    [sink] in [ValueError]; everything else becomes an edge. *)
Theorem as_edge_failures (x : EdgeLike) :
  (dict_without_node x = true -> as_edge x = Py.Raise Py.KeyError)
  /\ (unrecognised x = true -> as_edge x = Py.Raise Py.ValueError)
  /\ (dict_without_node x = false -> unrecognised x = false ->
      exists e, as_edge x = Py.Ok e)
  /\ (forall st check row replace,
        dict_without_node x = true ->
        add_edge st x check row replace = Py.Raise Py.KeyError).
Proof.
split; [|split; [|split]].
- destruct x as [e|[s|] [t|] w|s|s|s t w]; try discriminate; reflexivity.
- destruct x as [e|s t w|[|a|a b|a b w r]|[|a|a b|a b w r]|[s|] [t|] w];
    try discriminate; reflexivity.
- destruct x as [e|[s|] [t|] w|[|a|a b|a b w r]|[|a|a b|a b w r]|[s|] [t|] w];
    simpl; try discriminate; intros _ _; try (eexists; reflexivity);
    destruct a, b; eexists; reflexivity.
- intros st check row replace H. unfold add_edge.
  destruct x as [e|[s|] [t|] w|s|s|s t w]; try discriminate; reflexivity.
Qed.

(** X16. A tuple of two region objects becomes an edge between their
    indices without a weight, which the store records with the column
    default 0.0; the same two regions in a list, like a pair of ints,
    get the weight 1. *)
Theorem as_edge_region_tuple_has_no_weight (a b : Region) :
  as_edge (OfTuple (Seq2 (NodeRegion a) (NodeRegion b)))
    = Py.Ok (mkEdge (NodeIx (ix a)) (NodeIx (ix b)) None)
  /\ as_edge (OfList (Seq2 (NodeRegion a) (NodeRegion b)))
    = Py.Ok (mkEdge (NodeRegion a) (NodeRegion b) (Some 1%float))
  /\ (forall w rest,
        as_edge (OfTuple (SeqN (NodeRegion a) (NodeRegion b) w rest))
        = Py.Ok (mkEdge (NodeIx (ix a)) (NodeIx (ix b)) (Some w)))
  /\ record_of (mkEdge (NodeIx (ix a)) (NodeIx (ix b)) None)
     = mkRow (Z.min (ix a) (ix b)) (Z.max (ix a) (ix b)) 0%float
  /\ record_of (mkEdge (NodeRegion a) (NodeRegion b) (Some 1%float))
     = mkRow (Z.min (ix a) (ix b)) (Z.max (ix a) (ix b)) 1%float.
Proof. repeat split. Qed.

End EdgeProperties.

(** ** The other buffering strategies *)

Section OverlayProperties.

Import Overlay.

Context {Data Matrix : Type}.
Variable data_getitem : Data -> DataKey -> Py.Result Matrix.
Variable matrix_getitem : Matrix -> list GenomicRegion -> Py.Result Matrix.
Variable region_contains : GenomicRegion -> GenomicRegion -> bool.

(** X17. Under [fixed(k)] a first query prefetches, for each axis region
    [[start, end]], the region [[max(1, start - k), end + k]] in one
    read of the data (for [k >= 0] and [1 <= start] it covers the
    query); a region without a start or an end is buffered as its whole
    chromosome; a later query whose regions the buffered ones contain
    is sliced from the cached matrix, with no read. *)
Theorem fixed_prefetch_then_cache_hit
    (d : Data) (k : Z) (query later : list GenomicRegion) (m : Matrix)
    (Hfetch : data_getitem d (RegionKeys (List.map (fixed_region k) (rev query)))
              = Py.Ok m)
    (Hsub : all_contained region_contains
              (List.map (fixed_region k) (rev query)) (rev later) = true) :
  let bm0 := mkBufferedMatrix (Some d) "fixed" k None None in
  let o1 := get_matrix data_getitem matrix_getitem region_contains bm0 query in
  new (Some d) "fixed" k = Py.Ok bm0
  /\ (forall c s e,
        fixed_region k (mkGenomicRegion c (Some s) (Some e))
        = mkGenomicRegion c (Some (Z.max 1 (s - k))) (Some (e + k))
        /\ (0 <= k -> 1 <= s -> Z.max 1 (s - k) <= s /\ e <= e + k))
  /\ (forall c s e, s = None \/ e = None ->
        fixed_region k (mkGenomicRegion c s e) = mkGenomicRegion c None None)
  /\ fetched o1 = [RegionKeys (List.map (fixed_region k) (rev query))]
  /\ buffered_region (state o1)
     = Some (RegionsBuffered (List.map (fixed_region k) (rev query)))
  /\ buffered_matrix (state o1) = Some m
  /\ result o1 = matrix_getitem m (rev query)
  /\ get_matrix data_getitem matrix_getitem region_contains (state o1) later
     = mkOutcome (state o1) [] (matrix_getitem m (rev later)).
Proof.
intros bm0 o1.
assert (Ho : o1 = mkOutcome
                    (mkBufferedMatrix (Some d) "fixed" k
                       (Some (RegionsBuffered (List.map (fixed_region k) (rev query))))
                       (Some m))
                    [RegionKeys (List.map (fixed_region k) (rev query))]
                    (matrix_getitem m (rev query))).
{ unfold o1, get_matrix, bm0. simpl.
  change (_BUFFERING_STRATEGIES !! "fixed") with (Some BufferFixed).
  simpl. unfold _buffer_fixed, fetch. simpl. rewrite Hfetch. reflexivity. }
split; [reflexivity|]. split.
{ intros c s e. split; [reflexivity|]. lia. }
split.
{ intros c s e [->| ->]; [reflexivity|]. destruct s; reflexivity. }
rewrite Ho. simpl.
split; [reflexivity|]. split; [reflexivity|]. split; [reflexivity|].
split; [reflexivity|].
apply (cache_hit _ _ _ _ (List.map (fixed_region k) (rev query)) later m);
  [reflexivity|reflexivity|exact Hsub].
Qed.

(** X18. Under ["all"] the first query reads the whole data once, with
    one full slice per queried region, and every later query, whatever
    its regions, is sliced from that matrix without a further read. *)
Theorem all_strategy_reads_once
    (d : Data) (k : Z) (query : list GenomicRegion) (m : Matrix)
    (Hfetch : data_getitem d (FullSlices (length query)) = Py.Ok m) :
  let bm0 := mkBufferedMatrix (Some d) "all" k None None in
  let o1 := get_matrix data_getitem matrix_getitem region_contains bm0 query in
  new (Some d) "all" k = Py.Ok bm0
  /\ fetched o1 = [FullSlices (length query)]
  /\ buffered_region (state o1) = Some AllBuffered
  /\ buffered_matrix (state o1) = Some m
  /\ result o1 = matrix_getitem m (rev query)
  /\ (forall later,
        get_matrix data_getitem matrix_getitem region_contains (state o1) later
        = mkOutcome (state o1) [] (matrix_getitem m (rev later))).
Proof.
intros bm0 o1.
assert (Ho : o1 = mkOutcome
                    (mkBufferedMatrix (Some d) "all" k (Some AllBuffered) (Some m))
                    [FullSlices (length query)]
                    (matrix_getitem m (rev query))).
{ unfold o1, get_matrix, bm0. simpl.
  change (_BUFFERING_STRATEGIES !! "all") with (Some BufferAll).
  simpl. unfold _buffer_all, fetch. simpl. rewrite length_rev, Hfetch. reflexivity. }
split; [reflexivity|]. rewrite Ho. simpl.
split; [reflexivity|]. split; [reflexivity|]. split; [reflexivity|].
split; [reflexivity|]. intros later. reflexivity.
Qed.

(** X19. A [BufferedMatrix] made by [from_hic_matrix] holds no data
    object and never needs one: every query is sliced from the wrapped
    matrix, nothing is read and the object does not change. *)
Theorem wrapped_matrix_serves_every_query (hic_matrix : Matrix) :
  exists bm,
    from_hic_matrix hic_matrix = Py.Ok bm
    /\ data bm = None
    /\ buffering_strategy bm = "all"
    /\ forall regions,
         is_buffered_region region_contains bm regions = true
         /\ get_matrix data_getitem matrix_getitem region_contains bm regions
            = mkOutcome bm [] (matrix_getitem hic_matrix (rev regions)).
Proof.
eexists. split; [reflexivity|]. split; [reflexivity|]. split; [reflexivity|].
intros regions. split; reflexivity.
Qed.

(** X20. [_buffer_relative] replaces [buffered_region] before it reads
    the data. When that read raises, [get_matrix] raises too, and the
    object keeps the new regions with the old matrix: a later query
    inside the new regions is then sliced from the old matrix, with no
    read. *)
Theorem failed_read_leaves_stale_matrix
    (d : Data) (k : Z) (old : option BufferedRegion) (m0 : Matrix)
    (query later : list GenomicRegion) (e : Py.Exc)
    (Hmiss : is_buffered_region region_contains
               (mkBufferedMatrix (Some d) "relative" k old (Some m0)) (rev query)
             = false)
    (Hfetch : data_getitem d (RegionKeys (List.map (relative_region k) (rev query)))
              = Py.Raise e)
    (Hsub : all_contained region_contains
              (List.map (relative_region k) (rev query)) (rev later) = true) :
  let bm := mkBufferedMatrix (Some d) "relative" k old (Some m0) in
  let o1 := get_matrix data_getitem matrix_getitem region_contains bm query in
  result o1 = Py.Raise e
  /\ fetched o1 = [RegionKeys (List.map (relative_region k) (rev query))]
  /\ buffered_region (state o1)
     = Some (RegionsBuffered (List.map (relative_region k) (rev query)))
  /\ buffered_matrix (state o1) = Some m0
  /\ get_matrix data_getitem matrix_getitem region_contains (state o1) later
     = mkOutcome (state o1) [] (matrix_getitem m0 (rev later)).
Proof.
intros bm o1.
assert (Ho : o1 = mkOutcome
                    (mkBufferedMatrix (Some d) "relative" k
                       (Some (RegionsBuffered (List.map (relative_region k) (rev query))))
                       (Some m0))
                    [RegionKeys (List.map (relative_region k) (rev query))]
                    (Py.Raise e)).
{ unfold o1, bm, get_matrix. cbv zeta. rewrite Hmiss. simpl.
  change (_BUFFERING_STRATEGIES !! "relative") with (Some BufferRelative).
  simpl. unfold _buffer_relative, fetch. simpl. rewrite Hfetch. reflexivity. }
rewrite Ho. simpl.
split; [reflexivity|]. split; [reflexivity|]. split; [reflexivity|].
split; [reflexivity|].
apply (cache_hit _ _ _ _ (List.map (relative_region k) (rev query)) later m0);
  [reflexivity|reflexivity|exact Hsub].
Qed.

Lemma all_contained_app rbs : forall rqs extra,
  (length rbs <= length rqs)%nat ->
  all_contained region_contains rbs (rqs ++ extra)
  = all_contained region_contains rbs rqs.
Proof.
unfold all_contained.
induction rbs as [|rb rbs IH]; intros rqs extra Hlen; [reflexivity|].
destruct rqs as [|rq rqs]; [simpl in Hlen; lia|].
simpl. rewrite IH by (simpl in Hlen; lia). reflexivity.
Qed.

(** X21. [is_buffered_region] pairs the buffered regions with the
    queried ones by [izip], which stops at the shorter list: regions of
    the query beyond the number of buffered ones are not looked at, and
    a query without regions is buffered as soon as anything is. *)
Theorem surplus_query_regions_are_not_checked
    (bm : @BufferedMatrix Data Matrix) (rbs rqs extra : list GenomicRegion) (m : Matrix)
    (Hregion : buffered_region bm = Some (RegionsBuffered rbs))
    (Hmatrix : buffered_matrix bm = Some m)
    (Hlen : (length rbs <= length rqs)%nat) :
  is_buffered_region region_contains bm (rqs ++ extra)
  = is_buffered_region region_contains bm rqs
  /\ is_buffered_region region_contains bm [] = true.
Proof.
unfold is_buffered_region. rewrite Hregion, Hmatrix. split.
- apply all_contained_app, Hlen.
- unfold all_contained. destruct rbs; reflexivity.
Qed.

End OverlayProperties.

Lemma fixed_prefetch_then_cache_hit_witness :
  let data_getitem := fun (_ : unit) key =>
    match key with
    | Overlay.RegionKeys rs => Py.Ok rs
    | Overlay.FullSlices _ => Py.Ok []
    end in
  let matrix_getitem := fun (_ : list Overlay.GenomicRegion) rs => Py.Ok rs in
  let q := [Overlay.mkGenomicRegion "chr1" (Some 100) (Some 200)] in
  let later := [Overlay.mkGenomicRegion "chr1" (Some 60) (Some 240)] in
  let o1 := Overlay.get_matrix data_getitem matrix_getitem Overlay.contains
              (Overlay.mkBufferedMatrix (Some tt) "fixed" 50 None None) q in
  Overlay.fetched o1
    = [Overlay.RegionKeys [Overlay.mkGenomicRegion "chr1" (Some 50) (Some 250)]]
  /\ Overlay.get_matrix data_getitem matrix_getitem Overlay.contains
       (Overlay.state o1) later
     = Overlay.mkOutcome (Overlay.state o1) [] (Py.Ok later).
Proof.
intros data_getitem matrix_getitem q later o1.
destruct (fixed_prefetch_then_cache_hit data_getitem matrix_getitem Overlay.contains
            tt 50 q later
            [Overlay.mkGenomicRegion "chr1" (Some 50) (Some 250)]
            eq_refl eq_refl)
  as (_ & _ & _ & H1 & _ & _ & _ & H2).
split; [exact H1|exact H2].
Defined.

Lemma all_strategy_reads_once_witness :
  let data_getitem := fun (_ : unit) key =>
    match key with
    | Overlay.RegionKeys rs => Py.Ok rs
    | Overlay.FullSlices _ => Py.Ok []
    end in
  let matrix_getitem := fun (_ : list Overlay.GenomicRegion) rs => Py.Ok rs in
  let q := [Overlay.mkGenomicRegion "chr1" (Some 100) (Some 200)] in
  let later := [Overlay.mkGenomicRegion "chr2" (Some 1) (Some 10)] in
  let o1 := Overlay.get_matrix data_getitem matrix_getitem Overlay.contains
              (Overlay.mkBufferedMatrix (Some tt) "all" 1 None None) q in
  Overlay.fetched o1 = [Overlay.FullSlices 1]
  /\ Overlay.get_matrix data_getitem matrix_getitem Overlay.contains
       (Overlay.state o1) later
     = Overlay.mkOutcome (Overlay.state o1) [] (Py.Ok later).
Proof.
intros data_getitem matrix_getitem q later o1.
destruct (all_strategy_reads_once data_getitem matrix_getitem Overlay.contains
            tt 1 q [] eq_refl)
  as (_ & H1 & _ & _ & _ & H2).
split; [exact H1|exact (H2 later)].
Defined.

Lemma failed_read_leaves_stale_matrix_witness :
  let data_getitem := fun (_ : unit) (key : Overlay.DataKey) =>
    @Py.Raise (list Overlay.GenomicRegion) Py.KeyError in
  let matrix_getitem := fun (_ : list Overlay.GenomicRegion) rs => Py.Ok rs in
  let q := [Overlay.mkGenomicRegion "chr1" (Some 100) (Some 200)] in
  let later := [Overlay.mkGenomicRegion "chr1" (Some 150) (Some 180)] in
  let o1 := Overlay.get_matrix data_getitem matrix_getitem Overlay.contains
              (Overlay.mkBufferedMatrix (Some tt) "relative" 1
                 (Some (Overlay.RegionsBuffered
                          [Overlay.mkGenomicRegion "chr2" (Some 1) (Some 10)]))
                 (Some [])) q in
  Overlay.result o1 = Py.Raise Py.KeyError
  /\ Overlay.get_matrix data_getitem matrix_getitem Overlay.contains
       (Overlay.state o1) later
     = Overlay.mkOutcome (Overlay.state o1) [] (Py.Ok later).
Proof.
intros data_getitem matrix_getitem q later o1.
destruct (failed_read_leaves_stale_matrix data_getitem matrix_getitem Overlay.contains
            tt 1
            (Some (Overlay.RegionsBuffered
                     [Overlay.mkGenomicRegion "chr2" (Some 1) (Some 10)]))
            [] q later Py.KeyError eq_refl eq_refl eq_refl)
  as (H1 & _ & _ & _ & H2).
split; [exact H1|exact H2].
Defined.

Lemma surplus_query_regions_are_not_checked_witness :
  let rb := Overlay.mkGenomicRegion "chr1" (Some 1) (Some 300) in
  let rq := Overlay.mkGenomicRegion "chr1" (Some 100) (Some 200) in
  let far := Overlay.mkGenomicRegion "chr2" (Some 5000) (Some 6000) in
  let bm := Overlay.mkBufferedMatrix (Some tt) "relative" 1
              (Some (Overlay.RegionsBuffered [rb])) (Some tt) in
  Overlay.is_buffered_region Overlay.contains bm ([rq] ++ [far])
  = Overlay.is_buffered_region Overlay.contains bm [rq].
Proof.
intros rb rq far bm.
refine (proj1 (surplus_query_regions_are_not_checked Overlay.contains bm [rb] [rq] [far] tt
                 eq_refl eq_refl _)).
simpl. lia.
Defined.

(** ** Flushing the buffer, updating a row, the window *)

Section StoreProperties.

Import Store Container Scenario.

(** X22. [_flush_table_edge_buffer] appends the buffered records of
    every key to the table of that key, creating the table when there is
    none, leaves the other tables as they are and empties the buffer;
    it does not clear the dirty flags. *)
Theorem flush_buffer_appends_per_table (st : Store.T) (key : nat * nat) :
  _edge_table_dict (_flush_table_edge_buffer st) !! key
  = match _edge_buffer st !! key with
    | Some records => Some (default [] (_edge_table_dict st !! key) ++ records)
    | None => _edge_table_dict st !! key
    end
  /\ _edge_buffer (_flush_table_edge_buffer st) = ∅
  /\ _edges_dirty (_flush_table_edge_buffer st) = _edges_dirty st
  /\ _edge_index_dirty (_flush_table_edge_buffer st) = _edge_index_dirty st.
Proof.
split; [apply flush_lookup|]. split; [reflexivity|]. split; reflexivity.
Qed.

Lemma sum_lengths_alter (f : list Row -> list Row) (key : nat * nat)
    (tables : gmap (nat * nat) (list Row)) :
  (forall rows, length (f rows) = length rows) ->
  map_fold (fun _ edge_table s => (s + length edge_table)%nat) 0%nat (alter f key tables)
  = map_fold (fun _ edge_table s => (s + length edge_table)%nat) 0%nat tables.
Proof.
intros Hf. destruct (tables !! key) as [rows|] eqn:E.
- rewrite <- (insert_delete_id tables key rows E) at 2.
  rewrite <- (insert_delete_id tables key rows E) at 1.
  rewrite alter_insert_eq.
  rewrite !map_fold_insert_L; try apply lookup_delete_eq; try (intros; lia).
  rewrite Hf. reflexivity.
- f_equal. apply map_eq. intros k. destruct (decide (k = key)) as [->|Hne].
  + rewrite lookup_alter_eq, E. reflexivity.
  + rewrite lookup_alter_ne by congruence. reflexivity.
Qed.

(** X23. [_add_edge] with a row handle rewrites that one row: the
    buffer, the breaks and the number of rows of every table stay as
    they are, every other row of every table is untouched, and the
    store is marked dirty. *)
Theorem row_update_changes_one_row
    (st : Store.T) (e : Edge) (h : RowHandle) (replace : bool) :
  _edge_buffer (_add_edge st e (Some h) replace) = _edge_buffer st
  /\ _partition_breaks (_add_edge st e (Some h) replace) = _partition_breaks st
  /\ _edges_dirty (_add_edge st e (Some h) replace) = true
  /\ (forall key,
        length <$> _edge_table_dict (_add_edge st e (Some h) replace) !! key
        = length <$> _edge_table_dict st !! key)
  /\ (forall key pos, (key, pos) <> (h_table h, h_pos h) ->
        (_edge_table_dict (_add_edge st e (Some h) replace) !! key ≫= fun rows => rows !! pos)
        = (_edge_table_dict st !! key ≫= fun rows => rows !! pos))
  /\ _edges_length (_add_edge st e (Some h) replace) = _edges_length st.
Proof.
unfold _add_edge.
destruct (source e >? sink e); simpl;
  (split; [reflexivity|]); (split; [reflexivity|]); (split; [reflexivity|]);
  (split; [|split]).
all: try (intros key; destruct (decide (key = h_table h)) as [->|Hne];
          [rewrite lookup_alter_eq; destruct (_edge_table_dict st !! h_table h); simpl;
             [rewrite length_alter|]; reflexivity
          |rewrite lookup_alter_ne by congruence; reflexivity]).
all: try (intros key pos Hne; destruct (decide (key = h_table h)) as [->|Hk];
          [rewrite lookup_alter_eq; destruct (_edge_table_dict st !! h_table h); simpl;
             [apply list_lookup_alter_ne; congruence|reflexivity]
          |rewrite lookup_alter_ne by congruence; reflexivity]).
all: unfold _edges_length; simpl; apply sum_lengths_alter; intros rows; apply length_alter.
Qed.




End StoreProperties.

(** ** Covered partitions and [flush] *)

Section CoverProperties.

Import Store Scenario.

Lemma strictly_increasing_nth_lt a :
  Py.strictly_increasing a = true ->
  forall i j, (i < j < length a)%nat -> nth i a 0 < nth j a 0.
Proof.
induction a as [|b a IH]; intros Hs i j Hij; [simpl in Hij; lia|].
destruct j as [|j]; [lia|]. simpl in Hij.
destruct i as [|i].
- simpl. apply (strictly_increasing_lt a b _ Hs). apply nth_In. lia.
- simpl. apply (IH (strictly_increasing_tail b a Hs)). lia.
Qed.

Lemma bisect_right_splits a x :
  Py.strictly_increasing a = true -> splits_at a x (Py.bisect_right a x).
Proof.
intros Hs. apply bisect_loop_splits; try lia.
apply strictly_increasing_sorted, Hs.
Qed.

Lemma bisect_right_iff a x p :
  Py.strictly_increasing a = true -> Py.bisect_right a x = p <-> splits_at a x p.
Proof.
intros Hs. split.
- intros <-. apply bisect_right_splits, Hs.
- intros H. rewrite (bisect_right_upper_bound a x Hs). apply splits_at_upper_bound, H.
Qed.

Lemma range_step_below step fuel : forall cur stop b,
  In b (range_step fuel cur stop step) -> b < stop.
Proof.
induction fuel as [|fuel IH]; intros cur stop b H; [destruct H|].
simpl in H. destruct (Z.ltb_spec cur stop); [|destruct H].
destruct H as [<-|H]; [assumption|apply (IH _ _ _ H)].
Qed.

(** The computed breaks are indices of regions other than the first. *)
Lemma compute_breaks_inside strategy rs b :
  In b (compute_breaks strategy rs) -> 0 < b < Z.of_nat (length rs).
Proof.
destruct strategy as [|B|]; simpl; [| |intros []].
- intros H. apply chromosome_breaks_spec in H as (k & r & -> & Hr & Hk).
  apply lookup_lt_Some in Hr.
  destruct k as [|k]; [destruct Hk as (c & [=] & _)|]. lia.
- intros H. split.
  + apply range_step_above in H; lia.
  + apply range_step_below in H. exact H.
Qed.

(** [_is_partition_covered] of a partition of the store never raises. *)
Lemma partition_covered_value st p a b :
  (p <= length (_partition_breaks st))%nat ->
  _is_partition_covered st p a b
  = Py.Ok ((a <=? partition_first st p) && (b >=? partition_stop st p - 1)).
Proof.
intros Hp. unfold _is_partition_covered, partition_first, partition_stop.
assert (Hstart : (if (0 <? p)%nat
                  then match _partition_breaks st !! (p - 1)%nat with
                       | Some b0 => Py.Ok b0
                       | None => Py.Raise Py.IndexError
                       end
                  else Py.Ok 0)
                 = Py.Ok (if (0 <? p)%nat then nth (p - 1) (_partition_breaks st) 0 else 0)).
{ destruct (Nat.ltb_spec 0 p) as [H0|H0]; [|reflexivity].
  destruct (nth_lookup_or_length (_partition_breaks st) (p - 1) 0) as [->|Hge];
    [reflexivity|lia]. }
rewrite Hstart. simpl. do 3 f_equal. rewrite nth_lookup.
destruct (Nat.ltb_spec p (length (_partition_breaks st))) as [H0|H0].
- destruct (lookup_lt_is_Some_2 (_partition_breaks st) p H0) as [z ->]. reflexivity.
- rewrite lookup_ge_None_2 by lia. reflexivity.
Qed.

(** The indices of partition [p]: from its first index up to its stop. *)
Lemma partition_members st p x :
  Py.strictly_increasing (_partition_breaks st) = true ->
  (p <= length (_partition_breaks st))%nat ->
  _get_partition_ix st x = p <->
  (partition_first st p <= x \/ p = 0%nat)
  /\ (x < partition_stop st p \/ (length (_partition_breaks st) <= p)%nat).
Proof.
intros Hinc Hp. pose proof (strictly_increasing_nth_lt _ Hinc) as Hlt.
unfold _get_partition_ix. rewrite (bisect_right_iff _ x p Hinc).
unfold splits_at, partition_first, partition_stop. split.
- intros (_ & Hl & Hg). split.
  + destruct (Nat.ltb_spec 0 p); [left; apply Hl; lia|right; lia].
  + destruct (Nat.ltb_spec p (length (_partition_breaks st))); [left; apply Hg; lia|right; lia].
- intros [Hl Hg]. split; [exact Hp|]. split.
  + intros k Hk. destruct (Nat.ltb_spec 0 p); [|lia].
    destruct Hl as [Hl|Hl]; [|lia].
    destruct (decide (k = (p - 1)%nat)) as [->|Hne]; [exact Hl|].
    pose proof (Hlt k (p - 1)%nat ltac:(lia)). lia.
  + intros k Hk. destruct (Nat.ltb_spec p (length (_partition_breaks st))); [|lia].
    destruct Hg as [Hg|Hg]; [|lia].
    destruct (decide (k = p)) as [->|Hne]; [exact Hg|].
    pose proof (Hlt p k ltac:(lia)). lia.
Qed.

(** A covered partition lies within the window. *)
Lemma partition_covered_sound st p a b x :
  Py.strictly_increasing (_partition_breaks st) = true ->
  (p <= length (_partition_breaks st))%nat ->
  _is_partition_covered st p a b = Py.Ok true ->
  0 <= x < len_regions st -> _get_partition_ix st x = p -> a <= x <= b.
Proof.
intros Hinc Hp Hcov Hx Hpx. rewrite (partition_covered_value st p a b Hp) in Hcov.
injection Hcov as Hcov. apply andb_true_iff in Hcov as [Ha Hb].
apply Z.leb_le in Ha. apply Z.geb_le in Hb.
apply (partition_members st p x Hinc Hp) in Hpx as [Hl Hg]. split.
- destruct Hl as [Hl|Hl]; [lia|]. unfold partition_first in Ha. subst p. simpl in Ha. lia.
- destruct Hg as [Hg|Hg]; [lia|]. unfold partition_stop in Hb.
  destruct (Nat.ltb_spec p (length (_partition_breaks st))); lia.
Qed.

(** X25. For a partition of a store with regions,
    [_is_partition_covered] answers [True] exactly when the window
    [[region_ix_start, region_ix_end]] contains every region of that
    partition. *)
Theorem partition_covered_iff_window_holds_it
    (st : Store.T) (p : nat) (a b : Z)
    (Hbreaks : _partition_breaks st
               = compute_breaks (_partitioning_strategy st) (regions st))
    (Hp : (p <= length (_partition_breaks st))%nat)
    (Hregions : regions st <> []) :
  exists c,
    _is_partition_covered st p a b = Py.Ok c
    /\ (c = true <->
        forall x, 0 <= x < len_regions st -> _get_partition_ix st x = p -> a <= x <= b).
Proof.
pose proof (compute_breaks_increasing (_partitioning_strategy st) (regions st)) as Hinc.
assert (Hin : forall k, (k < length (_partition_breaks st))%nat ->
                0 < nth k (_partition_breaks st) 0 < len_regions st).
{ intros k Hk. unfold len_regions.
  apply (compute_breaks_inside (_partitioning_strategy st)).
  rewrite <- Hbreaks. apply nth_In, Hk. }
rewrite <- Hbreaks in Hinc.
pose proof (strictly_increasing_nth_lt _ Hinc) as Hlt.
assert (Hn : 0 < len_regions st).
{ unfold len_regions. destruct (regions st); [contradiction|simpl; lia]. }
eexists. split; [apply (partition_covered_value st p a b Hp)|].
assert (Hfirst : 0 <= partition_first st p < len_regions st
                 /\ _get_partition_ix st (partition_first st p) = p).
{ split.
  - unfold partition_first. destruct (Nat.ltb_spec 0 p); [|lia].
    pose proof (Hin (p - 1)%nat ltac:(lia)). lia.
  - apply (partition_members st p _ Hinc Hp). split; [left; lia|].
    destruct (Nat.ltb_spec p (length (_partition_breaks st))) as [H0|H0]; [left|right; lia].
    unfold partition_first, partition_stop.
    destruct (Nat.ltb_spec p (length (_partition_breaks st))); [|lia].
    destruct (Nat.ltb_spec 0 p).
    + apply Hlt. lia.
    + apply Hin. lia. }
assert (Hlast : 0 <= partition_stop st p - 1 < len_regions st
                /\ _get_partition_ix st (partition_stop st p - 1) = p).
{ split.
  - unfold partition_stop.
    destruct (Nat.ltb_spec p (length (_partition_breaks st))); [|lia].
    pose proof (Hin p ltac:(lia)). lia.
  - apply (partition_members st p _ Hinc Hp). split.
    + unfold partition_first, partition_stop.
      destruct (Nat.ltb_spec 0 p); [left|right; lia].
      destruct (Nat.ltb_spec p (length (_partition_breaks st))).
      * pose proof (Hlt (p - 1)%nat p ltac:(lia)). lia.
      * pose proof (Hin (p - 1)%nat ltac:(lia)). lia.
    + destruct (Nat.ltb_spec p (length (_partition_breaks st))); [left; lia|right; lia]. }
split.
- intros Hc x Hx Hpx.
  apply (partition_covered_sound st p a b x Hinc Hp); try assumption.
  rewrite (partition_covered_value st p a b Hp), Hc. reflexivity.
- intros H. rewrite andb_true_iff, Z.leb_le, Z.geb_le. split.
  + apply (H (partition_first st p)); apply Hfirst.
  + apply (H (partition_stop st p - 1)); apply Hlast.
Qed.

Lemma partition_covered_iff_window_holds_it_witness :
  exists c,
    _is_partition_covered store3 1 2 2 = Py.Ok c
    /\ (c = true <->
        forall x, 0 <= x < len_regions store3 -> _get_partition_ix store3 x = 1%nat ->
                  2 <= x <= 2).
Proof.
apply (partition_covered_iff_window_holds_it store3 1 2 2 eq_refl).
- vm_compute. lia.
- vm_compute. discriminate.
Defined.

(** X26. [flush] is idempotent, it is the identity on a store that is
    not dirty, and it leaves the store clean; a well-formed store has
    an empty buffer afterwards. *)
Theorem flush_is_idempotent (st : Store.T) :
  flush (flush st) = flush st
  /\ (_regions_dirty st = false -> _edges_dirty st = false -> flush st = st)
  /\ _regions_dirty (flush st) = false
  /\ _edges_dirty (flush st) = false
  /\ (wf st = true -> _edge_buffer (flush st) = ∅).
Proof.
assert (Hr : _regions_dirty (flush st) = false).
{ unfold flush, _flush_edges, _flush_regions.
  destruct (_regions_dirty st) eqn:E1; simpl;
    destruct (_edges_dirty st) eqn:E2; simpl; try reflexivity; try exact E1;
    destruct (0 <? size (_edge_buffer st))%nat; simpl; try reflexivity; exact E1. }
assert (He : _edges_dirty (flush st) = false).
{ unfold flush, _flush_edges, _flush_regions.
  destruct (_regions_dirty st) eqn:E1; simpl;
    destruct (_edges_dirty st) eqn:E2; simpl; try reflexivity; exact E2. }
split; [|split; [|split; [exact Hr|split; [exact He|apply flush_buffer_empty]]]].
- unfold flush at 1. unfold _flush_regions. rewrite Hr.
  unfold _flush_edges. rewrite He. reflexivity.
- intros H1 H2. unfold flush, _flush_regions, _flush_edges. rewrite H1, H2. reflexivity.
Qed.

End CoverProperties.

(** ** The subset query stays within its window *)

Section PlannerWindow.

Import Store Scenario.

Lemma store_in_range_spec st key table row :
  store_in_range st = true ->
  _edge_table_dict st !! key = Some table -> In row table ->
  0 <= row_source row < len_regions st /\ 0 <= row_sink row < len_regions st.
Proof.
unfold store_in_range, rows_in_range. rewrite forallb_forall. intros H Ht Hrow.
assert (Hin : In (key, table) (map_to_list (_edge_table_dict st)))
  by (apply list_elem_of_In, elem_of_map_to_list, Ht).
apply H in Hin. simpl in Hin. rewrite forallb_forall in Hin. specialize (Hin row Hrow).
rewrite !andb_true_iff, !Z.leb_le, !Z.ltb_lt in Hin. lia.
Qed.

Lemma inner_loop_visits st js rs re cs ce row : forall i,
  In row (inner_loop st i js rs re cs ce).1 ->
  exists i' j', In row (visit_table st i' j' rs re cs ce).1.
Proof.
induction js as [|j js IH]; intros i H; [destruct H|]. simpl in H.
destruct (j <? i)%nat; apply gen_then_in in H as [H|H]; eauto.
Qed.

Lemma outer_loop_visits st js rs re cs ce row : forall is_,
  In row (outer_loop st is_ js rs re cs ce).1 ->
  exists i' j', In row (visit_table st i' j' rs re cs ce).1.
Proof.
induction is_ as [|i is_ IH]; intros H; [destruct H|]. simpl in H.
apply gen_then_in in H as [H|H]; [apply inner_loop_visits in H; exact H|apply IH, H].
Qed.

Lemma visit_table_window st i j rs re cs ce row :
  wf st = true -> regions st <> [] -> store_in_range st = true ->
  In row (visit_table st i j rs re cs ce).1 ->
  in_window_or_transpose rs re cs ce row = true.
Proof.
intros Hwf Hregions Hrange Hrow.
destruct (_edge_table_dict st !! (i, j)) as [table|] eqn:Ht;
  [|unfold visit_table in Hrow; rewrite Ht in Hrow; destruct Hrow].
destruct (ci <- _is_partition_covered st i rs re ;;
          if ci then _is_partition_covered st j cs ce else Py.Ok false)
  as [[|]|e] eqn:Ecov.
- unfold visit_table in Hrow. rewrite Ht, Ecov in Hrow. simpl in Hrow.
  apply wf_spec in Hwf as (Hbreaks & Htables & _ & _).
  destruct (Htables _ _ Ht) as [Hkey Hcan].
  specialize (Hcan row Hrow). apply canonical_in_spec in Hcan as (_ & Hs & Ht').
  simpl in Hs, Ht'.
  unfold key_ok in Hkey. simpl in Hkey. apply andb_true_iff in Hkey as [K1 K2].
  apply Nat.leb_le in K1, K2.
  destruct (store_in_range_spec st _ _ row Hrange Ht Hrow) as [Rs Rt].
  pose proof (compute_breaks_increasing (_partitioning_strategy st) (regions st)) as Hinc.
  rewrite <- Hbreaks in Hinc.
  rewrite (partition_covered_value st i rs re ltac:(lia)) in Ecov. simpl in Ecov.
  destruct ((rs <=? partition_first st i) && (re >=? partition_stop st i - 1)) eqn:E1;
    [|discriminate].
  pose proof (partition_covered_sound st i rs re (row_source row) Hinc ltac:(lia)
                ltac:(rewrite (partition_covered_value st i rs re ltac:(lia)), E1;
                      reflexivity) Rs Hs).
  pose proof (partition_covered_sound st j cs ce (row_sink row) Hinc ltac:(lia) Ecov Rt Ht').
  unfold in_window_or_transpose, in_window. apply orb_true_iff. left.
  rewrite !andb_true_iff, !Z.leb_le. lia.
- destruct (visit_table_predicate_path st i j rs re cs ce table Ht Ecov) as [_ Hperm].
  pose proof (Permutation_in row Hperm Hrow) as Hin.
  apply List.filter_In in Hin as [_ Hin]. exact Hin.
- unfold visit_table in Hrow. rewrite Ht, Ecov in Hrow. destruct Hrow.
Qed.

(** X27. On a well-formed store whose rows have their indices among the
    regions, every row that the subset query yields has its canonical
    pair in the window of the row regions by that of the column
    regions, or in its transpose: no edge from outside the query comes
    back, on the whole-table path either. *)
Theorem subset_yields_window_rows_only
    (st : Store.T) (rows cols : list Region) (row : Row)
    (Hwf : wf st = true)
    (Hregions : regions st <> [])
    (Hrange : store_in_range st = true)
    (Hrow : In row (_edge_subset_rows_from_regions st rows cols).1) :
  in_window_or_transpose
    (_min_max_region_ix st rows).1 (_min_max_region_ix st rows).2
    (_min_max_region_ix st cols).1 (_min_max_region_ix st cols).2 row = true.
Proof.
revert Hrow. unfold _edge_subset_rows_from_regions.
destruct (_min_max_region_ix st rows) as [rs re].
destruct (_min_max_region_ix st cols) as [cs ce]. simpl.
intros Hrow. apply outer_loop_visits in Hrow as (i & j & Hrow).
apply (visit_table_window st i j rs re cs ce row Hwf Hregions Hrange Hrow).
Qed.

Lemma subset_yields_window_rows_only_witness :
  in_window_or_transpose 1 2 1 2 row12 = true.
Proof.
apply (subset_yields_window_rows_only store3 (drop 1 regions3) (drop 1 regions3) row12).
- vm_compute. reflexivity.
- vm_compute. discriminate.
- vm_compute. reflexivity.
- vm_compute. left. reflexivity.
Defined.

End PlannerWindow.

(** ** From the stored rows to the entries *)

Section EntryProperties.

Import Store Assembler Scenario.

Lemma well_indexed_from_spec rs : forall i0 k r,
  well_indexed_from i0 rs = true -> rs !! k = Some r -> ix r = i0 + Z.of_nat k.
Proof.
induction rs as [|r0 rs IH]; intros i0 k r H Hr; [discriminate|].
simpl in H. apply andb_true_iff in H as [H0 H]. apply Z.eqb_eq in H0.
destruct k as [|k]; simpl in Hr.
- injection Hr as <-. lia.
- rewrite (IH (i0 + 1) k r H Hr). lia.
Qed.

Lemma region_at_inside st i :
  well_indexed (regions st) = true -> 0 <= i < len_regions st ->
  exists r, region_at st i = Py.Ok r /\ ix r = i.
Proof.
intros Hix Hi. unfold region_at, len_regions in *.
destruct (Z.leb_spec 0 i); [|lia].
destruct (lookup_lt_is_Some_2 (regions st) (Z.to_nat i)) as [r Hr]; [lia|].
exists r. rewrite Hr. split; [reflexivity|].
rewrite (well_indexed_from_spec _ 0 _ r Hix Hr). lia.
Qed.

Lemma rows_to_entries st rows :
  well_indexed (regions st) = true ->
  rows_in_range (len_regions st) rows = true ->
  exists es,
    rows_to_edges st rows = Py.Ok es
    /\ List.map (fun e => (source e, sink e, default _default_value (weight e))) es
       = List.map entry_of rows.
Proof.
intros Hix. induction rows as [|row rows IH]; intros Hr.
- exists []. split; reflexivity.
- simpl in Hr. apply andb_true_iff in Hr as [Hrow Hrows].
  rewrite !andb_true_iff, !Z.leb_le, !Z.ltb_lt in Hrow.
  destruct (region_at_inside st (row_source row) Hix ltac:(lia)) as (rs & Es & Is).
  destruct (region_at_inside st (row_sink row) Hix ltac:(lia)) as (rt & Et & It).
  destruct (IH Hrows) as (es & Ees & Hes).
  eexists. simpl. unfold _row_to_edge. rewrite Es, Et. simpl. rewrite Ees. simpl.
  split; [reflexivity|]. simpl. rewrite Hes. unfold entry_of, source, sink. simpl.
  rewrite Is, It. reflexivity.
Qed.

(** X28. When the [ix] of every region is its position and every
    stored row has its indices among the regions, [matrix_entries()]
    yields one entry per stored row, in the order of iteration: the
    [source], [sink] and [weight] of that row. *)
Theorem matrix_entries_are_the_stored_rows
    (st : Store.T)
    (Hix : well_indexed (regions st) = true)
    (Hrange : rows_in_range (len_regions st) (_edges_iter st) = true) :
  matrix_entries st None = Py.Ok (List.map entry_of (_edges_iter st)).
Proof.
unfold matrix_entries, edges.
destruct (rows_to_entries st (_edges_iter st) Hix Hrange) as (es & -> & Hes).
simpl. rewrite Hes. reflexivity.
Qed.

Lemma matrix_entries_are_the_stored_rows_witness :
  matrix_entries store3 None
  = Py.Ok [(0, 1, 5%float); (1, 2, 3%float); (0, 2, 1%float)].
Proof.
apply (matrix_entries_are_the_stored_rows store3).
- vm_compute. reflexivity.
- vm_compute. reflexivity.
Defined.

End EntryProperties.
